(** * CryptoSignalChecker: the analytics engine of [binance.js]

    A shallow embedding of the RSI engine, the oversold extractor, the
    breakout/re-entry detector and the incremental cache of [binance.js],
    with the properties of the specification stated and proved over it.

    Conventions of the embedding:
    - a JavaScript number that carries a price or an indicator is an exact
      rational ([Q]) wherever a property rests on the control flow, on the
      shape of the data or on comparisons alone; where it rests on the
      arithmetic of doubles (the range of the RSI, the stop-loss and the
      take-profit of a signal) the code is embedded once more over binary64
      numbers, with their rounding, their infinities and [NaN] (modules
      [RSI64] and [Breakout64]);
    - a time stamp ([Date.getTime()]) is an integer number of milliseconds
      ([Z]), and a [Date] kept in the cache is its time stamp;
    - [null] and [undefined] are [None];
    - a [throw] is the [Throw] constructor of [result];
    - an array is a [list], indexed with stdpp's lookup and insert; an
      array mutated in place is passed on as a new list;
    - [localStorage] is a finite map from keys to cache entries, [Set] is a
      finite set of keys;
    - the exchange is a parameter: a script of HTTP answers for
      [getBinanceKlines], and for the functions above it a function [net]
      that tells how the call for one symbol ends;
    - [Date.now()] is read once per call and passed as [now]. *)

From Stdlib Require Import Floats.
From Stdlib Require Import QArith Qround Qminmax Lqa Ascii.
From stdpp Require Import base list strings pretty gmap sorting.

Open Scope Z_scope.
Open Scope Q_scope.
Open Scope nat_scope.

(** ** Values *)

Inductive result (A : Type) : Type :=
| Ok (a : A)
| Throw (msg : string).
Arguments Ok {A} a.
Arguments Throw {A} msg.

(** [x > 0], [x < 0] and [x !== 0] on numbers. *)
Definition Qgtb (x y : Q) : bool := negb (Qle_bool x y).
Definition Qltb (x y : Q) : bool := negb (Qle_bool y x).
Definition Qneb (x y : Q) : bool := negb (Qeq_bool x y).

Definition ofNat (n : nat) : Q := inject_Z (Z.of_nat n).

(** [arr[i]] on an array of numbers; every access of the model is within
    bounds. *)
Definition at_ (arr : list Q) (i : nat) : Q := default 0%Q (arr !! i).

(** [arr.reduce((a, b) => a + b, 0)] *)
Definition sum (arr : list Q) : Q := foldl Qplus 0%Q arr.

(** ** Candles ([formatKlinesData]) *)

Record Candle : Type := mkCandle {
  timestamp : Z;   (* opening time *)
  open : Q;
  high : Q;
  low : Q;
  close : Q;
  volume : Q;
  closeTime : Z
}.

(** ** RSIEngine: [calculateRSI]

    Over exact rationals: the model that the readings, the history and the
    cache are built on. The range of the values is a matter of binary64
    arithmetic and is proved of [RSI64.calculateRSI] below. *)

Module RSI.

(** [rs = avgLoss !== 0 ? avgGain / avgLoss : 0; 100 - (100 / (1 + rs))] *)
Definition rsiOf (avgGain avgLoss : Q) : Q :=
  let rs := if Qneb avgLoss 0 then (avgGain / avgLoss)%Q else 0%Q in
  (100 - 100 / (1 + rs))%Q.

(** [for (i = 1; i < prices.length; i++) changes.push(prices[i] - prices[i-1])] *)
Definition changesOf (prices : list Q) : list Q :=
  (λ i, (at_ prices i - at_ prices (i - 1))%Q) <$> seq 1 (length prices - 1).

Definition gainsOf (changes : list Q) : list Q :=
  (λ change, if Qgtb change 0 then change else 0%Q) <$> changes.

Definition lossesOf (changes : list Q) : list Q :=
  (λ change, if Qltb change 0 then (- change)%Q else 0%Q) <$> changes.

(** The variables the smoothing loop updates. *)
Record loopState : Type := mkLoop {
  avgGain : Q;
  avgLoss : Q;
  rsiValues : list (option Q)
}.

(** One iteration of the loop at index [i]. *)
Definition wilderStep (period : nat) (gains losses : list Q)
    (st : loopState) (i : nat) : loopState :=
  let changeIndex := i - 1 in
  let g := ((avgGain st * (ofNat period - 1) + at_ gains changeIndex) / ofNat period)%Q in
  let l := ((avgLoss st * (ofNat period - 1) + at_ losses changeIndex) / ofNat period)%Q in
  {| avgGain := g; avgLoss := l;
     rsiValues := <[i := Some (rsiOf g l)]> (rsiValues st) |}.

Definition calculateRSI (prices : list Q) (period : nat) : result (list (option Q)) :=
  if length prices <? period + 1 then
    Throw ("Need at least " +:+ pretty (period + 1) +:+ " prices to calculate RSI")
  else
    let rsi0 := replicate (length prices) None in
    let changes := changesOf prices in
    let gains := gainsOf changes in
    let losses := lossesOf changes in
    let g0 := (sum (take period gains) / ofNat period)%Q in
    let l0 := (sum (take period losses) / ofNat period)%Q in
    let st0 := {| avgGain := g0; avgLoss := l0;
                  rsiValues := <[period := Some (rsiOf g0 l0)]> rsi0 |} in
    Ok (rsiValues
          (foldl (wilderStep period gains losses) st0
                 (seq (period + 1) (length prices - (period + 1))))).

End RSI.


(** ** Arrays: [sort] and the [seen]-set loop that removes duplicates *)

Section Arrays.
Context {A : Type}.

(** [Array.prototype.sort(compareFn)] is stable; [compareFn a b <= 0]
    keeps [a] in front of [b]. *)
Fixpoint insertSorted (compareFn : A → A → Z) (x : A) (l : list A) : list A :=
  match l with
  | [] => [x]
  | y :: l' =>
      if (compareFn x y <=? 0)%Z then x :: y :: l'
      else y :: insertSorted compareFn x l'
  end.

Definition sortWith (compareFn : A → A → Z) (l : list A) : list A :=
  foldr (insertSorted compareFn) [] l.

(** [for (const x of l) { if (!seen.has(key)) { seen.add(key); out.push(x) } }] *)
Fixpoint uniqueFrom (keyOf : A → string) (seen : gset string) (l : list A) : list A :=
  match l with
  | [] => []
  | x :: l' =>
      if decide (keyOf x ∈ seen) then uniqueFrom keyOf seen l'
      else x :: uniqueFrom keyOf ({[keyOf x]} ∪ seen) l'
  end.

(** [arr.slice(from, to)] for [0 <= from]. *)
Definition slice (from to : nat) (l : list A) : list A :=
  take (to - from) (drop from l).
End Arrays.

(** [Math.max(...arr)] of a non-empty array. *)
Definition maxOf (arr : list Z) : Z :=
  match arr with
  | [] => 0%Z
  | x :: rest => foldl Z.max x rest
  end.

(** ** MarketDataSource: [getBinanceKlines] *)

Module Klines.

(** What the exchange answers to one request. [retryAfter] is the
    [Retry-After] header, in seconds, when the server sends one. *)
Record Response : Type := mkResponse {
  status : Z;
  statusText : string;
  retryAfter : option Z;
  body : list Candle
}.

Definition ok (r : Response) : bool :=
  ((200 <=? status r) && (status r <=? 299))%Z.

(** What the function does to the outside world. *)
Inductive Effect : Type :=
| Fetch                 (* one HTTP request *)
| Wait (ms : Z).        (* setTimeout(resolve, ms) *)

(** The exchange is a script of answers, one per request; the function
    returns the effects it performed and how it ended ([None] when the
    script ran out before it returned). *)
Fixpoint getBinanceKlines (server : list Response)
    : list Effect * option (result (list Candle)) :=
  match server with
  | [] => ([], None)
  | response :: rest =>
      if ok response then ([Fetch], Some (Ok (body response)))
      else if (status response =? 429)%Z then
        let waitTime :=
          match retryAfter response with
          | Some seconds => (seconds * 1000)%Z
          | None => 60000%Z
          end in
        let '(effects, outcome) := getBinanceKlines rest in
        (Fetch :: Wait waitTime :: effects, outcome)
      else if (status response =? 418)%Z then
        ([Fetch], Some (Throw "Binance API: IP banned (418). Please wait before retrying."))
      else
        ([Fetch], Some (Throw ("Binance API error: " +:+ pretty (status response)
                                 +:+ " " +:+ statusText response)))
  end.

Definition isFetch (e : Effect) : bool :=
  match e with Fetch => true | Wait _ => false end.

Definition requests (effects : list Effect) : nat :=
  length (filter isFetch effects).

Definition retries (effects : list Effect) : nat := requests effects - 1.

(** Two answers of the exchange: rate limit without a [Retry-After]
    header, and success. *)
Definition tooManyRequests : Response :=
  {| status := 429; statusText := "Too Many Requests"; retryAfter := None; body := [] |}.

Definition success (klines : list Candle) : Response :=
  {| status := 200; statusText := "OK"; retryAfter := None; body := klines |}.

End Klines.

(** ** RSIEngine: [fetchRSIFromBinance] *)

Module Reading.
Record t : Type := mk {
  symbol : string;
  timestamp : Z;
  price : Q;
  rsi : option Q;
  rsi_ma : option Q;
  previous_timestamp : option Z;
  previous_price : option Q;
  previous_rsi : option Q;
  previous_rsi_ma : option Q;
  change : option Q;
  change_ma : option Q;
  price_change : option Q;
  data_points : nat
}.
End Reading.

Module Engine.

(** [arr[arr.length - 1]] and [arr[arr.length - 2]]; [None] is [undefined]. *)
Definition fromEnd {A : Type} (arr : list A) (k : nat) : option A :=
  if length arr <? k then None else arr !! (length arr - k).

(** [v || null] where [v] is a number, [null] or [undefined]: [0] is falsy. *)
Definition orNull (v : option (option Q)) : option Q :=
  match v with
  | Some (Some x) => if Qneb x 0 then Some x else None
  | _ => None
  end.

(** A number or [null] read where a number is expected ([null - x] is [0 - x]). *)
Definition num (v : option Q) : Q := default 0%Q v.

(** The moving average of the RSI. *)
Definition rsiMAOf (rsiValues : list (option Q)) (maPeriod : nat) : list (option Q) :=
  replicate maPeriod None ++
  ((λ i,
      let window := omap id (slice (i - maPeriod + 1) (i + 1) rsiValues) in
      let count := length window in
      if 0 <? count then Some (sum window / ofNat count)%Q else None)
   <$> seq maPeriod (length rsiValues - maPeriod)).

(** The part of [fetchRSIFromBinance] that follows the sort: it reads the
    candles by position. *)
Definition readingOf (symbol : string) (formattedData : list Candle)
    (period maPeriod : nat) : result Reading.t :=
  let prices := close <$> formattedData in
  match RSI.calculateRSI prices period with
  | Throw msg => Throw msg
  | Ok rsiValues =>
      let latestRSI := mjoin (fromEnd rsiValues 1) in
      let previousRSI := orNull (fromEnd rsiValues 2) in
      let rsiMA := rsiMAOf rsiValues maPeriod in
      let latestRSIMA := mjoin (fromEnd rsiMA 1) in
      let previousRSIMA := orNull (fromEnd rsiMA 2) in
      match fromEnd formattedData 1 with
      | None => Throw "TypeError"
      | Some latest =>
          let latestPrice := close latest in
          let latestTimestamp := closeTime latest in
          let previous := fromEnd formattedData 2 in
          let previousPrice := close <$> previous in
          let previousTimestamp := closeTime <$> previous in
          let normal :=
            {| Reading.symbol := symbol;
               Reading.timestamp := latestTimestamp;
               Reading.price := latestPrice;
               Reading.rsi := latestRSI;
               Reading.rsi_ma := latestRSIMA;
               Reading.previous_timestamp := previousTimestamp;
               Reading.previous_price := previousPrice;
               Reading.previous_rsi := previousRSI;
               Reading.previous_rsi_ma := previousRSIMA;
               Reading.change := (λ p, num latestRSI - p)%Q <$> previousRSI;
               Reading.change_ma := (λ p, num latestRSIMA - p)%Q <$> previousRSIMA;
               Reading.price_change := (λ p, latestPrice - p)%Q <$> previousPrice;
               Reading.data_points := length formattedData |} in
          match previous with
          | Some prev =>
              let prevTime := closeTime prev in
              let latestTime := latestTimestamp in
              if (prevTime >? latestTime)%Z then
                let swappedLatestRSI :=
                  match previousRSI with Some _ => previousRSI | None => latestRSI end in
                let swappedLatestRSIMA :=
                  match previousRSIMA with Some _ => previousRSIMA | None => latestRSIMA end in
                let swappedPrevRSI := latestRSI in
                let swappedPrevRSIMA := latestRSIMA in
                Ok {| Reading.symbol := symbol;
                      Reading.timestamp := prevTime;
                      Reading.price := close prev;
                      Reading.rsi := swappedLatestRSI;
                      Reading.rsi_ma := swappedLatestRSIMA;
                      Reading.previous_timestamp := Some latestTimestamp;
                      Reading.previous_price := Some latestPrice;
                      Reading.previous_rsi := swappedPrevRSI;
                      Reading.previous_rsi_ma := swappedPrevRSIMA;
                      Reading.change :=
                        match swappedPrevRSI, swappedLatestRSI with
                        | Some p, Some l => Some (l - p)%Q
                        | _, _ => None
                        end;
                      Reading.change_ma :=
                        match swappedPrevRSIMA, swappedLatestRSIMA with
                        | Some p, Some l => Some (l - p)%Q
                        | _, _ => None
                        end;
                      Reading.price_change := Some (close prev - latestPrice)%Q;
                      Reading.data_points := length formattedData |}
              else Ok normal
          | None => Ok normal
          end
      end
  end.

(** [klines] is what [getBinanceKlines(symbol, '1h', 168)] returned. *)
Definition fetchRSIFromBinance (symbol : string) (klines : list Candle)
    (period maPeriod : nat) : result Reading.t :=
  match klines with
  | [] => Throw ("No klines data returned for " +:+ symbol)
  | _ =>
      let formattedData := sortWith (λ a b, closeTime a - closeTime b)%Z klines in
      readingOf symbol formattedData period maPeriod
  end.

(** Sample answers of the exchange: one candle per hour with the given
    closing prices. *)
Definition hourCandle (i : nat) (c : Q) : Candle :=
  {| timestamp := Z.of_nat i * 3600000; open := c; high := c; low := c; close := c;
     volume := 1; closeTime := Z.of_nat (S i) * 3600000 - 1 |}.

Definition hourly (closes : list Q) : list Candle := imap hourCandle closes.

(** Sixteen hours of rising prices. *)
Definition rising : list Candle :=
  hourly [100; 101; 102; 103; 104; 105; 106; 107; 108; 109; 110; 111; 112; 113;
          114; 115]%Q.

(** Fifteen hours of prices, and a sixteenth candle that carries the close
    time of the fifteenth. *)
Definition repeated : list Candle :=
  hourly [100; 101; 100; 102; 101; 103; 102; 104; 103; 105; 104; 106; 105; 107;
          106]%Q
  ++ [{| timestamp := 14 * 3600000; open := 106; high := 108; low := 106;
         close := 108; volume := 1; closeTime := 15 * 3600000 - 1 |}].

End Engine.

(** ** IncrementalCache: [CacheUtils] and the cadence check *)

Module Cache.

Definition CACHE_PREFIX : string := "crypto_signal_cache_".
Definition CACHE_EXPIRY_MS : Z := 60 * 60 * 1000.

(** The envelope [{ data, timestamp, expiry }] kept in [localStorage]. *)
Record Entry (A : Type) : Type := mkEntry {
  data : A;
  timestamp : Z;
  expiry : Z
}.
Arguments mkEntry {A} _ _ _.
Arguments data {A} _.
Arguments timestamp {A} _.
Arguments expiry {A} _.

(** [localStorage], restricted to the entries that hold an [A]; writes
    never exceed the quota. [now] is [Date.now()]. *)
Definition get {A : Type} (store : gmap string (Entry A)) (now : Z) (key : string)
    : option (A * Z) * gmap string (Entry A) :=
  match store !! (CACHE_PREFIX +:+ key) with
  | None => (None, store)
  | Some cached =>
      if (negb (expiry cached =? 0) && (now >? timestamp cached + expiry cached))%Z
      then (None, delete (CACHE_PREFIX +:+ key) store)
      else (Some (data cached, timestamp cached), store)
  end.

Definition set {A : Type} (store : gmap string (Entry A)) (now : Z) (key : string)
    (data : A) (expiry : Z) : gmap string (Entry A) :=
  <[CACHE_PREFIX +:+ key := mkEntry data now expiry]> store.

Definition getLatestExpectedCandleTime (now : Z) (interval : string) : Z :=
  let intervalMs :=
    if decide (interval = "1h") then (60 * 60 * 1000)%Z else (5 * 60 * 1000)%Z in
  (now / intervalMs * intervalMs)%Z.

(** [lastCandleTime] is a [Date] or a falsy value ([None]). *)
Definition hasNewCandleAvailable (now : Z) (lastCandleTime : option Z)
    (interval : string) : bool :=
  let latestExpected := getLatestExpectedCandleTime now interval in
  (latestExpected >? default 0 lastCandleTime)%Z.

End Cache.

(** ** IncrementalCache: [fetchMultipleRSI] *)

Module MultiRSI.

Definition cacheKey (symbols : list string) (period maPeriod : nat) : string :=
  "rsi_multiple_" +:+ String.concat "_" symbols +:+ "_" +:+ pretty period
    +:+ "_" +:+ pretty maPeriod.

(** [net symbol] is how [getBinanceKlines(symbol, '1h', 168)] ends. The
    third component of the result lists the symbols whose klines were
    requested from the exchange, in order. *)
Definition fetchMultipleRSI (net : string → result (list Candle)) (now : Z)
    (store : gmap string (Cache.Entry (list Reading.t)))
    (symbols : list string) (period maPeriod : nat) (forceRefresh : bool)
    : list Reading.t * gmap string (Cache.Entry (list Reading.t)) * list string :=
  let key := cacheKey symbols period maPeriod in
  let fresh (store : gmap string (Cache.Entry (list Reading.t))) :=
    let results :=
      (λ symbol,
         match net symbol with
         | Ok klines =>
             match Engine.fetchRSIFromBinance symbol klines period maPeriod with
             | Ok result => Some result
             | Throw _ => None
             end
         | Throw _ => None
         end) <$> symbols in
    let filteredResults := omap id results in
    (filteredResults, Cache.set store now key filteredResults (2 * 60 * 60 * 1000)%Z, symbols) in
  if forceRefresh then fresh store
  else
    let '(cached, store) := Cache.get store now key in
    match cached with
    | Some (data, cachedAt) =>
        if 0 <? length data then
          let latestCachedTimestamp :=
            foldl Z.max 0%Z (Reading.timestamp <$> data) in
          if (latestCachedTimestamp >? 0)%Z then
            let needsUpdate :=
              Cache.hasNewCandleAvailable now (Some latestCachedTimestamp) "1h" in
            if negb needsUpdate then (data, store, [])
            else fresh store
          else
            let cacheAge := (now - cachedAt)%Z in
            if (cacheAge <? 5 * 60 * 1000)%Z then (data, store, [])
            else fresh store
        else fresh store
    | None => fresh store
    end.

(** Scenario D: the cache was written at 14:05 and holds one reading whose
    candle closed at 14:00 (2025-11-02, UTC). *)
Definition at1400 : Z := 1762092000000%Z.
Definition at1445 : Z := (at1400 + 45 * 60 * 1000)%Z.
Definition at1501 : Z := (at1400 + 61 * 60 * 1000)%Z.

Definition cachedReading : Reading.t :=
  {| Reading.symbol := "BTC/USDT"; Reading.timestamp := at1400;
     Reading.price := 110000%Q; Reading.rsi := Some 48%Q; Reading.rsi_ma := Some 50%Q;
     Reading.previous_timestamp := Some (at1400 - 3600000)%Z;
     Reading.previous_price := Some 109500%Q; Reading.previous_rsi := Some 47%Q;
     Reading.previous_rsi_ma := Some 50%Q; Reading.change := Some 1%Q;
     Reading.change_ma := Some 0%Q; Reading.price_change := Some 500%Q;
     Reading.data_points := 168 |}.

Definition scenarioD : gmap string (Cache.Entry (list Reading.t)) :=
  {[ Cache.CACHE_PREFIX +:+ cacheKey ["BTC/USDT"] 14 14
     := Cache.mkEntry [cachedReading] (at1400 + 5 * 60 * 1000)%Z (2 * 60 * 60 * 1000)%Z ]}.

Definition offline : string → result (list Candle) := λ _, Throw "offline".

End MultiRSI.

(** ** OversoldExtractor *)

Module Item.
Record t : Type := mk {
  timestamp : Z;
  price : Q;
  rsi : Q;
  symbol : string
}.
End Item.

Module Event.
Record t : Type := mk {
  symbol : string;
  timestamp : Z;
  rsi : Q;
  price : Q
}.
End Event.

Module Oversold.

(** [Number(x.toFixed(2))] *)
Definition toFixed2 (x : Q) : Q := (inject_Z (Qfloor (x * 100 + (1 # 2))) / 100)%Q.

(** [s.replace(pat, '')]: the first occurrence of [pat] is removed. *)
Fixpoint removeFirst (pat s : string) : string :=
  if String.prefix pat s then
    String.substring (String.length pat) (String.length s - String.length pat) s
  else
    match s with
    | EmptyString => EmptyString
    | String c s' => String c (removeFirst pat s')
    end.

(** [net symbol] is how the call of [getBinanceKlines] ends. *)
Definition fetchHistoricalRSI (net : string → result (list Candle)) (now : Z)
    (symbol : string) (days : Z) (period : nat) (sinceTimestamp : option Z)
    : result (list Item.t) :=
  let cutoffTime := (now - days * 24 * 60 * 60 * 1000)%Z in
  match net symbol with
  | Throw msg => Throw msg
  | Ok [] => Ok []
  | Ok klines =>
      let formattedData := sortWith (λ a b, closeTime a - closeTime b)%Z klines in
      let prices := close <$> formattedData in
      match RSI.calculateRSI prices period with
      | Throw msg => Throw msg
      | Ok rsiValues =>
          Ok (omap
                (λ i,
                   match formattedData !! i, rsiValues !! i with
                   | Some candle, Some (Some rsi) =>
                       let candleCloseTime := closeTime candle in
                       if (candleCloseTime >=? cutoffTime)%Z
                          && Qle_bool 0 rsi && Qle_bool rsi 100
                       then
                         let sinceOk :=
                           match sinceTimestamp with
                           | None => true
                           | Some since => (since =? 0)%Z || (candleCloseTime >? since)%Z
                           end in
                         if sinceOk then
                           Some {| Item.timestamp := candleCloseTime;
                                   Item.price := close candle;
                                   Item.rsi := toFixed2 rsi;
                                   Item.symbol := symbol |}
                         else None
                       else None
                   | _, _ => None
                   end)
                (seq period (length formattedData - period)))
      end
  end.

(** The comparator and the key of the merge loop. *)
Definition byTimestampDesc (a b : Event.t) : Z :=
  (Event.timestamp b - Event.timestamp a)%Z.

Definition keyOf (event : Event.t) : string :=
  Event.symbol event +:+ "_" +:+ pretty (Event.timestamp event).

(** Lines "Sort by timestamp ... Remove duplicates": what is written back
    to the cache for the array [mergedEvents]. *)
Definition sortUnique (mergedEvents : list Event.t) : list Event.t :=
  uniqueFrom keyOf ∅ (sortWith byTimestampDesc mergedEvents).

(** The merge of the cached collection with an increment. *)
Definition merge (cachedData allEvents : list Event.t) : list Event.t :=
  sortUnique (cachedData ++ allEvents).

Section FetchOversoldHistory.
(** How JavaScript prints a number inside a template literal. *)
Variable numberToString : Q → string.

Definition cacheKey (symbols : list string) (days : Z) (rsiThreshold : Q) : string :=
  "oversold_" +:+ String.concat "_" symbols +:+ "_" +:+ pretty days
    +:+ "_" +:+ numberToString rsiThreshold.

(** The events of one symbol; a failure of that symbol is caught and
    contributes nothing. *)
Definition oversoldEventsOf (net : string → result (list Candle)) (now : Z)
    (days : Z) (rsiThreshold : Q) (lastTimestamp : option Z) (symbol : string)
    : list Event.t :=
  match fetchHistoricalRSI net now symbol days 14 lastTimestamp with
  | Ok historicalRSI =>
      (λ item, {| Event.symbol := removeFirst "/USDT" symbol;
                  Event.timestamp := Item.timestamp item;
                  Event.rsi := Item.rsi item;
                  Event.price := Item.price item |})
      <$> filter (λ item, Qle_bool (Item.rsi item) rsiThreshold) historicalRSI
  | Throw _ => []
  end.

Definition fetchOversoldHistory (net : string → result (list Candle)) (now : Z)
    (store : gmap string (Cache.Entry (list Event.t)))
    (symbols : list string) (days : Z) (rsiThreshold : Q) (forceRefresh : bool)
    : list Event.t * gmap string (Cache.Entry (list Event.t)) :=
  let key := cacheKey symbols days rsiThreshold in
  let '(cached, store) := Cache.get store now key in
  let cachedData : option (list Event.t) :=
    match cached with
    | Some (data, _) => if 0 <? length data then Some data else None
    | None => None
    end in
  let maxTimestamp := (λ data, maxOf (Event.timestamp <$> data)) <$> cachedData in
  let needsUpdate :=
    match maxTimestamp with
    | Some latest => Cache.hasNewCandleAvailable now (Some latest) "1h"
    | None => true
    end in
  let useCache : option (list Event.t) :=
    match cachedData with
    | Some data =>
        if negb forceRefresh && negb needsUpdate then Some data else None
    | None => None
    end in
  match useCache with
  | Some data => (data, store)
  | None =>
      let lastTimestamp := (λ latest, latest - 60 * 1000)%Z <$> maxTimestamp in
      let allEvents :=
        mjoin (oversoldEventsOf net now days rsiThreshold lastTimestamp <$> symbols) in
      let mergedEvents :=
        match cachedData with
        | Some data =>
            if negb forceRefresh then data ++ allEvents
            else if 0 <? length allEvents then data ++ allEvents
            else allEvents
        | None => allEvents
        end in
      let uniqueEvents := sortUnique mergedEvents in
      let store := Cache.set store now key uniqueEvents (60 * 60 * 1000)%Z in
      match cachedData with
      | Some data =>
          if 0 <? length allEvents then (uniqueEvents, store) else (data, store)
      | None => (uniqueEvents, store)
      end
  end.
(** A call of [fetchOversoldHistory]: the exchange and the clock it meets,
    and whether the refresh is forced. *)
Record Call : Type := mkCall {
  net : string → result (list Candle);
  now : Z;
  forceRefresh : bool
}.

(** The arrays returned by successive calls with the same arguments,
    starting from the cache [store]. *)
Fixpoint returned (symbols : list string) (days : Z) (rsiThreshold : Q)
    (calls : list Call) (store : gmap string (Cache.Entry (list Event.t)))
    : list (list Event.t) :=
  match calls with
  | [] => []
  | call :: rest =>
      let '(events, store) :=
        fetchOversoldHistory (net call) (now call) store symbols days rsiThreshold
          (forceRefresh call) in
      events :: returned symbols days rsiThreshold rest store
  end.
End FetchOversoldHistory.

(** What the specification asks of an array of oversold events. *)
Definition valid (rsiThreshold : Q) (events : list Event.t) : Prop :=
  Forall (λ e, Event.rsi e <= rsiThreshold)%Q events
  ∧ NoDup ((λ e, (Event.symbol e, Event.timestamp e)) <$> events)
  ∧ StronglySorted (λ a b, (Event.timestamp b <= Event.timestamp a)%Z) events.

(** The cache holds a valid array, if any, under the key of the call. *)
Definition cacheValid (key : string) (rsiThreshold : Q)
    (store : gmap string (Cache.Entry (list Event.t))) : Prop :=
  ∀ cached, store !! (Cache.CACHE_PREFIX +:+ key) = Some cached →
            valid rsiThreshold (Cache.data cached).

(** [c] does not occur in [s]. *)
Fixpoint without (c : Ascii.ascii) (s : string) : Prop :=
  match s with
  | EmptyString => True
  | String c' s' => c' ≠ c ∧ without c s'
  end.

(** A sample exchange and two calls: sixteen hours of falling prices, read
    at 16:00 and at 17:00 of the same day. *)
Definition falling : list Candle :=
  Engine.hourly [115; 114; 113; 112; 111; 110; 109; 108; 107; 106; 105; 104; 103;
                 102; 101; 100]%Q.

Definition sampleCalls : list Call :=
  [ {| net := λ _, Ok falling; now := 16 * 3600000; forceRefresh := false |};
    {| net := λ _, Ok falling; now := 17 * 3600000; forceRefresh := false |} ].

Definition printFloor (x : Q) : string := pretty (Qfloor x).

Definition sampleEvent (symbol : string) (timestamp : Z) (rsi : Q) : Event.t :=
  {| Event.symbol := symbol; Event.timestamp := timestamp; Event.rsi := rsi;
     Event.price := 100 |}.

End Oversold.

(** ** BreakoutDetector: the scan of one trading day

    Over exact rationals: the model for the course of the scan and the
    outcome of the signals. What the stop-loss and the take-profit are as
    binary64 numbers is proved of [Breakout64] below. *)

Module Breakout.

Inductive Direction : Type := long | short.
Inductive Outcome : Type := pending | win | loss.

Global Instance Direction_eq_dec : EqDecision Direction.
Proof. solve_decision. Defined.
Global Instance Outcome_eq_dec : EqDecision Outcome.
Proof. solve_decision. Defined.

(** An element of [validBreakoutReentryPairs]. *)
Record Pair : Type := mkPair {
  breakoutTime : Z;
  breakoutPrice : Q;
  breakoutDirection : Direction;
  reentryTime : Z;
  reentryPrice : Q;
  entryPrice : Q;
  stopLoss : Q;
  takeProfit : Q;
  result : Outcome;
  breakoutCandle : Candle;
  reentryCandle : Candle
}.

(** [signal.result = r] *)
Definition setResult (r : Outcome) (s : Pair) : Pair :=
  {| breakoutTime := breakoutTime s; breakoutPrice := breakoutPrice s;
     breakoutDirection := breakoutDirection s; reentryTime := reentryTime s;
     reentryPrice := reentryPrice s; entryPrice := entryPrice s;
     stopLoss := stopLoss s; takeProfit := takeProfit s; result := r;
     breakoutCandle := breakoutCandle s; reentryCandle := reentryCandle s |}.

(** The five [firstBreakout...] variables, which are set and cleared
    together. *)
Record FirstBreakout : Type := mkFirst {
  firstBreakoutIndex : nat;
  firstBreakoutCandle : Candle;
  firstBreakoutTime : Z;
  firstBreakoutPrice : Q;
  firstBreakoutDirection : Direction
}.

Record ScanState : Type := mkScan {
  firstBreakout : option FirstBreakout;
  hasOpenPosition : bool;
  validBreakoutReentryPairs : list Pair
}.

Section Day.
Variables rangeHigh rangeLow : Q.
Variable candlesAfterRange : list Candle.

(** The block "check if this candle closes the open position": whether
    the position was closed, and [lastSignal] after the block. *)
Definition closePosition (lastSignal : Pair) (candle : Candle) : bool * Pair :=
  let direction := breakoutDirection lastSignal in
  let stopLoss := stopLoss lastSignal in
  let takeProfit := takeProfit lastSignal in
  let '(positionClosed, lastSignal) :=
    if bool_decide (direction = long) && Qle_bool (low candle) stopLoss
    then (true, setResult loss lastSignal)
    else if bool_decide (direction = short) && Qle_bool stopLoss (high candle)
    then (true, setResult loss lastSignal)
    else (false, lastSignal) in
  if negb positionClosed then
    if bool_decide (direction = long) && Qle_bool takeProfit (high candle)
    then (true, setResult win lastSignal)
    else if bool_decide (direction = short) && Qle_bool (low candle) takeProfit
    then (true, setResult win lastSignal)
    else (positionClosed, lastSignal)
  else (positionClosed, lastSignal).

(** The side the re-entry comes from. *)
Definition reentryDirectionOf (candle : Candle) (prevCandle : option Candle)
    (currentBreakoutPrice : Q) (currentBreakoutDirection : Direction) : Direction :=
  if Qltb (low candle) rangeLow then long
  else if Qgtb (high candle) rangeHigh then short
  else
    let fromPrev :=
      match prevCandle with
      | Some prevCandle =>
          if Qltb (close prevCandle) rangeLow || Qltb (low prevCandle) rangeLow
          then Some long
          else if Qgtb (close prevCandle) rangeHigh || Qgtb (high prevCandle) rangeHigh
          then Some short
          else None
      | None => None
      end in
    match fromPrev with
    | Some direction => direction
    | None =>
        if Qgtb currentBreakoutPrice rangeHigh then short
        else if Qltb currentBreakoutPrice rangeLow then long
        else currentBreakoutDirection
    end.

(** [lowestPrice] and [highestPrice] over [candlesDuringBreakout]. *)
Definition lowestOf (candlesDuringBreakout : list Candle) : Q :=
  match candlesDuringBreakout with
  | [] => 0%Q
  | first :: _ =>
      foldl (λ lowestPrice breakoutCandle,
               if Qltb (low breakoutCandle) lowestPrice then low breakoutCandle
               else lowestPrice)
            (low first) candlesDuringBreakout
  end.

Definition highestOf (candlesDuringBreakout : list Candle) : Q :=
  match candlesDuringBreakout with
  | [] => 0%Q
  | first :: _ =>
      foldl (λ highestPrice breakoutCandle,
               if Qgtb (high breakoutCandle) highestPrice then high breakoutCandle
               else highestPrice)
            (high first) candlesDuringBreakout
  end.

(** The signal created at the re-entry candle [candle] of index [i]. *)
Definition newSignalAt (first : FirstBreakout) (i : nat) (candle : Candle) : Pair :=
  let currentBreakoutTime := firstBreakoutTime first in
  let currentBreakoutPrice := firstBreakoutPrice first in
  let currentBreakoutDirection := firstBreakoutDirection first in
  let currentReentryTime := closeTime candle in
  let currentReentryPrice := close candle in
  let currentEntryPrice := currentReentryPrice in
  let prevCandle := if 0 <? i then candlesAfterRange !! (i - 1) else None in
  let currentDirection :=
    reentryDirectionOf candle prevCandle currentBreakoutPrice currentBreakoutDirection in
  let candlesDuringBreakout :=
    slice (firstBreakoutIndex first) (i + 1) candlesAfterRange in
  let maxAllowedRisk := (currentEntryPrice * 0.01)%Q in
  let '(currentRisk, currentStopLoss) :=
    if bool_decide (currentDirection = long) then
      let lowestPrice := lowestOf candlesDuringBreakout in
      let calculatedRisk := (currentEntryPrice - lowestPrice)%Q in
      if Qgtb calculatedRisk maxAllowedRisk
      then (maxAllowedRisk, (currentEntryPrice - maxAllowedRisk)%Q)
      else (calculatedRisk, lowestPrice)
    else
      let highestPrice := highestOf candlesDuringBreakout in
      let calculatedRisk := (highestPrice - currentEntryPrice)%Q in
      if Qgtb calculatedRisk maxAllowedRisk
      then (maxAllowedRisk, (currentEntryPrice + maxAllowedRisk)%Q)
      else (calculatedRisk, highestPrice) in
  let currentTakeProfit :=
    if bool_decide (currentDirection = long)
    then (currentEntryPrice + currentRisk * 2)%Q
    else (currentEntryPrice - currentRisk * 2)%Q in
  {| breakoutTime := currentBreakoutTime;
     breakoutPrice := currentBreakoutPrice;
     breakoutDirection := currentDirection;
     reentryTime := currentReentryTime;
     reentryPrice := currentReentryPrice;
     entryPrice := currentEntryPrice;
     stopLoss := currentStopLoss;
     takeProfit := currentTakeProfit;
     result := pending;
     breakoutCandle := firstBreakoutCandle first;
     reentryCandle := candle |}.

(** The part of the loop body that follows the open-position block. *)
Definition detect (st : ScanState) (i : nat) (candle : Candle) : ScanState :=
  let isBreakoutAbove := Qgtb (close candle) rangeHigh in
  let isBreakoutBelow := Qltb (close candle) rangeLow in
  match firstBreakout st with
  | None =>
      if isBreakoutAbove || isBreakoutBelow then
        {| firstBreakout :=
             Some {| firstBreakoutIndex := i;
                     firstBreakoutCandle := candle;
                     firstBreakoutTime := closeTime candle;
                     firstBreakoutPrice := close candle;
                     firstBreakoutDirection := if isBreakoutAbove then short else long |};
           hasOpenPosition := hasOpenPosition st;
           validBreakoutReentryPairs := validBreakoutReentryPairs st |}
      else st
  | Some first =>
      if isBreakoutAbove || isBreakoutBelow then st
      else if Qle_bool (close candle) rangeHigh && Qle_bool rangeLow (close candle) then
        {| firstBreakout := None;
           hasOpenPosition := true;
           validBreakoutReentryPairs :=
             validBreakoutReentryPairs st ++ [newSignalAt first i candle] |}
      else st
  end.

(** One iteration of the loop over [candlesAfterRange]. *)
Definition scanStep (st : ScanState) (i : nat) : ScanState :=
  match candlesAfterRange !! i with
  | None => st
  | Some candle =>
      if hasOpenPosition st then
        let pairs := validBreakoutReentryPairs st in
        match last pairs with
        | Some lastSignal =>
            if bool_decide (result lastSignal = pending) then
              let '(positionClosed, lastSignal) := closePosition lastSignal candle in
              let pairs := <[length pairs - 1 := lastSignal]> pairs in
              if positionClosed then
                detect {| firstBreakout := firstBreakout st;
                          hasOpenPosition := false;
                          validBreakoutReentryPairs := pairs |} i candle
              else
                {| firstBreakout := firstBreakout st;
                   hasOpenPosition := true;
                   validBreakoutReentryPairs := pairs |}
            else
              detect {| firstBreakout := firstBreakout st;
                        hasOpenPosition := false;
                        validBreakoutReentryPairs := pairs |} i candle
        | None =>
            detect {| firstBreakout := firstBreakout st;
                      hasOpenPosition := false;
                      validBreakoutReentryPairs := pairs |} i candle
        end
      else detect st i candle
  end.

Definition scanFrom (st : ScanState) (indices : list nat) : ScanState :=
  foldl scanStep st indices.

(** The state after the whole loop. *)
Definition scanDay : ScanState :=
  scanFrom {| firstBreakout := None; hasOpenPosition := false;
              validBreakoutReentryPairs := [] |}
           (seq 0 (length candlesAfterRange)).
End Day.

(** The signals pushed for the day: the pairs, sorted by breakout time. A
    pushed signal copies the fields of its pair and adds the symbol and the
    range. *)
Definition signalsOfDay (rangeHigh rangeLow : Q) (candlesAfterRange : list Candle)
    : list Pair :=
  sortWith (λ a b, breakoutTime a - breakoutTime b)%Z
    (validBreakoutReentryPairs (scanDay rangeHigh rangeLow candlesAfterRange)).

(** The look-ahead over the following days, for one pending signal:
    [additionalCandles] is what [fetch5MinKlines] returned. *)
Fixpoint checkCandles (pendingSignal : Pair) (candlesAfterReentry : list Candle) : Pair :=
  match candlesAfterReentry with
  | [] => pendingSignal
  | checkCandle :: rest =>
      let direction := breakoutDirection pendingSignal in
      if bool_decide (direction = long) && Qle_bool (low checkCandle) (stopLoss pendingSignal)
      then setResult loss pendingSignal
      else if bool_decide (direction = short)
              && Qle_bool (stopLoss pendingSignal) (high checkCandle)
      then setResult loss pendingSignal
      else if bool_decide (direction = long)
              && Qle_bool (takeProfit pendingSignal) (high checkCandle)
      then setResult win pendingSignal
      else if bool_decide (direction = short)
              && Qle_bool (low checkCandle) (takeProfit pendingSignal)
      then setResult win pendingSignal
      else checkCandles pendingSignal rest
  end.

(** The index of the re-entry candle among [additionalCandles]. *)
Fixpoint findReentryIndex (reentryTime : Z) (additionalCandles : list Candle) (j : nat)
    : option nat :=
  match additionalCandles with
  | [] => None
  | c :: rest =>
      if (Z.abs (closeTime c - reentryTime) <? 60000)%Z then Some j
      else findReentryIndex reentryTime rest (S j)
  end.

Definition resolvePending (additionalCandles : list Candle) (pendingSignal : Pair) : Pair :=
  match additionalCandles with
  | [] => pendingSignal
  | _ =>
      match findReentryIndex (reentryTime pendingSignal) additionalCandles 0 with
      | None => pendingSignal
      | Some reentryIndex =>
          checkCandles pendingSignal (drop (reentryIndex + 1) additionalCandles)
      end
  end.

(** Whether a candle meets the stop-loss, respectively the take-profit,
    condition of a position. *)
Definition hitsStopLoss (s : Pair) (c : Candle) : Prop :=
  match breakoutDirection s with
  | long => (low c <= stopLoss s)%Q
  | short => (stopLoss s <= high c)%Q
  end.

Definition hitsTakeProfit (s : Pair) (c : Candle) : Prop :=
  match breakoutDirection s with
  | long => (takeProfit s <= high c)%Q
  | short => (low c <= takeProfit s)%Q
  end.

Definition sampleCandle (t : Z) (o h l c : Q) : Candle :=
  {| timestamp := (t - 300000)%Z; open := o; high := h; low := l; close := c;
     volume := 1; closeTime := t |}.

(** *** The rules of the specification for a signal

    [extreme] is the lowest low, respectively the highest high, of the
    candles of [window]. *)
Definition isLowest (extreme : Q) (window : list Candle) : Prop :=
  (∃ c, c ∈ window ∧ (low c == extreme)%Q) ∧ (∀ c, c ∈ window → (extreme <= low c)%Q).

Definition isHighest (extreme : Q) (window : list Candle) : Prop :=
  (∃ c, c ∈ window ∧ (high c == extreme)%Q) ∧ (∀ c, c ∈ window → (high c <= extreme)%Q).

(** The signal [s] was created from the breakout candle of index [b] and
    the re-entry candle of index [r] of [candles]. *)
Definition createdAt (candles : list Candle) (b r : nat) (s : Pair) : Prop :=
  b < r
  ∧ candles !! b = Some (breakoutCandle s)
  ∧ candles !! r = Some (reentryCandle s)
  ∧ breakoutPrice s = close (breakoutCandle s)
  ∧ entryPrice s = close (reentryCandle s).

(** Stop-loss and take-profit: the risk is the distance from the entry to
    the most adverse price between breakout and re-entry, capped at 1% of
    the entry; the target is twice the risk away. *)
Definition riskRule (candles : list Candle) (s : Pair) : Prop :=
  ∃ (b r : nat) (extreme risk : Q),
    createdAt candles b r s
    ∧ (risk <= 0.01 * entryPrice s)%Q
    ∧ match breakoutDirection s with
      | long =>
          isLowest extreme (slice b (r + 1) candles)
          ∧ (risk == Qmin (entryPrice s - extreme) (0.01 * entryPrice s))%Q
          ∧ (stopLoss s == entryPrice s - risk)%Q
          ∧ (takeProfit s == entryPrice s + 2 * risk)%Q
      | short =>
          isHighest extreme (slice b (r + 1) candles)
          ∧ (risk == Qmin (extreme - entryPrice s) (0.01 * entryPrice s))%Q
          ∧ (stopLoss s == entryPrice s + risk)%Q
          ∧ (takeProfit s == entryPrice s - 2 * risk)%Q
      end.

(** A candle that closed, or reached, below (above) the range. *)
Definition belowRange (rangeLow : Q) (c : Candle) : Prop :=
  (close c < rangeLow)%Q ∨ (low c < rangeLow)%Q.

Definition aboveRange (rangeHigh : Q) (c : Candle) : Prop :=
  (rangeHigh < close c)%Q ∨ (rangeHigh < high c)%Q.

(** The direction is read from the re-entry candle, then from the candle
    before it, and from the breakout price only when neither decides. *)
Definition directionRule (rangeHigh rangeLow : Q) (candles : list Candle) (s : Pair) : Prop :=
  ∃ (b r : nat) (prevCandle : Candle),
    createdAt candles b r s
    ∧ candles !! (r - 1) = Some prevCandle
    ∧ let direction := breakoutDirection s in
      let reentry := reentryCandle s in
      ((low reentry < rangeLow)%Q → direction = long)
      ∧ (¬ (low reentry < rangeLow)%Q → (rangeHigh < high reentry)%Q → direction = short)
      ∧ (¬ (low reentry < rangeLow)%Q → ¬ (rangeHigh < high reentry)%Q →
         (belowRange rangeLow prevCandle → direction = long)
         ∧ (¬ belowRange rangeLow prevCandle → aboveRange rangeHigh prevCandle →
            direction = short)
         ∧ (¬ belowRange rangeLow prevCandle → ¬ aboveRange rangeHigh prevCandle →
            ((rangeHigh < breakoutPrice s)%Q → direction = short)
            ∧ (¬ (rangeHigh < breakoutPrice s)%Q → (breakoutPrice s < rangeLow)%Q →
               direction = long))).

(** What the scan loop maintains about a breakout that waits for its
    re-entry, before the candle of index [i] is read. *)
Definition waiting (candles : list Candle) (i : nat) (first : FirstBreakout) : Prop :=
  firstBreakoutIndex first < i
  ∧ candles !! firstBreakoutIndex first = Some (firstBreakoutCandle first)
  ∧ firstBreakoutPrice first = close (firstBreakoutCandle first).

(** The invariant of the scan loop before the candle of index [i] is read,
    for a property [good] of signals. *)
Definition scanInvariant (candles : list Candle) (good : Pair → Prop)
    (i : nat) (st : ScanState) : Prop :=
  Forall good (validBreakoutReentryPairs st)
  ∧ ∀ first, firstBreakout st = Some first → waiting candles i first.

(** Scenario B: range 95..100; a close above at 102, then a re-entry at 98
    whose low is 96.5. *)
Definition scenarioB : list Candle :=
  [ sampleCandle 300000 100 102.5 99.5 102;
    sampleCandle 600000 102 102 96.5 98 ].

(** A long position with its stop at 97 and its target at 100, and a candle
    that reaches both. *)
Definition openLong : Pair :=
  {| breakoutTime := 300000; breakoutPrice := 94; breakoutDirection := long;
     reentryTime := 600000; reentryPrice := 98; entryPrice := 98;
     stopLoss := 97; takeProfit := 100; result := pending;
     breakoutCandle := sampleCandle 300000 96 96 93 94;
     reentryCandle := sampleCandle 600000 94 98.5 94 98 |}.

Definition bothHit : Candle := sampleCandle 900000 98 101 96 99.

Definition openState : ScanState :=
  {| firstBreakout := None; hasOpenPosition := true;
     validBreakoutReentryPairs := [openLong] |}.

End Breakout.

(** ** IncrementalCache: the merge of [fetchMultipleBreakoutSignals] *)

Module Signal.
(** A signal as pushed by [detectBreakoutSignals] and kept in the cache. *)
Record t : Type := mk {
  symbol : string;
  rangeDate : string;
  rangeHigh : Q;
  rangeLow : Q;
  rangeCloseTime : Z;
  breakoutTime : Z;
  breakoutPrice : Q;
  breakoutDirection : Breakout.Direction;
  reentryTime : Z;
  reentryPrice : Q;
  entryPrice : Q;
  stopLoss : Q;
  takeProfit : Q;
  result : Breakout.Outcome
}.
End Signal.

Module Signals.

Definition byReentryDesc (a b : Signal.t) : Z :=
  (Signal.reentryTime b - Signal.reentryTime a)%Z.

(** [`${symbol}_${reentryTime.getTime()}_${breakoutTime?.getTime() || ''}`] *)
Definition keyOf (signal : Signal.t) : string :=
  Signal.symbol signal +:+ "_" +:+ pretty (Signal.reentryTime signal) +:+ "_"
    +:+ (if (Signal.breakoutTime signal =? 0)%Z then ""
         else pretty (Signal.breakoutTime signal)).

Definition merge (cachedData allSignals : list Signal.t) : list Signal.t :=
  uniqueFrom keyOf ∅ (sortWith byReentryDesc (cachedData ++ allSignals)).

End Signals.

(** Scenario A of the specification. *)
Definition scenarioA : list Q :=
  [44; 44.3; 44.1; 44.6; 43.6; 44.3; 44.8; 43.7; 44; 44.9; 45.1; 45.5; 45.1; 44.8; 44.5]%Q.


(** ** IncrementalCache: the other operations of [CacheUtils] *)

Module CacheOps.

(** [CacheUtils.remove] *)
Definition remove {A : Type} (store : gmap string (Cache.Entry A)) (key : string)
    : gmap string (Cache.Entry A) :=
  delete (Cache.CACHE_PREFIX +:+ key) store.

(** [CacheUtils.clear]: every key of [localStorage] that starts with the
    prefix is removed. *)
Definition clear {A : Type} (store : gmap string (Cache.Entry A))
    : gmap string (Cache.Entry A) :=
  filter (λ kv, String.prefix Cache.CACHE_PREFIX kv.1 = false) store.

(** [CacheUtils.clearOld]: among the keys that start with the prefix, the
    entries written more than 24 hours before [now] are removed. *)
Definition clearOld {A : Type} (store : gmap string (Cache.Entry A)) (now : Z)
    : gmap string (Cache.Entry A) :=
  let maxAge := (24 * 60 * 60 * 1000)%Z in
  filter (λ kv, String.prefix Cache.CACHE_PREFIX kv.1 = true →
                ¬ (now - Cache.timestamp kv.2 > maxAge)%Z) store.

(** A cache with one foreign key, one fresh entry and one old entry, read
    at [now = 100000000] (more than 24 hours after 0). *)
Definition sampleStore : gmap string (Cache.Entry (list Z)) :=
  {[ "theme" := Cache.mkEntry [1%Z] 0 0;
     Cache.CACHE_PREFIX +:+ "fresh" := Cache.mkEntry [2%Z] 90000000 3600000;
     Cache.CACHE_PREFIX +:+ "old" := Cache.mkEntry [3%Z] 0 0 ]}.

End CacheOps.


(** ** MarketDataSource: the waits of [getBinanceKlines] *)

Module Retry.

(** The wait that follows a 429 answer. *)
Definition waitTimeOf (response : Klines.Response) : Z :=
  match Klines.retryAfter response with
  | Some seconds => (seconds * 1000)%Z
  | None => 60000%Z
  end.

(** The waits among the effects of a call, in order. *)
Definition waits (effects : list Klines.Effect) : list Z :=
  omap (λ e, match e with Klines.Wait ms => Some ms | Klines.Fetch => None end) effects.

Definition rateLimited (response : Klines.Response) : Prop :=
  Klines.status response = 429%Z.

(** A rate-limit answer that asks for 2 seconds, and a server error. *)
Definition slowDown : Klines.Response :=
  {| Klines.status := 429; Klines.statusText := "Too Many Requests";
     Klines.retryAfter := Some 2%Z; Klines.body := [] |}.

Definition serverError : Klines.Response :=
  {| Klines.status := 500; Klines.statusText := "Internal Server Error";
     Klines.retryAfter := None; Klines.body := [] |}.

End Retry.


(** ** RSIEngine: the klines of a refresh *)

Module Range.

(** Whether the reading of a symbol can be computed from what the exchange
    returns for it: at least [period + 1] klines. *)
Definition enoughKlines (net : string → result (list Candle)) (period : nat)
    (symbol : string) : bool :=
  match net symbol with
  | Ok klines => period + 1 <=? length klines
  | Throw _ => false
  end.

(** An exchange that knows two symbols. *)
Definition twoSymbols (symbol : string) : result (list Candle) :=
  if decide (symbol = "BTC/USDT") then Ok Engine.rising
  else if decide (symbol = "ETH/USDT") then Ok Engine.repeated
  else if decide (symbol = "NEW/USDT") then Ok (take 3 Engine.rising)
  else Throw "Binance API error: 400 Bad Request".

End Range.



(** ** BreakoutDetector: the shape of the scan *)

Module Shape.
Import Breakout.

Definition outsideRange (rangeHigh rangeLow price : Q) : Prop :=
  (rangeHigh < price)%Q ∨ (price < rangeLow)%Q.

Definition insideRange (rangeHigh rangeLow price : Q) : Prop :=
  (rangeLow <= price <= rangeHigh)%Q.

(** A position that was closed. *)
Definition resolved (s : Pair) : Prop := result s ≠ pending.

(** The prices and times of a signal: broken out of the range, entered
    back inside it, at the close of its two candles. *)
Definition framed (rangeHigh rangeLow : Q) (s : Pair) : Prop :=
  outsideRange rangeHigh rangeLow (breakoutPrice s)
  ∧ insideRange rangeHigh rangeLow (entryPrice s)
  ∧ reentryPrice s = entryPrice s
  ∧ breakoutTime s = closeTime (breakoutCandle s)
  ∧ reentryTime s = closeTime (reentryCandle s).

(** The signal was created from candles of index below [bound]. *)
Definition spanned (candles : list Candle) (bound : nat) (s : Pair) : Prop :=
  ∃ b r, createdAt candles b r s ∧ r < bound.

(** The re-entry candle of [s] comes before the breakout candle of [s']. *)
Definition before (candles : list Candle) (s s' : Pair) : Prop :=
  ∃ b r b' r', createdAt candles b r s ∧ createdAt candles b' r' s' ∧ r < b'.

Definition boundOf (i : nat) (st : ScanState) : nat :=
  match firstBreakout st with
  | Some first => firstBreakoutIndex first
  | None => i
  end.

(** What the five [firstBreakout...] variables hold while a breakout waits
    for its re-entry. *)
Definition tracked (rangeHigh rangeLow : Q) (candles : list Candle) (i : nat)
    (first : FirstBreakout) : Prop :=
  waiting candles i first
  ∧ outsideRange rangeHigh rangeLow (firstBreakoutPrice first)
  ∧ firstBreakoutTime first = closeTime (firstBreakoutCandle first)
  ∧ firstBreakoutDirection first
    = (if Qgtb (firstBreakoutPrice first) rangeHigh then short else long).

(** The invariant of the scan loop on its three variables, before the
    candle of index [i] is read. *)
Definition scanShape (rangeHigh rangeLow : Q) (candles : list Candle)
    (i : nat) (st : ScanState) : Prop :=
  (∀ front s, validBreakoutReentryPairs st = front ++ [s] → Forall resolved front)
  ∧ (hasOpenPosition st = false → Forall resolved (validBreakoutReentryPairs st))
  ∧ (hasOpenPosition st = true →
     firstBreakout st = None
     ∧ ∃ s, last (validBreakoutReentryPairs st) = Some s ∧ result s = pending)
  ∧ Forall (framed rangeHigh rangeLow) (validBreakoutReentryPairs st)
  ∧ Forall (spanned candles (boundOf i st)) (validBreakoutReentryPairs st)
  ∧ StronglySorted (before candles) (validBreakoutReentryPairs st)
  ∧ (∀ first, firstBreakout st = Some first → tracked rangeHigh rangeLow candles i first).

(** The state of the scan after [n] candles. *)
Definition scanned (rangeHigh rangeLow : Q) (candles : list Candle) (n : nat) : ScanState :=
  scanFrom rangeHigh rangeLow candles
    {| firstBreakout := None; hasOpenPosition := false; validBreakoutReentryPairs := [] |}
    (seq 0 n).

(** Low, close and high of a candle of the exchange, in this order, and
    no negative price. *)
Definition wellFormed (c : Candle) : Prop := (0 <= low c <= close c)%Q ∧ (close c <= high c)%Q.

(** Three breakouts below a range 95..100, each followed by a re-entry;
    the first two positions are closed before the next breakout. *)
Definition threeTrades : list Candle :=
  [ sampleCandle 300000 96 96 93 94;
    sampleCandle 600000 94 96.5 94 96;
    sampleCandle 900000 96 99 95.5 98;
    sampleCandle 1200000 98 98 93.5 94.5;
    sampleCandle 1500000 94.5 97 94.5 96.5;
    sampleCandle 1800000 96.5 96.5 93 94;
    sampleCandle 2100000 94 94.5 93 93.5;
    sampleCandle 2400000 93.5 96 93.5 95.5 ].

End Shape.


(** ** BreakoutDetector: the look-ahead of a pending signal *)

Module LookAhead.
Import Breakout.

Global Instance Qle_decision (x y : Q) : Decision (x <= y)%Q.
Proof. destruct (Qlt_le_dec y x); [right; by apply Qlt_not_le | by left]. Defined.

Global Instance hitsStopLoss_dec (s : Pair) (c : Candle) : Decision (hitsStopLoss s c).
Proof. unfold hitsStopLoss. destruct (breakoutDirection s); apply _. Defined.

Global Instance hitsTakeProfit_dec (s : Pair) (c : Candle) : Decision (hitsTakeProfit s c).
Proof. unfold hitsTakeProfit. destruct (breakoutDirection s); apply _. Defined.

(** [c] is the first of [candles] that reaches the stop-loss or the
    take-profit of [s]. *)
Definition firstDecisive (s : Pair) (candles : list Candle) (c : Candle) : Prop :=
  ∃ pre post,
    candles = pre ++ c :: post
    ∧ Forall (λ c, ¬ hitsStopLoss s c ∧ ¬ hitsTakeProfit s c) pre
    ∧ (hitsStopLoss s c ∨ hitsTakeProfit s c).

(** The candles that follow the re-entry candle of [s] among
    [additionalCandles], when that candle is found. *)
Definition candlesAfterReentry (s : Pair) (additionalCandles : list Candle)
    : option (list Candle) :=
  (λ reentryIndex, drop (reentryIndex + 1) additionalCandles)
  <$> findReentryIndex (reentryTime s) additionalCandles 0.

(** The re-entry candle of [openLong], a quiet candle, and a candle that
    reaches the target only. *)
Definition quiet : Candle := sampleCandle 900000 98 99 97.5 98.5.
Definition reachesTarget : Candle := sampleCandle 1200000 98.5 100.5 98 100.

End LookAhead.


(** ** BreakoutDetector: [fetch5MinKlines] *)

Module FiveMin.

Section Fetch.
(** How the call [getBinanceKlines(symbol, '5m', batchLimit, endTime)] ends. *)
Variable net : nat → option Z → result (list Candle).
Variable limit : nat.
Variable startTime : option Z.

(** [if (startTime)]: [null] and 0 are falsy. *)
Definition since : option Z :=
  match startTime with
  | Some t => if (t =? 0)%Z then None else Some t
  | None => None
  end.

(** [c.closeTime.getTime() >= startTime], when a start time is given. *)
Definition atOrAfter (c : Candle) : Prop :=
  match since with
  | Some t => (t <= closeTime c)%Z
  | None => True
  end.

Global Instance atOrAfter_dec (c : Candle) : Decision (atOrAfter c).
Proof. unfold atOrAfter. destruct since; apply _. Defined.

(** The [while] loop; [None] when [fuel] iterations do not end it. *)
Fixpoint loop (fuel : nat) (allKlines : list Candle) (endTime : option Z)
    : option (result (list Candle)) :=
  let maxCandles := limit in
  if length allKlines <? maxCandles then
    match fuel with
    | 0 => None
    | S fuel =>
        let batchLimit := Nat.min 1000 (maxCandles - length allKlines + 100) in
        match net batchLimit endTime with
        | Throw msg => Some (Throw msg)
        | Ok [] => Some (Ok allKlines)
        | Ok klines =>
            let formattedData := klines in
            let filteredData := filter atOrAfter formattedData in
            if bool_decide (is_Some since) && (length filteredData =? 0)
               && (0 <? length formattedData) && (0 <? length allKlines)
            then Some (Ok allKlines)
            else
              let allKlines := allKlines ++ filteredData in
              if length klines <? batchLimit then Some (Ok allKlines)
              else
                let endTime := (λ oldestCandle, timestamp oldestCandle - 1)%Z
                               <$> last formattedData in
                if maxCandles <=? length allKlines then Some (Ok allKlines)
                else loop fuel allKlines endTime
        end
    end
  else Some (Ok allKlines).

Definition fetch5MinKlines (fuel : nat) : option (result (list Candle)) :=
  match loop fuel [] None with
  | None => None
  | Some (Throw msg) => Some (Throw msg)
  | Some (Ok allKlines) =>
      let sorted := sortWith (λ a b, closeTime a - closeTime b)%Z allKlines in
      let finalData := filter atOrAfter sorted in
      Some (Ok (take limit finalData))
  end.

(** A candle the exchange returned to a request of at most 1000 candles. *)
Definition fetched (c : Candle) : Prop :=
  ∃ batchLimit endTime klines,
    batchLimit ≤ 1000 ∧ net batchLimit endTime = Ok klines ∧ c ∈ klines.
End Fetch.

(** An exchange that holds five candles and returns the most recent ones
    that are asked for, oldest first. *)
Definition fiveCandles : list Candle :=
  [ Breakout.sampleCandle 300000 1 1 1 1; Breakout.sampleCandle 600000 2 2 2 2;
    Breakout.sampleCandle 900000 3 3 3 3; Breakout.sampleCandle 1200000 4 4 4 4;
    Breakout.sampleCandle 1500000 5 5 5 5 ].

Definition recent (batchLimit : nat) (endTime : option Z) : result (list Candle) :=
  let upTo :=
    match endTime with
    | Some t => filter (λ c, (timestamp c <= t)%Z) fiveCandles
    | None => fiveCandles
    end in
  Ok (drop (length upTo - batchLimit) upTo).

End FiveMin.


(** ** BreakoutDetector: breakouts without re-entry *)

Module Potential.
Inductive Side : Type := above | below.

(** An element of [potentialBreakouts]. *)
Record t : Type := mk {
  time : Z;
  price : Q;
  direction : Breakout.Direction;
  candleIndex : nat;
  type : Side;
  low : Q;
  high : Q
}.
End Potential.

Module Unmatched.
(** An element of [breakoutsWithoutReentry]. *)
Record t : Type := mk {
  symbol : string;
  rangeDate : string;
  rangeHigh : Q;
  rangeLow : Q;
  rangeCloseTime : Z;
  breakoutTime : Z;
  breakoutPrice : Q;
  breakoutDirection : Potential.Side;
  isAbove : bool;
  isBelow : bool;
  currentPrice : option Q
}.
End Unmatched.

Module DayEnd.
Section Day.
Variables symbol dateKey : string.
Variables rangeHigh rangeLow : Q.
Variable rangeCloseTime : Z.
Variable candlesAfterRange : list Candle.
(** How the calls of [getBinancePrice(symbol)] end, in order: with a price,
    with an answer that has none, or with an error. *)
Variable prices : nat → result (option Q).

(** The loop that fills [potentialBreakouts], and its sort by time. *)
Definition potentialBreakouts : list Potential.t :=
  sortWith (λ a b, Potential.time a - Potential.time b)%Z
    (mjoin
       (imap
          (λ j candle,
             (if Qgtb (close candle) rangeHigh
              then [ {| Potential.time := closeTime candle;
                        Potential.price := close candle;
                        Potential.direction := Breakout.long;
                        Potential.candleIndex := j;
                        Potential.type := Potential.above;
                        Potential.low := low candle;
                        Potential.high := high candle |} ]
              else [])
             ++ (if Qltb (close candle) rangeLow
                 then [ {| Potential.time := closeTime candle;
                           Potential.price := close candle;
                           Potential.direction := Breakout.short;
                           Potential.candleIndex := j;
                           Potential.type := Potential.below;
                           Potential.low := low candle;
                           Potential.high := high candle |} ]
                 else []))
          candlesAfterRange)).

(** The object pushed for the breakout that still waits, with the current
    price when the request of it gave one. *)
Definition unmatchedOf (first : Breakout.FirstBreakout) (answer : result (option Q))
    : Unmatched.t :=
  {| Unmatched.symbol := Oversold.removeFirst "/USDT" symbol;
     Unmatched.rangeDate := dateKey;
     Unmatched.rangeHigh := rangeHigh;
     Unmatched.rangeLow := rangeLow;
     Unmatched.rangeCloseTime := rangeCloseTime;
     Unmatched.breakoutTime := Breakout.firstBreakoutTime first;
     Unmatched.breakoutPrice := Breakout.firstBreakoutPrice first;
     Unmatched.breakoutDirection :=
       if bool_decide (Breakout.firstBreakoutDirection first = Breakout.long)
       then Potential.below else Potential.above;
     Unmatched.isAbove := Qgtb (Breakout.firstBreakoutPrice first) rangeHigh;
     Unmatched.isBelow := Qltb (Breakout.firstBreakoutPrice first) rangeLow;
     Unmatched.currentPrice :=
       match answer with
       | Ok (Some price) => Some price
       | _ => None
       end |}.

(** What the two blocks that follow the scan push to
    [breakoutsWithoutReentry], and the number of price requests made so
    far, for the state [st] the scan ended in. *)
Definition endOfDay (st : Breakout.ScanState) (calls : nat) : list Unmatched.t * nat :=
  let validBreakoutReentryPairs := Breakout.validBreakoutReentryPairs st in
  let '(pushed, calls) :=
    match Breakout.firstBreakout st with
    | Some first =>
        let hasReentry :=
          existsb (λ pair,
                     (Z.abs (Breakout.breakoutTime pair - Breakout.firstBreakoutTime first)
                      <? 60000)%Z)
                  validBreakoutReentryPairs in
        if negb hasReentry then ([unmatchedOf first (prices calls)], S calls)
        else ([], calls)
    | None => ([], calls)
    end in
  if 0 <? length validBreakoutReentryPairs then (pushed, calls)
  else if length potentialBreakouts =? 0 then (pushed, calls)
  else
    match Breakout.firstBreakout st with
    | Some first => (pushed ++ [unmatchedOf first (prices calls)], S calls)
    | None => (pushed, calls)
    end.

(** The breakouts without re-entry of the day. *)
Definition breakoutsWithoutReentryOfDay (calls : nat) : list Unmatched.t * nat :=
  endOfDay (Breakout.scanDay rangeHigh rangeLow candlesAfterRange) calls.
End Day.

(** A close below a range 95..100 that never comes back. *)
Definition noReentry : list Candle :=
  [ Breakout.sampleCandle 300000 96 96 93 94; Breakout.sampleCandle 600000 94 94.5 92 93 ].

End DayEnd.


(** ** IncrementalCache: the cached breakout fetchers *)

Module Unmatcheds.

Definition byBreakoutDesc (a b : Unmatched.t) : Z :=
  (Unmatched.breakoutTime b - Unmatched.breakoutTime a)%Z.

(** [`${breakout.symbol}_${breakout.breakoutTime.getTime()}_${breakout.rangeDate}`] *)
Definition keyOf (breakout : Unmatched.t) : string :=
  Unmatched.symbol breakout +:+ "_" +:+ pretty (Unmatched.breakoutTime breakout)
    +:+ "_" +:+ Unmatched.rangeDate breakout.

(** "Filter to last 24 hours only", then "sort by breakout time (most
    recent first)". *)
Definition last24Hours (now : Z) (breakouts : list Unmatched.t) : list Unmatched.t :=
  let last24Hours := (now - 24 * 60 * 60 * 1000)%Z in
  sortWith byBreakoutDesc
    (filter (λ breakout, (last24Hours <= Unmatched.breakoutTime breakout)%Z) breakouts).

End Unmatcheds.

Module Detector.

(** What [detectBreakoutSignals] returns. *)
Record Result : Type := mkResult {
  signals : list Signal.t;
  breakoutsWithoutReentry : list Unmatched.t
}.

Section Fetchers.
(** How the call [detectBreakoutSignals(symbol, days, sinceDate)] ends. *)
Variable detectBreakoutSignals : string → Z → option Z → result Result.

(** [lastTime ? new Date(lastTime) : null] *)
Definition sinceDateOf (lastTime : option Z) : option Z :=
  match lastTime with
  | Some t => if (t =? 0)%Z then None else Some t
  | None => None
  end.

Definition fetchMultipleBreakoutSignals (now : Z)
    (store : gmap string (Cache.Entry (list Signal.t)))
    (symbols : list string) (days : Z) (forceRefresh : bool)
    : list Signal.t * gmap string (Cache.Entry (list Signal.t)) :=
  let cacheKey := "breakout_signals_" +:+ String.concat "_" symbols +:+ "_" +:+ pretty days in
  let '(cached, store) := Cache.get store now cacheKey in
  let cachedData : option (list Signal.t) :=
    match cached with
    | Some (data, _) => if 0 <? length data then Some data else None
    | None => None
    end in
  let maxTimestamp := (λ data, maxOf (Signal.reentryTime <$> data)) <$> cachedData in
  let needsUpdate :=
    match maxTimestamp with
    | Some latest => Cache.hasNewCandleAvailable now (Some latest) "5m"
    | None => true
    end in
  let useCache : option (list Signal.t) :=
    match cachedData with
    | Some data => if negb forceRefresh && negb needsUpdate then Some data else None
    | None => None
    end in
  match useCache with
  | Some data => (data, store)
  | None =>
      let lastReentryTime := (λ latest, latest - 60 * 1000)%Z <$> maxTimestamp in
      let allSignals :=
        mjoin ((λ symbol,
                  match detectBreakoutSignals symbol days (sinceDateOf lastReentryTime) with
                  | Ok result => signals result
                  | Throw _ => []
                  end) <$> symbols) in
      let mergedSignals :=
        match cachedData with
        | Some data =>
            if negb forceRefresh then data ++ allSignals
            else if 0 <? length allSignals then data ++ allSignals
            else allSignals
        | None => allSignals
        end in
      let uniqueSignals :=
        uniqueFrom Signals.keyOf ∅ (sortWith Signals.byReentryDesc mergedSignals) in
      let store := Cache.set store now cacheKey uniqueSignals (60 * 60 * 1000)%Z in
      match cachedData with
      | Some data => if 0 <? length allSignals then (uniqueSignals, store) else (data, store)
      | None => (uniqueSignals, store)
      end
  end.

Definition fetchBreakoutsWithoutReentry (now : Z)
    (store : gmap string (Cache.Entry (list Unmatched.t)))
    (symbols : list string) (days : Z) (forceRefresh : bool)
    : list Unmatched.t * gmap string (Cache.Entry (list Unmatched.t)) :=
  let cacheKey :=
    "breakouts_without_reentry_" +:+ String.concat "_" symbols +:+ "_" +:+ pretty days in
  let '(cached, store) := Cache.get store now cacheKey in
  let cachedData : option (list Unmatched.t) :=
    match cached with
    | Some (data, _) => if 0 <? length data then Some data else None
    | None => None
    end in
  let maxTimestamp := (λ data, maxOf (Unmatched.breakoutTime <$> data)) <$> cachedData in
  let needsUpdate :=
    match maxTimestamp with
    | Some latest => Cache.hasNewCandleAvailable now (Some latest) "5m"
    | None => true
    end in
  let useCache : option (list Unmatched.t) :=
    match cachedData with
    | Some data => if negb forceRefresh && negb needsUpdate then Some data else None
    | None => None
    end in
  match useCache with
  | Some data => (Unmatcheds.last24Hours now data, store)
  | None =>
      let lastBreakoutTime := (λ latest, latest - 60 * 1000)%Z <$> maxTimestamp in
      let allBreakouts :=
        mjoin ((λ symbol,
                  match detectBreakoutSignals symbol days (sinceDateOf lastBreakoutTime) with
                  | Ok result => breakoutsWithoutReentry result
                  | Throw _ => []
                  end) <$> symbols) in
      let mergedBreakouts :=
        match cachedData with
        | Some data =>
            if negb forceRefresh then data ++ allBreakouts
            else if 0 <? length allBreakouts then data ++ allBreakouts
            else allBreakouts
        | None => allBreakouts
        end in
      let breakoutsLast24Hours := Unmatcheds.last24Hours now mergedBreakouts in
      let uniqueBreakouts := uniqueFrom Unmatcheds.keyOf ∅ breakoutsLast24Hours in
      let store := Cache.set store now cacheKey uniqueBreakouts (60 * 60 * 1000)%Z in
      match cachedData with
      | Some data =>
          if 0 <? length allBreakouts then (uniqueBreakouts, store)
          else (Unmatcheds.last24Hours now data, store)
      | None => (uniqueBreakouts, store)
      end
  end.
End Fetchers.

(** What the interface shows of an array of signals: no key twice, the
    most recent re-entry first. *)
Definition valid (signals : list Signal.t) : Prop :=
  NoDup (Signals.keyOf <$> signals)
  ∧ StronglySorted (λ a b, (Signal.reentryTime b <= Signal.reentryTime a)%Z) signals.

Definition cacheValid (key : string) (store : gmap string (Cache.Entry (list Signal.t)))
    : Prop :=
  ∀ cached, store !! (Cache.CACHE_PREFIX +:+ key) = Some cached → valid (Cache.data cached).

(** A detector that finds one breakout without re-entry per symbol, twice. *)
Definition sampleUnmatched (symbol : string) (breakoutTime : Z) : Unmatched.t :=
  {| Unmatched.symbol := symbol; Unmatched.rangeDate := "2025-11-01";
     Unmatched.rangeHigh := 100; Unmatched.rangeLow := 95; Unmatched.rangeCloseTime := 0;
     Unmatched.breakoutTime := breakoutTime; Unmatched.breakoutPrice := 94;
     Unmatched.breakoutDirection := Potential.below; Unmatched.isAbove := false;
     Unmatched.isBelow := true; Unmatched.currentPrice := None |}.

Definition sampleDetector (symbol : string) (days : Z) (sinceDate : option Z)
    : result Result :=
  Ok {| signals := [];
        breakoutsWithoutReentry :=
          [sampleUnmatched symbol 300000; sampleUnmatched symbol 300000] |}.

(** A detector that finds two signals per symbol: the older one first, and
    once more at the end. *)
Definition sampleSignal (symbol : string) (reentryTime : Z) : Signal.t :=
  {| Signal.symbol := symbol; Signal.rangeDate := "2025-11-01";
     Signal.rangeHigh := 100; Signal.rangeLow := 95; Signal.rangeCloseTime := 0;
     Signal.breakoutTime := (reentryTime - 300000)%Z; Signal.breakoutPrice := 94;
     Signal.breakoutDirection := Breakout.long;
     Signal.reentryTime := reentryTime; Signal.reentryPrice := 96;
     Signal.entryPrice := 96; Signal.stopLoss := 95.04; Signal.takeProfit := 97.92;
     Signal.result := Breakout.pending |}.

Definition signalDetector (symbol : string) (days : Z) (sinceDate : option Z)
    : result Result :=
  Ok {| signals := [sampleSignal symbol 600000; sampleSignal symbol 900000;
                    sampleSignal symbol 600000];
        breakoutsWithoutReentry := [] |}.

(** A cache written at [650000] that holds the older of these signals. *)
Definition cachedSignals : gmap string (Cache.Entry (list Signal.t)) :=
  {[ Cache.CACHE_PREFIX +:+ "breakout_signals_BTC/USDT_30"
     := Cache.mkEntry [sampleSignal "BTC/USDT" 600000] 650000%Z (60 * 60 * 1000)%Z ]}.

End Detector.


(** ** BreakoutDetector: the range of each day *)

Module DailyRange.
(** A value of the [dailyRanges] map. *)
Record t : Type := mk {
  high : Q;
  low : Q;
  openTime : Z;
  closeTime : Z;
  candle : Candle
}.
End DailyRange.

Module Ranges.

(** A [Map] keeps its keys in the order of their first insertion. *)
Fixpoint mapGet {V : Type} (key : string) (map : list (string * V)) : option V :=
  match map with
  | [] => None
  | (k, v) :: rest => if decide (k = key) then Some v else mapGet key rest
  end.

Fixpoint mapSet {V : Type} (key : string) (value : V) (map : list (string * V))
    : list (string * V) :=
  match map with
  | [] => [(key, value)]
  | (k, v) :: rest =>
      if decide (k = key) then (k, value) :: rest else (k, v) :: mapSet key value rest
  end.

Section Select.
(** What the [Intl.DateTimeFormat] of the time zone [Asia/Bangkok] gives
    for a time stamp: the hour, and the date as [YYYY-MM-DD]. *)
Variable getUTCPlus7Hour : Z → Z.
Variable formatDateUTCPlus7 : Z → string.
(** The clock, and the bounds computed from it and from [sinceDate]. *)
Variables now startTime endTime : Z.

Definition rangeOf (candle : Candle) : DailyRange.t :=
  {| DailyRange.high := high candle;
     DailyRange.low := low candle;
     DailyRange.openTime := timestamp candle;
     DailyRange.closeTime := closeTime candle;
     DailyRange.candle := candle |}.

(** Whether the body of the loop over the 4-hour klines reaches the map
    for this candle. *)
Definition selected (candle : Candle) : bool :=
  let openHourUTC7 := getUTCPlus7Hour (timestamp candle) in
  let closeHourUTC7 := getUTCPlus7Hour (closeTime candle) in
  let opensInRange := (openHourUTC7 =? 11)%Z in
  let closesAtOrNear15 := (closeHourUTC7 =? 14)%Z || (closeHourUTC7 =? 15)%Z in
  if opensInRange && closesAtOrNear15 then
    let rangeCloseTimeUTC := closeTime candle in
    let rangeDate := formatDateUTCPlus7 (closeTime candle) in
    let todayDate := formatDateUTCPlus7 now in
    if (rangeCloseTimeUTC <? startTime)%Z then false
    else if bool_decide (rangeDate = todayDate) then
      if (getUTCPlus7Hour now <? 15)%Z then false else true
    else if (rangeCloseTimeUTC >? endTime)%Z then false
    else true
  else false.

(** One iteration of the loop. *)
Definition step (dailyRanges : list (string * DailyRange.t)) (candle : Candle)
    : list (string * DailyRange.t) :=
  if selected candle then
    let dateKey := formatDateUTCPlus7 (closeTime candle) in
    match mapGet dateKey dailyRanges with
    | None => mapSet dateKey (rangeOf candle) dailyRanges
    | Some existing =>
        let existingRange := (DailyRange.high existing - DailyRange.low existing)%Q in
        let currentRange := (high candle - low candle)%Q in
        if Qgtb currentRange existingRange
        then mapSet dateKey (rangeOf candle) dailyRanges
        else dailyRanges
    end
  else dailyRanges.

Definition dailyRanges (klines : list Candle) : list (string * DailyRange.t) :=
  foldl step [] klines.

(** [Array.from(dailyRanges.entries()).sort(...)] *)
Definition dailyRangeArray (klines : list Candle) : list (string * DailyRange.t) :=
  sortWith (λ a b, DailyRange.closeTime a.2 - DailyRange.closeTime b.2)%Z
    (dailyRanges klines).

(** The width of a candle. *)
Definition width (c : Candle) : Q := (high c - low c)%Q.

(** [range] was made from one of the [klines] that the loop selects for
    the date [dateKey], and none of those is wider. *)
Definition chosen (klines : list Candle) (dateKey : string) (range : DailyRange.t) : Prop :=
  range = rangeOf (DailyRange.candle range)
  ∧ DailyRange.candle range ∈ klines
  ∧ selected (DailyRange.candle range) = true
  ∧ formatDateUTCPlus7 (closeTime (DailyRange.candle range)) = dateKey
  ∧ ∀ c, c ∈ klines → selected c = true → formatDateUTCPlus7 (closeTime c) = dateKey →
         (width c <= width (DailyRange.candle range))%Q.
End Select.

(** The hour and the date of the time zone for times of 1970, and three
    4-hour candles of the first two days: 11:00 to 15:00 on each day, the
    first day twice, the wider candle last. *)
Definition hourOf (t : Z) : Z := ((t + 7 * 3600000) / 3600000 mod 24)%Z.
Definition dateOf (t : Z) : string := "1970-01-0" +:+ pretty ((t + 7 * 3600000) / 86400000 + 1)%Z.

Definition fourHours (openTime : Z) (h l : Q) : Candle :=
  {| timestamp := openTime; open := l; high := h; low := l; close := h; volume := 1;
     closeTime := (openTime + 4 * 3600000 - 1)%Z |}.

Definition threeRanges : list Candle :=
  [ fourHours (4 * 3600000) 100 95; fourHours (28 * 3600000) 101 99;
    fourHours (4 * 3600000) 102 94; fourHours (8 * 3600000) 110 90 ].

End Ranges.

(** ** IncrementalCache: the words of the cadence rule *)

Module Cadence.

(** A new candle period has elapsed since [since] when a boundary of the
    interval, a multiple of [intervalMs], lies after [since] and not after
    [now]. *)
Definition candleElapsed (since now intervalMs : Z) : Prop :=
  ∃ k : Z, (since < k * intervalMs <= now)%Z.

(** The cache as a forced refresh at 15:50 (1970-01-01, UTC) leaves it, with
    the reading of sixteen hourly candles, the last of which closes at
    15:59:59.999. *)
Definition refreshed : list Reading.t * gmap string (Cache.Entry (list Reading.t)) :=
  (MultiRSI.fetchMultipleRSI Range.twoSymbols 57000000 ∅ ["BTC/USDT"] 14 14 true).1.

End Cadence.


(** ** Binary64 numbers *)

Module Binary64.

(** A shift record that has lost no bit. *)
Definition exactRecord (mrs : shr_record) : Prop :=
  shr_r mrs = false ∧ shr_s mrs = false.

(** [NaN], or a number whose sign bit is clear: [+0], a positive number or
    [+Infinity]. *)
Definition SFnonneg (x : spec_float) : Prop :=
  match x with
  | S754_nan => True
  | S754_zero s | S754_infinity s | S754_finite s _ _ => s = false
  end.

Definition nonneg (x : float) : Prop := SFnonneg (Prim2SF x).

(** [x > y] and [x >= y] *)
Definition gtb (x y : float) : bool := PrimFloat.ltb y x.
Definition geb (x y : float) : bool := PrimFloat.leb y x.

(** [0 <= x && x <= 100]: a number of the interval [0, 100]. *)
Definition percent (x : float) : bool :=
  PrimFloat.leb 0 x && PrimFloat.leb x 100.

End Binary64.

(** ** RSIEngine: [calculateRSI] over binary64 numbers

    The same function with the arithmetic of JavaScript numbers: every
    operation is the IEEE 754 binary64 operation, with its rounding, its
    infinities and [NaN]. *)

Module RSI64.
#[local] Set Warnings "-inexact-float".

(** The number that stands for [n], computed from the binary digits of
    [n]: it is [n] itself below [2 ^ 53], as for every length and index. *)
Fixpoint ofPos (p : positive) : float :=
  match p with
  | xH => 1
  | xO p => 2 * ofPos p
  | xI p => 1 + 2 * ofPos p
  end%float.

Definition ofNat (n : nat) : float :=
  match N.of_nat n with
  | N0 => 0%float
  | Npos p => ofPos p
  end.

(** [arr[i]] where a number is expected: [undefined] counts as [NaN]. *)
Definition at_ (arr : list float) (i : nat) : float := default nan (arr !! i).

(** [arr.reduce((a, b) => a + b, 0)] *)
Definition sum (arr : list float) : float := foldl PrimFloat.add 0%float arr.

(** [rs = avgLoss !== 0 ? avgGain / avgLoss : 0; 100 - (100 / (1 + rs))] *)
Definition rsiOf (avgGain avgLoss : float) : float :=
  let rs := (if negb (avgLoss =? 0) then avgGain / avgLoss else 0)%float in
  (100 - 100 / (1 + rs))%float.

Definition changesOf (prices : list float) : list float :=
  (λ i, at_ prices i - at_ prices (i - 1))%float <$> seq 1 (length prices - 1).

Definition gainsOf (changes : list float) : list float :=
  (λ change, if Binary64.gtb change 0 then change else 0)%float <$> changes.

Definition lossesOf (changes : list float) : list float :=
  (λ change, if change <? 0 then - change else 0)%float <$> changes.

Record loopState : Type := mkLoop {
  avgGain : float;
  avgLoss : float;
  rsiValues : list (option float)
}.

Definition wilderStep (period : nat) (gains losses : list float)
    (st : loopState) (i : nat) : loopState :=
  let changeIndex := (i - 1)%nat in
  let g := ((avgGain st * (ofNat period - 1) + at_ gains changeIndex) / ofNat period)%float in
  let l := ((avgLoss st * (ofNat period - 1) + at_ losses changeIndex) / ofNat period)%float in
  {| avgGain := g; avgLoss := l;
     rsiValues := <[i := Some (rsiOf g l)]> (rsiValues st) |}.

Definition calculateRSI (prices : list float) (period : nat)
    : result (list (option float)) :=
  if length prices <? period + 1 then
    Throw ("Need at least " +:+ pretty (period + 1) +:+ " prices to calculate RSI")
  else
    let rsi0 := replicate (length prices) None in
    let changes := changesOf prices in
    let gains := gainsOf changes in
    let losses := lossesOf changes in
    let g0 := (sum (take period gains) / ofNat period)%float in
    let l0 := (sum (take period losses) / ofNat period)%float in
    let st0 := {| avgGain := g0; avgLoss := l0;
                  rsiValues := <[period := Some (rsiOf g0 l0)]> rsi0 |} in
    Ok (rsiValues
          (foldl (wilderStep period gains losses) st0
                 (seq (period + 1) (length prices - (period + 1))))).

(** [NaN], or a number of the interval [0, 100]. *)
Definition percentOrNaN (v : float) : Prop :=
  is_nan v = true ∨ Binary64.percent v = true.

(** The loop invariant, for an array of [len] prices, once the indices
    below [period + 1 + n] are filled. *)
Definition filled (period len n : nat) (st : loopState) : Prop :=
  Binary64.nonneg (avgGain st) ∧ Binary64.nonneg (avgLoss st)
  ∧ length (rsiValues st) = len
  ∧ (∀ i, i < period → rsiValues st !! i = Some None)
  ∧ (∀ i, period ≤ i < period + 1 + n →
       ∃ v, rsiValues st !! i = Some (Some v) ∧ percentOrNaN v).

(** Scenario A of the specification, as numbers. *)
Definition scenarioA : list float :=
  [44; 44.3; 44.1; 44.6; 43.6; 44.3; 44.8; 43.7; 44; 44.9; 45.1; 45.5; 45.1; 44.8;
   44.5]%float.

(** Prices whose gains and losses add up beyond the largest number. *)
Definition overflowing : list float := [0; 1e308; 0; 1e308; 0]%float.

End RSI64.

(** ** BreakoutDetector: the scan of one trading day over binary64 numbers

    The scan loop of [detectBreakoutSignals] once more, with prices that
    are binary64 numbers and the comparisons and operations of IEEE 754. *)

Module Breakout64.
#[local] Set Warnings "-inexact-float".
Import Breakout (Direction, long, short, Outcome, pending, win, loss).

Record Candle : Type := mkCandle {
  timestamp : Z;
  open : float;
  high : float;
  low : float;
  close : float;
  volume : float;
  closeTime : Z
}.

(** An element of [validBreakoutReentryPairs]. *)
Record Pair : Type := mkPair {
  breakoutTime : Z;
  breakoutPrice : float;
  breakoutDirection : Direction;
  reentryTime : Z;
  reentryPrice : float;
  entryPrice : float;
  stopLoss : float;
  takeProfit : float;
  result : Outcome;
  breakoutCandle : Candle;
  reentryCandle : Candle
}.

(** [signal.result = r] *)
Definition setResult (r : Outcome) (s : Pair) : Pair :=
  {| breakoutTime := breakoutTime s; breakoutPrice := breakoutPrice s;
     breakoutDirection := breakoutDirection s; reentryTime := reentryTime s;
     reentryPrice := reentryPrice s; entryPrice := entryPrice s;
     stopLoss := stopLoss s; takeProfit := takeProfit s; result := r;
     breakoutCandle := breakoutCandle s; reentryCandle := reentryCandle s |}.

Record FirstBreakout : Type := mkFirst {
  firstBreakoutIndex : nat;
  firstBreakoutCandle : Candle;
  firstBreakoutTime : Z;
  firstBreakoutPrice : float;
  firstBreakoutDirection : Direction
}.

Record ScanState : Type := mkScan {
  firstBreakout : option FirstBreakout;
  hasOpenPosition : bool;
  validBreakoutReentryPairs : list Pair
}.

Section Day.
Variables rangeHigh rangeLow : float.
Variable candlesAfterRange : list Candle.

Definition closePosition (lastSignal : Pair) (candle : Candle) : bool * Pair :=
  let direction := breakoutDirection lastSignal in
  let stopLoss := stopLoss lastSignal in
  let takeProfit := takeProfit lastSignal in
  let '(positionClosed, lastSignal) :=
    if bool_decide (direction = long) && (low candle <=? stopLoss)%float
    then (true, setResult loss lastSignal)
    else if bool_decide (direction = short) && Binary64.geb (high candle) stopLoss
    then (true, setResult loss lastSignal)
    else (false, lastSignal) in
  if negb positionClosed then
    if bool_decide (direction = long) && Binary64.geb (high candle) takeProfit
    then (true, setResult win lastSignal)
    else if bool_decide (direction = short) && (low candle <=? takeProfit)%float
    then (true, setResult win lastSignal)
    else (positionClosed, lastSignal)
  else (positionClosed, lastSignal).

Definition reentryDirectionOf (candle : Candle) (prevCandle : option Candle)
    (currentBreakoutPrice : float) (currentBreakoutDirection : Direction) : Direction :=
  if (low candle <? rangeLow)%float then long
  else if Binary64.gtb (high candle) rangeHigh then short
  else
    let fromPrev :=
      match prevCandle with
      | Some prevCandle =>
          if (close prevCandle <? rangeLow)%float || (low prevCandle <? rangeLow)%float
          then Some long
          else if Binary64.gtb (close prevCandle) rangeHigh
                  || Binary64.gtb (high prevCandle) rangeHigh
          then Some short
          else None
      | None => None
      end in
    match fromPrev with
    | Some direction => direction
    | None =>
        if Binary64.gtb currentBreakoutPrice rangeHigh then short
        else if (currentBreakoutPrice <? rangeLow)%float then long
        else currentBreakoutDirection
    end.

(** [lowestPrice] and [highestPrice] over [candlesDuringBreakout]; on an
    empty array [candlesDuringBreakout[0].low] throws. *)
Definition lowestOf (candlesDuringBreakout : list Candle) : float :=
  match candlesDuringBreakout with
  | [] => nan
  | first :: _ =>
      foldl (λ lowestPrice breakoutCandle,
               if (low breakoutCandle <? lowestPrice)%float then low breakoutCandle
               else lowestPrice)
            (low first) candlesDuringBreakout
  end.

Definition highestOf (candlesDuringBreakout : list Candle) : float :=
  match candlesDuringBreakout with
  | [] => nan
  | first :: _ =>
      foldl (λ highestPrice breakoutCandle,
               if Binary64.gtb (high breakoutCandle) highestPrice then high breakoutCandle
               else highestPrice)
            (high first) candlesDuringBreakout
  end.

(** The signal created at the re-entry candle [candle] of index [i]. *)
Definition newSignalAt (first : FirstBreakout) (i : nat) (candle : Candle) : Pair :=
  let currentBreakoutTime := firstBreakoutTime first in
  let currentBreakoutPrice := firstBreakoutPrice first in
  let currentBreakoutDirection := firstBreakoutDirection first in
  let currentReentryTime := closeTime candle in
  let currentReentryPrice := close candle in
  let currentEntryPrice := currentReentryPrice in
  let prevCandle := if 0 <? i then candlesAfterRange !! (i - 1) else None in
  let currentDirection :=
    reentryDirectionOf candle prevCandle currentBreakoutPrice currentBreakoutDirection in
  let candlesDuringBreakout :=
    slice (firstBreakoutIndex first) (i + 1) candlesAfterRange in
  let maxAllowedRisk := (currentEntryPrice * 0.01)%float in
  let '(currentRisk, currentStopLoss) :=
    if bool_decide (currentDirection = long) then
      let lowestPrice := lowestOf candlesDuringBreakout in
      let calculatedRisk := (currentEntryPrice - lowestPrice)%float in
      if Binary64.gtb calculatedRisk maxAllowedRisk
      then (maxAllowedRisk, (currentEntryPrice - maxAllowedRisk)%float)
      else (calculatedRisk, lowestPrice)
    else
      let highestPrice := highestOf candlesDuringBreakout in
      let calculatedRisk := (highestPrice - currentEntryPrice)%float in
      if Binary64.gtb calculatedRisk maxAllowedRisk
      then (maxAllowedRisk, (currentEntryPrice + maxAllowedRisk)%float)
      else (calculatedRisk, highestPrice) in
  let currentTakeProfit :=
    if bool_decide (currentDirection = long)
    then (currentEntryPrice + currentRisk * 2)%float
    else (currentEntryPrice - currentRisk * 2)%float in
  {| breakoutTime := currentBreakoutTime;
     breakoutPrice := currentBreakoutPrice;
     breakoutDirection := currentDirection;
     reentryTime := currentReentryTime;
     reentryPrice := currentReentryPrice;
     entryPrice := currentEntryPrice;
     stopLoss := currentStopLoss;
     takeProfit := currentTakeProfit;
     result := pending;
     breakoutCandle := firstBreakoutCandle first;
     reentryCandle := candle |}.

(** The part of the loop body that follows the open-position block. *)
Definition detect (st : ScanState) (i : nat) (candle : Candle) : ScanState :=
  let isBreakoutAbove := Binary64.gtb (close candle) rangeHigh in
  let isBreakoutBelow := (close candle <? rangeLow)%float in
  match firstBreakout st with
  | None =>
      if isBreakoutAbove || isBreakoutBelow then
        {| firstBreakout :=
             Some {| firstBreakoutIndex := i;
                     firstBreakoutCandle := candle;
                     firstBreakoutTime := closeTime candle;
                     firstBreakoutPrice := close candle;
                     firstBreakoutDirection := if isBreakoutAbove then short else long |};
           hasOpenPosition := hasOpenPosition st;
           validBreakoutReentryPairs := validBreakoutReentryPairs st |}
      else st
  | Some first =>
      if isBreakoutAbove || isBreakoutBelow then st
      else if (close candle <=? rangeHigh)%float && Binary64.geb (close candle) rangeLow then
        {| firstBreakout := None;
           hasOpenPosition := true;
           validBreakoutReentryPairs :=
             validBreakoutReentryPairs st ++ [newSignalAt first i candle] |}
      else st
  end.

(** One iteration of the loop over [candlesAfterRange]. *)
Definition scanStep (st : ScanState) (i : nat) : ScanState :=
  match candlesAfterRange !! i with
  | None => st
  | Some candle =>
      if hasOpenPosition st then
        let pairs := validBreakoutReentryPairs st in
        match last pairs with
        | Some lastSignal =>
            if bool_decide (result lastSignal = pending) then
              let '(positionClosed, lastSignal) := closePosition lastSignal candle in
              let pairs := <[length pairs - 1 := lastSignal]> pairs in
              if positionClosed then
                detect {| firstBreakout := firstBreakout st;
                          hasOpenPosition := false;
                          validBreakoutReentryPairs := pairs |} i candle
              else
                {| firstBreakout := firstBreakout st;
                   hasOpenPosition := true;
                   validBreakoutReentryPairs := pairs |}
            else
              detect {| firstBreakout := firstBreakout st;
                        hasOpenPosition := false;
                        validBreakoutReentryPairs := pairs |} i candle
        | None =>
            detect {| firstBreakout := firstBreakout st;
                      hasOpenPosition := false;
                      validBreakoutReentryPairs := pairs |} i candle
        end
      else detect st i candle
  end.

Definition scanFrom (st : ScanState) (indices : list nat) : ScanState :=
  foldl scanStep st indices.

Definition scanDay : ScanState :=
  scanFrom {| firstBreakout := None; hasOpenPosition := false;
              validBreakoutReentryPairs := [] |}
           (seq 0 (length candlesAfterRange)).
End Day.

(** The signals pushed for the day: the pairs, sorted by breakout time. *)
Definition signalsOfDay (rangeHigh rangeLow : float) (candlesAfterRange : list Candle)
    : list Pair :=
  sortWith (λ a b, breakoutTime a - breakoutTime b)%Z
    (validBreakoutReentryPairs (scanDay rangeHigh rangeLow candlesAfterRange)).

(** *** The rule of stop-loss and take-profit

    [extreme] is the low of a candle of [window] that no low of the window
    is below, respectively the high of a candle that no high is above. *)
Definition isLowest (extreme : float) (window : list Candle) : Prop :=
  (∃ c, c ∈ window ∧ low c = extreme)
  ∧ (∀ c, c ∈ window → (low c <? extreme)%float = false).

Definition isHighest (extreme : float) (window : list Candle) : Prop :=
  (∃ c, c ∈ window ∧ high c = extreme)
  ∧ (∀ c, c ∈ window → Binary64.gtb (high c) extreme = false).

Definition createdAt (candles : list Candle) (b r : nat) (s : Pair) : Prop :=
  b < r
  ∧ candles !! b = Some (breakoutCandle s)
  ∧ candles !! r = Some (reentryCandle s)
  ∧ breakoutPrice s = close (breakoutCandle s)
  ∧ entryPrice s = close (reentryCandle s).

(** The smaller of two numbers, as [a > b ? b : a] computes it. *)
Definition smaller (a b : float) : float := if Binary64.gtb a b then b else a.

(** The rule that the code follows, operation by operation: the risk is
    the smaller of the distance from the entry to the extreme price and of
    [entryPrice * 0.01], hence at most the latter when neither is [NaN]; the
    stop is the extreme price itself, or the entry less (plus) the capped
    risk; the target is the entry plus (less) twice the risk. *)
Definition riskRule (candles : list Candle) (s : Pair) : Prop :=
  ∃ (b r : nat) (extreme : float),
    createdAt candles b r s
    ∧ let entry := entryPrice s in
      let maxAllowedRisk := (entry * 0.01)%float in
      let calculatedRisk :=
        match breakoutDirection s with
        | long => (entry - extreme)%float
        | short => (extreme - entry)%float
        end in
      let capped := Binary64.gtb calculatedRisk maxAllowedRisk in
      let risk := smaller calculatedRisk maxAllowedRisk in
      (is_nan calculatedRisk = false → is_nan maxAllowedRisk = false →
       (risk <=? maxAllowedRisk)%float = true)
      ∧ match breakoutDirection s with
        | long =>
            isLowest extreme (slice b (r + 1) candles)
            ∧ stopLoss s = (if capped then (entry - risk)%float else extreme)
            ∧ takeProfit s = (entry + risk * 2)%float
        | short =>
            isHighest extreme (slice b (r + 1) candles)
            ∧ stopLoss s = (if capped then (entry + risk)%float else extreme)
            ∧ takeProfit s = (entry - risk * 2)%float
        end.

(** The rule as the specification words it, read on the numbers that a
    signal stores: the risk is the distance from the entry to the stop; it
    is at most [0.01 * entryPrice], and the target is the entry plus (less)
    twice the risk. *)
Definition distance (s : Pair) : float :=
  match breakoutDirection s with
  | long => (entryPrice s - stopLoss s)%float
  | short => (stopLoss s - entryPrice s)%float
  end.

Definition withinCap (s : Pair) : bool :=
  (distance s <=? 0.01 * entryPrice s)%float.

Definition targetAtTwice (s : Pair) : bool :=
  match breakoutDirection s with
  | long => (takeProfit s =? entryPrice s + 2 * distance s)%float
  | short => (takeProfit s =? entryPrice s - 2 * distance s)%float
  end.

Definition waiting (candles : list Candle) (i : nat) (first : FirstBreakout) : Prop :=
  firstBreakoutIndex first < i
  ∧ candles !! firstBreakoutIndex first = Some (firstBreakoutCandle first)
  ∧ firstBreakoutPrice first = close (firstBreakoutCandle first).

Definition scanInvariant (candles : list Candle) (good : Pair → Prop)
    (i : nat) (st : ScanState) : Prop :=
  Forall good (validBreakoutReentryPairs st)
  ∧ ∀ first, firstBreakout st = Some first → waiting candles i first.

Definition sampleCandle (t : Z) (o h l c : float) : Candle :=
  {| timestamp := (t - 300000)%Z; open := o; high := h; low := l; close := c;
     volume := 1; closeTime := t |}.

(** Scenario B: range 95..100; a close above at 102, then a re-entry at 98
    whose low is 96.5. *)
Definition scenarioB : list Candle :=
  [ sampleCandle 300000 100 102.5 99.5 102;
    sampleCandle 600000 102 102 96.5 98 ]%float.

(** A close below the range, at 94.875 with a low of 94.75, and a re-entry
    at 95.5: the risk is not capped. *)
Definition shallow : list Candle :=
  [ sampleCandle 300000 96 96 94.75 94.875;
    sampleCandle 600000 94.875 95.5 94.8125 95.5 ]%float.

End Breakout64.


(** * Properties *)

(** ** Numbers *)

Lemma Qgtb_true x y : Qgtb x y = true ↔ (y < x)%Q.
Proof.
  unfold Qgtb. rewrite negb_true_iff, <- not_true_iff_false, Qle_bool_iff.
  split; [apply Qnot_le_lt | apply Qlt_not_le].
Qed.

Lemma Qgtb_false x y : Qgtb x y = false ↔ (x <= y)%Q.
Proof. unfold Qgtb. rewrite negb_false_iff. apply Qle_bool_iff. Qed.

Lemma Qltb_true x y : Qltb x y = true ↔ (x < y)%Q.
Proof. apply Qgtb_true. Qed.

Lemma Qltb_false x y : Qltb x y = false ↔ (y <= x)%Q.
Proof. apply Qgtb_false. Qed.

Lemma Qneb_false x y : Qneb x y = false ↔ (x == y)%Q.
Proof. unfold Qneb. rewrite negb_false_iff. apply Qeq_bool_iff. Qed.

Lemma Qmin_is_l x y z : (x <= y)%Q → (z == x)%Q → (z == Qmin x y)%Q.
Proof. intros Hle Hz. symmetry. etransitivity; [by apply Q.min_l|by symmetry]. Qed.

Lemma Qmin_is_r x y z : (y <= x)%Q → (z == y)%Q → (z == Qmin x y)%Q.
Proof. intros Hle Hz. symmetry. etransitivity; [by apply Q.min_r|by symmetry]. Qed.

(** ** Binary64: the rounding of [SpecFloat]

    The operations of the primitive floats are specified by those of
    [SpecFloat] ([FloatAxioms]). The lemmas of this part open the rounding
    of [SpecFloat] far enough to bound a rounded result by the bound of the
    exact one: what is at least 1 rounds to at least 1, and what is at most
    an integer below [2 ^ 52] rounds to at most that integer. *)

Section Rounding.
Local Open Scope Z_scope.

Lemma digits2_pos_bounds (p : positive) :
  2 ^ (Z.pos (digits2_pos p) - 1) <= Z.pos p < 2 ^ Z.pos (digits2_pos p).
Proof.
  induction p as [p IH|p IH|]; cbn [digits2_pos]; [| |by vm_compute].
  - rewrite Pos2Z.inj_succ. replace (Z.succ (Z.pos (digits2_pos p)) - 1)
      with (Z.succ (Z.pos (digits2_pos p) - 1)) by lia.
    rewrite !Z.pow_succ_r by lia. lia.
  - rewrite Pos2Z.inj_succ. replace (Z.succ (Z.pos (digits2_pos p)) - 1)
      with (Z.succ (Z.pos (digits2_pos p) - 1)) by lia.
    rewrite !Z.pow_succ_r by lia. lia.
Qed.

Lemma Zdigits2_bounds (m : Z) :
  0 < m → 0 < Zdigits2 m ∧ 2 ^ (Zdigits2 m - 1) <= m < 2 ^ Zdigits2 m.
Proof.
  destruct m as [|p|p]; [lia| |lia]. intros _. cbn [Zdigits2].
  split; [lia | apply digits2_pos_bounds].
Qed.

Lemma Zdigits2_le (m k : Z) : 0 < m → m < 2 ^ k → Zdigits2 m <= k.
Proof.
  intros Hm Hk. destruct (Zdigits2_bounds m Hm) as (Hd & Hlo & _).
  destruct (Z.le_gt_cases (Zdigits2 m) k) as [|Hgt]; [done|].
  assert (2 ^ k <= 2 ^ (Zdigits2 m - 1)) by (apply Z.pow_le_mono_r; lia). lia.
Qed.

Lemma Zdigits2_gt (m k : Z) : 0 <= k → 2 ^ k <= m → k < Zdigits2 m.
Proof.
  intros Hk Hm. assert (0 < m) by (pose proof (Z.pow_pos_nonneg 2 k); lia).
  destruct (Zdigits2_bounds m ltac:(done)) as (Hd & _ & Hhi).
  destruct (Z.lt_ge_cases k (Zdigits2 m)) as [|Hge]; [done|].
  assert (2 ^ Zdigits2 m <= 2 ^ k) by (apply Z.pow_le_mono_r; lia). lia.
Qed.

Lemma shr_1_spec (mrs : shr_record) :
  0 <= shr_m mrs →
  shr_m (shr_1 mrs) = shr_m mrs / 2
  ∧ (Binary64.exactRecord mrs → shr_m mrs mod 2 = 0 → Binary64.exactRecord (shr_1 mrs)).
Proof.
  destruct mrs as [m r s]. cbn [shr_m]. intros Hm. unfold Binary64.exactRecord.
  destruct m as [|[p|p|]|p]; cbn [shr_1 shr_m shr_r shr_s]; [| | | |lia].
  - split; [done|]. by intros [-> ->].
  - split; [rewrite (Pos2Z.inj_xI p); apply Z.div_unique with 1; lia|].
    intros _ Hodd. rewrite (Pos2Z.inj_xI p) in Hodd.
    replace (2 * Z.pos p + 1) with (1 + Z.pos p * 2) in Hodd by lia.
    rewrite Z.mod_add in Hodd by lia. done.
  - split; [rewrite (Pos2Z.inj_xO p); apply Z.div_unique with 0; lia|].
    by intros [-> ->].
  - split; [done|]. intros _ Hodd. done.
Qed.

Lemma iter_shr_1_spec (p : positive) (mrs : shr_record) :
  0 <= shr_m mrs →
  shr_m (SpecFloat.iter_pos shr_1 p mrs) = shr_m mrs / 2 ^ Z.pos p
  ∧ (Binary64.exactRecord mrs → shr_m mrs mod 2 ^ Z.pos p = 0 →
     Binary64.exactRecord (SpecFloat.iter_pos shr_1 p mrs)).
Proof.
  revert mrs. induction p as [p IH|p IH|]; intros mrs Hm; cbn [SpecFloat.iter_pos].
  - destruct (shr_1_spec mrs Hm) as [H1 E1].
    assert (Hm1 : 0 <= shr_m (shr_1 mrs)) by (rewrite H1; apply Z.div_pos; lia).
    destruct (IH _ Hm1) as [H2 E2].
    assert (Hm2 : 0 <= shr_m (SpecFloat.iter_pos shr_1 p (shr_1 mrs))).
    { rewrite H2. apply Z.div_pos; [done|]. apply Z.pow_pos_nonneg; lia. }
    destruct (IH _ Hm2) as [H3 E3].
    assert (Hpow : 2 ^ Z.pos p~1 = 2 * 2 ^ Z.pos p * 2 ^ Z.pos p).
    { rewrite (Pos2Z.inj_xI p), Z.pow_add_r, Z.pow_twice_r, Z.pow_1_r by lia. lia. }
    pose proof (Z.pow_pos_nonneg 2 (Z.pos p) ltac:(lia) ltac:(lia)) as Hpos.
    split.
    + rewrite H3, H2, H1, !Z.div_div, Hpow by lia. f_equal. lia.
    + intros Hex Hmod. rewrite Hpow in Hmod.
      apply Z.mod_divide in Hmod as [c Hc]; [|lia].
      apply E3; [apply E2; [apply E1; [done|]|]|].
      * rewrite Hc. replace (c * (2 * 2 ^ Z.pos p * 2 ^ Z.pos p))
          with (c * 2 ^ Z.pos p * 2 ^ Z.pos p * 2) by lia.
        apply Z.mod_mul. lia.
      * rewrite H1, Hc.
        replace (c * (2 * 2 ^ Z.pos p * 2 ^ Z.pos p))
          with (c * 2 ^ Z.pos p * 2 ^ Z.pos p * 2) by lia.
        rewrite Z.div_mul by lia. apply Z.mod_mul. lia.
      * rewrite H2, H1, Hc.
        replace (c * (2 * 2 ^ Z.pos p * 2 ^ Z.pos p))
          with (c * 2 ^ Z.pos p * 2 ^ Z.pos p * 2) by lia.
        rewrite !Z.div_mul by lia. apply Z.mod_mul. lia.
  - destruct (IH _ Hm) as [H2 E2].
    assert (Hm2 : 0 <= shr_m (SpecFloat.iter_pos shr_1 p mrs)).
    { rewrite H2. apply Z.div_pos; [done|]. apply Z.pow_pos_nonneg; lia. }
    destruct (IH _ Hm2) as [H3 E3].
    assert (Hpow : 2 ^ Z.pos p~0 = 2 ^ Z.pos p * 2 ^ Z.pos p).
    { by rewrite (Pos2Z.inj_xO p), Z.pow_twice_r. }
    pose proof (Z.pow_pos_nonneg 2 (Z.pos p) ltac:(lia) ltac:(lia)) as Hpos.
    split.
    + rewrite H3, H2, !Z.div_div, Hpow by lia. done.
    + intros Hex Hmod. rewrite Hpow in Hmod.
      apply Z.mod_divide in Hmod as [c Hc]; [|lia].
      apply E3; [apply E2; [done|]|].
      * rewrite Hc, Z.mul_assoc. apply Z.mod_mul. lia.
      * rewrite H2, Hc, Z.mul_assoc, Z.div_mul by lia. apply Z.mod_mul. lia.
  - change (2 ^ 1) with 2. apply shr_1_spec. done.
Qed.
End Rounding.

Section RoundAux.
Local Open Scope Z_scope.

Lemma fexp_spec (x : Z) : fexp prec emax x = Z.max (x - 53) (-1074).
Proof. reflexivity. Qed.

Lemma pow2_pos (a : Z) : 0 <= a → 0 < 2 ^ a.
Proof. intros. apply Z.pow_pos_nonneg; lia. Qed.

Lemma pow2_lt_inv (a b : Z) : 0 <= a → 2 ^ a < 2 ^ b → a < b.
Proof.
  intros Ha Hlt. destruct (Z.lt_ge_cases a b) as [|Hge]; [done|].
  destruct (Z.lt_ge_cases b 0) as [Hb|Hb].
  - rewrite (Z.pow_neg_r 2 b Hb) in Hlt. pose proof (pow2_pos a Ha). lia.
  - assert (2 ^ b <= 2 ^ a) by (apply Z.pow_le_mono_r; lia). lia.
Qed.

Lemma pow2_le_inv (a b : Z) : 0 <= a → 2 ^ a <= 2 ^ b → a <= b.
Proof.
  intros Ha Hle. destruct (Z.le_gt_cases a b) as [|Hgt]; [done|].
  destruct (Z.lt_ge_cases b 0) as [Hb|Hb].
  - rewrite (Z.pow_neg_r 2 b Hb) in Hle. pose proof (pow2_pos a Ha). lia.
  - assert (2 ^ b < 2 ^ a) by (apply Z.pow_lt_mono_r; lia). lia.
Qed.

Lemma shr_record_of_loc_spec (m : Z) (l : location) :
  shr_m (shr_record_of_loc m l) = m
  ∧ loc_of_shr_record (shr_record_of_loc m l) = l.
Proof. by destruct l as [|[]]. Qed.

Lemma exactRecord_loc (mrs : shr_record) :
  Binary64.exactRecord mrs → loc_of_shr_record mrs = loc_Exact.
Proof. destruct mrs as [m r s]. unfold Binary64.exactRecord. cbn. by intros [-> ->]. Qed.

Lemma shr_fexp_spec (mx ex : Z) (lx : location) :
  0 <= mx →
  let k := Z.max 0 (fexp prec emax (Zdigits2 mx + ex) - ex) in
  (shr_fexp prec emax mx ex lx).2 = ex + k
  ∧ shr_m (shr_fexp prec emax mx ex lx).1 = mx / 2 ^ k
  ∧ (lx = loc_Exact → mx mod 2 ^ k = 0 →
     loc_of_shr_record (shr_fexp prec emax mx ex lx).1 = loc_Exact).
Proof.
  intros Hmx k. subst k. unfold shr_fexp, shr.
  destruct (shr_record_of_loc_spec mx lx) as [Hm Hl].
  destruct (fexp prec emax (Zdigits2 mx + ex) - ex) as [|p|p] eqn:Hk; cbn [fst snd].
  - rewrite Hm, Hl. change (Z.max 0 0) with 0. rewrite Z.pow_0_r, Z.div_1_r.
    split_and!; [lia | done | by intros ->].
  - replace (Z.max 0 (Z.pos p)) with (Z.pos p) by lia.
    destruct (iter_shr_1_spec p (shr_record_of_loc mx lx)) as [Hshift Hexact];
      [by rewrite Hm|].
    rewrite Hm in Hshift, Hexact. split_and!; [done | done |].
    intros -> Hmod. apply exactRecord_loc, Hexact; [done | done].
  - replace (Z.max 0 (Z.neg p)) with 0 by lia. rewrite Hm, Hl, Z.pow_0_r, Z.div_1_r.
    split_and!; [lia | done | by intros ->].
Qed.

Lemma round_nearest_even_spec (m : Z) (l : location) :
  (round_nearest_even m l = m ∨ round_nearest_even m l = m + 1)
  ∧ (l = loc_Exact → round_nearest_even m l = m).
Proof.
  destruct l as [|[]]; cbn [round_nearest_even]; [by split; [left|]| | |].
  - split; [|done]. destruct (IntDef.Z.even m); [by left | by right].
  - split; [by left | done].
  - split; [by right | done].
Qed.

(** The anatomy of [binary_round_aux]: a shift to the exponent of the
    format, a rounding to the nearest mantissa, and a second shift for the
    mantissa that the rounding has made one digit longer. *)
Lemma binary_round_aux_spec (sx : bool) (mx ex : Z) (lx : location) :
  0 <= mx →
  ∃ m1,
    let k1 := Z.max 0 (fexp prec emax (Zdigits2 mx + ex) - ex) in
    let e1 := ex + k1 in
    let k2 := Z.max 0 (fexp prec emax (Zdigits2 m1 + e1) - e1) in
    let e2 := e1 + k2 in
    (m1 = mx / 2 ^ k1 ∨ m1 = mx / 2 ^ k1 + 1)
    ∧ (lx = loc_Exact → mx mod 2 ^ k1 = 0 → m1 = mx / 2 ^ k1)
    ∧ binary_round_aux prec emax sx mx ex lx
      = match m1 / 2 ^ k2 with
        | 0 => S754_zero sx
        | Z.pos m =>
            if e2 <=? emax - prec then S754_finite sx m e2 else S754_infinity sx
        | Z.neg _ => S754_nan
        end.
Proof.
  intros Hmx.
  destruct (shr_fexp_spec mx ex lx Hmx) as (He1 & Hm1 & Hl1).
  unfold binary_round_aux.
  destruct (shr_fexp prec emax mx ex lx) as [mrs1 e1]. cbn [fst snd] in He1, Hm1, Hl1.
  set (m1 := round_nearest_even (shr_m mrs1) (loc_of_shr_record mrs1)).
  destruct (round_nearest_even_spec (shr_m mrs1) (loc_of_shr_record mrs1))
    as [Hcase Hexact]. fold m1 in Hcase, Hexact.
  assert (Hm1pos : 0 <= m1).
  { assert (0 <= shr_m mrs1); [|lia]. rewrite Hm1. apply Z.div_pos; [done|].
    apply pow2_pos. lia. }
  destruct (shr_fexp_spec m1 e1 loc_Exact Hm1pos) as (He2 & Hm2 & _).
  destruct (shr_fexp prec emax m1 e1 loc_Exact) as [mrs2 e2]. cbn [fst snd] in He2, Hm2.
  exists m1. cbv zeta. rewrite <- He1, <- He2, <- Hm2, <- Hm1.
  split_and!; [done | | done].
  intros Hlx Hmod. apply Hexact. by apply Hl1.
Qed.
End RoundAux.

Section RoundBounds.
Local Open Scope Z_scope.

(** Values are compared after scaling by [2 ^ S], with [S] large enough
    for every exponent at hand: [m * 2 ^ (e + S)] stands for [m * 2 ^ e]. *)

Lemma shift_upper (m e k S : Z) :
  0 <= m → 0 <= k → 0 <= e + S →
  m / 2 ^ k * 2 ^ (e + k + S) <= m * 2 ^ (e + S).
Proof.
  intros Hm Hk He.
  replace (e + k + S) with (k + (e + S)) by lia. rewrite Z.pow_add_r by lia.
  pose proof (pow2_pos k Hk) as Hpk. pose proof (pow2_pos (e + S) He) as Hpe.
  pose proof (Z.mul_div_le m (2 ^ k) Hpk). nia.
Qed.

Lemma shift_lower (m e S : Z) :
  0 < m → 0 <= S → 0 <= e + S → 2 ^ S <= m * 2 ^ (e + S) →
  let k := Z.max 0 (fexp prec emax (Zdigits2 m + e) - e) in
  2 ^ S <= m / 2 ^ k * 2 ^ (e + k + S).
Proof.
  intros Hm HS He Hval. cbv zeta. rewrite fexp_spec.
  destruct (Zdigits2_bounds m Hm) as (Hd & Hlo & Hhi).
  set (d := Zdigits2 m) in *. set (k := Z.max 0 _).
  destruct (Z.eq_dec k 0) as [Hk0|Hk0].
  { rewrite Hk0, Z.pow_0_r, Z.div_1_r. by replace (e + 0 + S) with (e + S) by lia. }
  assert (Hk : 0 < k) by lia.
  pose proof (pow2_pos (e + S) He) as HpeS. pose proof (pow2_pos S HS) as HpS.
  pose proof (pow2_pos k ltac:(lia)) as Hpk.
  destruct (Z.le_gt_cases (e + k) 0) as [Hgrid|Hcoarse].
  - (* the grid contains 1 *)
    assert (Hme : 2 ^ (- e) <= m).
    { replace S with (- e + (e + S)) in Hval at 1 by lia.
      rewrite Z.pow_add_r in Hval by lia. nia. }
    assert (Hf : 2 ^ (- (e + k)) <= m / 2 ^ k).
    { replace (- e) with (- (e + k) + k) in Hme by lia.
      rewrite Z.pow_add_r in Hme by lia.
      apply Z.div_le_lower_bound; [done|]. lia. }
    replace S with (- (e + k) + (e + k + S)) at 1 by lia.
    rewrite Z.pow_add_r by lia.
    apply Z.mul_le_mono_nonneg_r; [|done]. apply Z.lt_le_incl, pow2_pos. lia.
  - (* the mantissa keeps 53 digits *)
    assert (Hkd : k = d - 53) by lia.
    assert (Hf : 2 ^ 52 <= m / 2 ^ k).
    { apply Z.div_le_lower_bound; [done|]. rewrite <- Z.pow_add_r by lia.
      by replace (k + 52) with (d - 1) by lia. }
    assert (2 ^ S <= 2 ^ (e + k + S)) by (apply Z.pow_le_mono_r; lia).
    pose proof (pow2_pos (e + k + S) ltac:(lia)).
    assert (1 <= m / 2 ^ k) by (change (2 ^ 52) with 4503599627370496 in Hf; lia).
    nia.
Qed.

(** Rounding something that is at least 1 gives at least 1. *)
Lemma binary_round_aux_lower (mx ex S : Z) (lx : location) :
  0 < mx → 0 <= S → 0 <= ex + S → 2 ^ S <= mx * 2 ^ (ex + S) →
  binary_round_aux prec emax false mx ex lx = S754_infinity false
  ∨ ∃ m e, binary_round_aux prec emax false mx ex lx = S754_finite false m e
           ∧ ex <= e ∧ 2 ^ S <= Z.pos m * 2 ^ (e + S).
Proof.
  intros Hmx HS Hex Hval.
  destruct (binary_round_aux_spec false mx ex lx ltac:(lia)) as (m1 & Hspec).
  cbv zeta in Hspec. destruct Hspec as (Hm1 & _ & ->).
  set (k1 := Z.max 0 (fexp prec emax (Zdigits2 mx + ex) - ex)) in *.
  pose proof (shift_lower mx ex S Hmx HS Hex Hval) as Hf. cbv zeta in Hf. fold k1 in Hf.
  assert (Hk1 : 0 <= k1) by lia.
  pose proof (pow2_pos (ex + k1 + S) ltac:(lia)) as Hp1.
  pose proof (pow2_pos S HS) as HpS.
  assert (Hval1 : 2 ^ S <= m1 * 2 ^ (ex + k1 + S)) by (destruct Hm1 as [-> | ->]; nia).
  assert (Hm1pos : 0 < m1) by nia.
  pose proof (shift_lower m1 (ex + k1) S Hm1pos HS ltac:(lia) Hval1) as Hf2.
  cbv zeta in Hf2.
  set (k2 := Z.max 0 (fexp prec emax (Zdigits2 m1 + (ex + k1)) - (ex + k1))) in *.
  assert (Hk2 : 0 <= k2) by lia.
  pose proof (pow2_pos (ex + k1 + k2 + S) ltac:(lia)) as Hp2.
  destruct (m1 / 2 ^ k2) as [|m|m] eqn:Hm2; [lia| |lia].
  destruct (ex + k1 + k2 <=? emax - prec); [right | by left].
  exists m, (ex + k1 + k2). split_and!; [done | lia | done].
Qed.

(** Rounding something that is at most the integer [B] gives at most [B]. *)
Lemma binary_round_aux_upper (B mx ex S : Z) (lx : location) :
  0 < mx → 0 <= S → 0 <= ex + S → 0 < B < 2 ^ 52 →
  mx * 2 ^ (ex + S) <= B * 2 ^ S →
  lx = loc_Exact
  ∨ (ex <= fexp prec emax (Zdigits2 mx + ex) ∧ mx * 2 ^ (ex + S) < B * 2 ^ S) →
  binary_round_aux prec emax false mx ex lx = S754_zero false
  ∨ ∃ m e, binary_round_aux prec emax false mx ex lx = S754_finite false m e
           ∧ ex <= e ∧ Z.pos m * 2 ^ (e + S) <= B * 2 ^ S.
Proof.
  intros Hmx HS Hex HB Hval Hloc.
  destruct (binary_round_aux_spec false mx ex lx ltac:(lia)) as (m1 & Hspec).
  cbv zeta in Hspec. destruct Hspec as (Hm1 & Hexact & ->).
  destruct (Zdigits2_bounds mx Hmx) as (Hd & Hlo & Hhi).
  set (d := Zdigits2 mx) in *.
  set (k1 := Z.max 0 (fexp prec emax (d + ex) - ex)) in *.
  assert (Hk1def : k1 = Z.max 0 (Z.max (d + ex - 53) (-1074) - ex)) by reflexivity.
  assert (Hk1 : 0 <= k1) by lia.
  pose proof (pow2_pos k1 Hk1) as Hpk1.
  pose proof (pow2_pos (ex + S) Hex) as HpexS.
  pose proof (pow2_pos (ex + k1 + S) ltac:(lia)) as Hp1.
  pose proof (pow2_pos S HS) as HpS.
  pose proof (shift_upper mx ex k1 S ltac:(lia) Hk1 Hex) as Hfloor.
  set (f := mx / 2 ^ k1) in *.
  assert (Hf0 : 0 <= f) by (apply Z.div_pos; lia).
  (* the exponent of the value is small *)
  assert (Hdex : d + ex <= 52).
  { assert (Hlt : 2 ^ (d - 1 + (ex + S)) < 2 ^ (52 + S)).
    { rewrite (Z.pow_add_r 2 (d - 1)), (Z.pow_add_r 2 52) by lia.
      assert (2 ^ (d - 1) * 2 ^ (ex + S) <= mx * 2 ^ (ex + S))
        by (apply Z.mul_le_mono_nonneg_r; lia).
      assert (B * 2 ^ S < 2 ^ 52 * 2 ^ S) by (apply Z.mul_lt_mono_pos_r; lia).
      lia. }
    apply pow2_lt_inv in Hlt; lia. }
  assert (Hval1 : m1 * 2 ^ (ex + k1 + S) <= B * 2 ^ S).
  { destruct Hm1 as [-> | ->]; [lia|].
    destruct (Z.eq_dec (mx mod 2 ^ k1) 0) as [Hmod|Hmod].
    - destruct Hloc as [->|[Hshift Hstrict]].
      + specialize (Hexact eq_refl Hmod). lia.
      + rewrite fexp_spec in Hshift.
        assert (He1 : ex + k1 <= 0) by lia.
        assert (Hlt : f * 2 ^ (ex + k1 + S) < B * 2 ^ (- (ex + k1)) * 2 ^ (ex + k1 + S)).
        { rewrite <- Z.mul_assoc, <- Z.pow_add_r by lia.
          replace (- (ex + k1) + (ex + k1 + S)) with S by lia. lia. }
        assert (f < B * 2 ^ (- (ex + k1))) by nia.
        replace S with (- (ex + k1) + (ex + k1 + S)) at 2 by lia.
        rewrite (Z.pow_add_r 2 (- (ex + k1)) (ex + k1 + S)), Z.mul_assoc by lia.
        apply Z.mul_le_mono_nonneg_r; lia.
    - assert (Hk1pos : 0 < k1).
      { destruct (Z.eq_dec k1 0) as [Hz|]; [|lia].
        rewrite Hz, Z.pow_0_r, Z.mod_1_r in Hmod. done. }
      assert (He1 : ex + k1 <= 0) by lia.
      assert (Hstrict : f * 2 ^ k1 < mx).
      { pose proof (Z.div_mod mx (2 ^ k1) ltac:(lia)) as Hdm.
        pose proof (Z.mod_pos_bound mx (2 ^ k1) Hpk1). fold f in Hdm. lia. }
      assert (Hlt : f * 2 ^ (ex + k1 + S) < B * 2 ^ (- (ex + k1)) * 2 ^ (ex + k1 + S)).
      { rewrite <- (Z.mul_assoc B), <- Z.pow_add_r by lia.
        replace (- (ex + k1) + (ex + k1 + S)) with S by lia.
        replace (ex + k1 + S) with (k1 + (ex + S)) by lia.
        rewrite Z.pow_add_r by lia. nia. }
      assert (f < B * 2 ^ (- (ex + k1))) by nia.
      replace S with (- (ex + k1) + (ex + k1 + S)) at 2 by lia.
      rewrite (Z.pow_add_r 2 (- (ex + k1)) (ex + k1 + S)), Z.mul_assoc by lia.
      apply Z.mul_le_mono_nonneg_r; lia. }
  assert (Hm1pos : 0 <= m1) by (destruct Hm1 as [-> | ->]; lia).
  set (k2 := Z.max 0 (fexp prec emax (Zdigits2 m1 + (ex + k1)) - (ex + k1))) in *.
  assert (Hk2 : 0 <= k2) by lia.
  pose proof (shift_upper m1 (ex + k1) k2 S Hm1pos Hk2 ltac:(lia)) as Hfloor2.
  pose proof (pow2_pos (ex + k1 + k2 + S) ltac:(lia)) as Hp2.
  destruct (m1 / 2 ^ k2) as [|m|m] eqn:Hm2; [by left| |].
  - right. exists m, (ex + k1 + k2).
    assert (Hle : Z.pos m * 2 ^ (ex + k1 + k2 + S) <= B * 2 ^ S) by lia.
    assert (He2 : ex + k1 + k2 <= 52).
    { assert (Hlt : 2 ^ (ex + k1 + k2 + S) < 2 ^ (52 + S)).
      { rewrite (Z.pow_add_r 2 52 S) by lia. nia. }
      apply pow2_lt_inv in Hlt; lia. }
    destruct (ex + k1 + k2 <=? emax - prec) eqn:E.
    + split_and!; [done | lia | done].
    + apply Z.leb_gt in E. change (emax - prec) with 971 in E. lia.
  - pose proof (Z.div_pos m1 (2 ^ k2) Hm1pos (pow2_pos k2 Hk2)). lia.
Qed.
End RoundBounds.

Section Compare.
Local Open Scope Z_scope.

(** A finite double has a canonical mantissa: 53 digits, or fewer at the
    least exponent. *)
Lemma valid_finite (s : bool) (m : positive) (e : Z) :
  valid_binary (S754_finite s m e) = true →
  -1074 <= e <= 971
  ∧ Z.pos m < 2 ^ 53
  ∧ (-1074 < e → 2 ^ 52 <= Z.pos m).
Proof.
  cbn [SpecFloat.valid_binary]. unfold bounded, canonical_mantissa.
  intros [Hcan Hmax]%andb_true_iff. apply Z.eqb_eq in Hcan. apply Z.leb_le in Hmax.
  change (emax - prec) with 971 in Hmax. rewrite fexp_spec in Hcan.
  destruct (Zdigits2_bounds (Z.pos m) ltac:(lia)) as (Hd & Hlo & Hhi).
  cbn [Zdigits2] in Hd, Hlo, Hhi. set (d := Z.pos (digits2_pos m)) in *.
  split; [lia|]. split.
  - assert (2 ^ d <= 2 ^ 53) by (apply Z.pow_le_mono_r; lia). lia.
  - intros He. assert (d = 53) as Hd53 by lia. by rewrite Hd53 in Hlo.
Qed.

Lemma compare_cont_spec (a b : positive) :
  PosDef.Pos.compare_cont Eq a b = (Z.pos a ?= Z.pos b).
Proof. reflexivity. Qed.

Lemma SFleb_one (x : spec_float) :
  valid_binary x = true →
  SFleb (Prim2SF 1) x = true →
  x = S754_infinity false
  ∨ ∃ m e, x = S754_finite false m e ∧ -52 <= e
           ∧ ∀ S, 0 <= e + S → 2 ^ S <= Z.pos m * 2 ^ (e + S).
Proof.
  intros Hvalid. change (Prim2SF 1) with (S754_finite false 4503599627370496 (-52)).
  unfold SFleb. destruct x as [s|s| |s m e]; cbn [SFcompare]; [by destruct s| |done|].
  { destruct s; [done | by left]. }
  destruct s; [done|]. intros Hle. right. exists m, e. split; [done|].
  destruct (valid_finite _ _ _ Hvalid) as (He & Hm & Hnormal).
  rewrite compare_cont_spec in Hle.
  assert (Hcase : -52 < e ∨ (e = -52 ∧ 2 ^ 52 <= Z.pos m)).
  { destruct (Z.compare_spec (-52) e) as [<-|Hlt|Hgt]; [right|by left|done].
    split; [done|]. change (2 ^ 52) with 4503599627370496.
    destruct (Z.compare_spec 4503599627370496 (Z.pos m)); [lia | lia | done]. }
  split; [lia|]. intros S HS.
  assert (Hm52 : 2 ^ 52 <= Z.pos m) by (destruct Hcase as [?|[_ ?]]; [apply Hnormal; lia | done]).
  pose proof (pow2_pos (e + S) HS).
  assert (2 ^ S <= 2 ^ (52 + (e + S))) by (apply Z.pow_le_mono_r; lia).
  rewrite Z.pow_add_r in * by lia. nia.
Qed.

Lemma one_SFleb (m : positive) (e S : Z) :
  valid_binary (S754_finite false m e) = true →
  0 <= S → 0 <= e + S → 2 ^ S <= Z.pos m * 2 ^ (e + S) →
  SFleb (Prim2SF 1) (S754_finite false m e) = true.
Proof.
  intros Hvalid HS HeS Hval.
  destruct (valid_finite _ _ _ Hvalid) as (He & Hm & Hnormal).
  change (Prim2SF 1) with (S754_finite false 4503599627370496 (-52)).
  unfold SFleb. cbn [SFcompare]. rewrite compare_cont_spec.
  pose proof (pow2_pos (e + S) HeS) as Hp. pose proof (pow2_pos S HS) as HpS.
  destruct (Z.compare_spec (-52) e) as [<-|Hlt|Hgt]; [|done|].
  - change 4503599627370496 with (2 ^ 52).
    destruct (Z.compare_spec (2 ^ 52) (Z.pos m)) as [|?|Hgt]; [done | done | exfalso].
    assert (Z.pos m * 2 ^ (-52 + S) < 2 ^ 52 * 2 ^ (-52 + S))
      by (apply Z.mul_lt_mono_pos_r; lia).
    rewrite <- Z.pow_add_r in * by lia. replace (52 + (-52 + S)) with S in * by lia. lia.
  - exfalso.
    assert (Z.pos m * 2 ^ (e + S) < 2 ^ 53 * 2 ^ (e + S))
      by (apply Z.mul_lt_mono_pos_r; lia).
    rewrite <- Z.pow_add_r in * by lia.
    assert (2 ^ (53 + (e + S)) <= 2 ^ S) by (apply Z.pow_le_mono_r; lia). lia.
Qed.

Lemma SFleb_hundred (m : positive) (e S : Z) :
  valid_binary (S754_finite false m e) = true →
  SFleb (S754_finite false m e) (Prim2SF 100) = true →
  0 <= S → 0 <= e + S → 46 <= S →
  Z.pos m * 2 ^ (e + S) <= 100 * 2 ^ S.
Proof.
  intros Hvalid Hle HS HeS HS46.
  destruct (valid_finite _ _ _ Hvalid) as (He & Hm & Hnormal).
  change (Prim2SF 100) with (S754_finite false 7036874417766400 (-46)) in Hle.
  unfold SFleb in Hle. cbn [SFcompare] in Hle. rewrite compare_cont_spec in Hle.
  pose proof (pow2_pos (e + S) HeS) as Hp. pose proof (pow2_pos S HS) as HpS.
  assert (H100 : 100 * 2 ^ S = 7036874417766400 * 2 ^ (-46 + S)).
  { change 7036874417766400 with (100 * 2 ^ 46). rewrite <- Z.mul_assoc.
    rewrite <- Z.pow_add_r by lia. by replace (46 + (-46 + S)) with S by lia. }
  destruct (Z.compare_spec e (-46)) as [->|Hlt|Hgt]; [| |done].
  - rewrite H100. apply Z.mul_le_mono_nonneg_r; [lia|].
    destruct (Z.compare_spec (Z.pos m) 7036874417766400); [lia | lia | done].
  - assert (Z.pos m * 2 ^ (e + S) <= 2 ^ 53 * 2 ^ (e + S))
      by (apply Z.mul_le_mono_nonneg_r; lia).
    rewrite <- Z.pow_add_r in * by lia.
    assert (2 ^ (53 + (e + S)) <= 2 ^ (6 + S)) by (apply Z.pow_le_mono_r; lia).
    rewrite (Z.pow_add_r 2 6 S) in * by lia. change (2 ^ 6) with 64 in *. lia.
Qed.

Lemma hundred_SFleb (m : positive) (e S : Z) :
  valid_binary (S754_finite false m e) = true →
  0 <= S → 0 <= e + S → 46 <= S →
  Z.pos m * 2 ^ (e + S) <= 100 * 2 ^ S →
  SFleb (S754_finite false m e) (Prim2SF 100) = true.
Proof.
  intros Hvalid HS HeS HS46 Hval.
  destruct (valid_finite _ _ _ Hvalid) as (He & Hm & Hnormal).
  change (Prim2SF 100) with (S754_finite false 7036874417766400 (-46)).
  unfold SFleb. cbn [SFcompare]. rewrite compare_cont_spec.
  pose proof (pow2_pos (e + S) HeS) as Hp. pose proof (pow2_pos S HS) as HpS.
  assert (H100 : 100 * 2 ^ S = 7036874417766400 * 2 ^ (-46 + S)).
  { change 7036874417766400 with (100 * 2 ^ 46). rewrite <- Z.mul_assoc.
    rewrite <- Z.pow_add_r by lia. by replace (46 + (-46 + S)) with S by lia. }
  destruct (Z.compare_spec e (-46)) as [->|Hlt|Hgt]; [|done|exfalso].
  - destruct (Z.compare_spec (Z.pos m) 7036874417766400) as [|?|Hgt];
      [done | done | exfalso].
    assert (7036874417766400 * 2 ^ (-46 + S) < Z.pos m * 2 ^ (-46 + S))
      by (apply Z.mul_lt_mono_pos_r; lia).
    lia.
  - assert (2 ^ 52 * 2 ^ (e + S) <= Z.pos m * 2 ^ (e + S))
      by (apply Z.mul_le_mono_nonneg_r; [lia | apply Hnormal; lia]).
    rewrite <- Z.pow_add_r in * by lia.
    assert (2 ^ (7 + S) <= 2 ^ (52 + (e + S))) by (apply Z.pow_le_mono_r; lia).
    rewrite (Z.pow_add_r 2 7 S) in * by lia. change (2 ^ 7) with 128 in *. lia.
Qed.
End Compare.

Section Normalize.
Local Open Scope Z_scope.

Lemma iter_xO (n m : positive) :
  Z.pos (PosDef.Pos.iter xO m n) = Z.pos m * 2 ^ Z.pos n.
Proof.
  revert m. induction n as [|n IH] using Pos.peano_ind; intros m.
  - cbn. lia.
  - change (PosDef.Pos.iter xO m (Pos.succ n)) with (Pos.iter xO m (Pos.succ n)).
    rewrite Pos.iter_succ, Pos2Z.inj_succ, Z.pow_succ_r by lia.
    rewrite (Pos2Z.inj_xO (Pos.iter xO m n)).
    change (Pos.iter xO m n) with (PosDef.Pos.iter xO m n). rewrite IH. lia.
Qed.

(** [shl_align] keeps the value and lowers the exponent to [ex'], or
    leaves the number as it is. *)
Lemma shl_align_spec (mx : positive) (ex ex' : Z) :
  (shl_align mx ex ex').2 = Z.min ex ex'
  ∧ Z.pos (shl_align mx ex ex').1 = Z.pos mx * 2 ^ (ex - Z.min ex ex').
Proof.
  unfold shl_align. destruct (ex' - ex) as [|d|d] eqn:Hd; cbn [fst snd].
  - replace (Z.min ex ex') with ex by lia. rewrite Z.sub_diag. lia.
  - replace (Z.min ex ex') with ex by lia. rewrite Z.sub_diag. lia.
  - replace (Z.min ex ex') with ex' by lia. split; [done|].
    rewrite iter_xO. f_equal. f_equal. lia.
Qed.

Lemma binary_round_spec (mz : positive) (ez S : Z) :
  0 <= ez + S → 1074 <= S →
  ∃ mx ex,
    binary_round prec emax false mz ez = binary_round_aux prec emax false mx ex loc_Exact
    ∧ 0 < mx ∧ 0 <= ex + S ∧ mx * 2 ^ (ex + S) = Z.pos mz * 2 ^ (ez + S).
Proof.
  intros Hez HS. unfold binary_round.
  destruct (shl_align_spec mz ez (fexp prec emax (Z.pos (digits2_pos mz) + ez)))
    as [He Hm].
  destruct (shl_align mz ez _) as [mx ex]. cbn [fst snd] in He, Hm.
  exists (Z.pos mx), ex. rewrite fexp_spec in He, Hm.
  split_and!; [done | lia | lia |].
  rewrite Hm, <- Z.mul_assoc, <- Z.pow_add_r by lia. f_equal. f_equal. lia.
Qed.

(** Adding two numbers whose sum is at least 1, or at most [B]. *)
Lemma binary_normalize_lower (z ez S : Z) :
  0 <= ez + S → 1074 <= S → 2 ^ S <= z * 2 ^ (ez + S) →
  binary_normalize prec emax z ez false = S754_infinity false
  ∨ ∃ m e, binary_normalize prec emax z ez false = S754_finite false m e
           ∧ 2 ^ S <= Z.pos m * 2 ^ (e + S) ∧ 0 <= e + S.
Proof.
  intros Hez HS Hval.
  pose proof (pow2_pos S ltac:(lia)). pose proof (pow2_pos (ez + S) Hez).
  destruct z as [|mz|mz]; [lia| |lia]. cbn [binary_normalize].
  destruct (binary_round_spec mz ez S Hez HS) as (mx & ex & -> & Hmx & Hex & Hsame).
  destruct (binary_round_aux_lower mx ex S loc_Exact Hmx ltac:(lia) Hex ltac:(lia))
    as [->|(m & e & -> & He & Hm)]; [by left | right].
  exists m, e. split_and!; [done | done | lia].
Qed.

Lemma binary_normalize_upper (B z ez S : Z) :
  0 <= ez + S → 1074 <= S → 0 < B < 2 ^ 52 →
  0 <= z → z * 2 ^ (ez + S) <= B * 2 ^ S →
  binary_normalize prec emax z ez false = S754_zero false
  ∨ ∃ m e, binary_normalize prec emax z ez false = S754_finite false m e
           ∧ Z.pos m * 2 ^ (e + S) <= B * 2 ^ S ∧ 0 <= e + S.
Proof.
  intros Hez HS HB Hz Hval.
  destruct z as [|mz|mz]; [by left| |lia]. cbn [binary_normalize].
  destruct (binary_round_spec mz ez S Hez HS) as (mx & ex & -> & Hmx & Hex & Hsame).
  destruct (binary_round_aux_upper B mx ex S loc_Exact Hmx ltac:(lia) Hex HB
              ltac:(lia) ltac:(by left))
    as [->|(m & e & -> & He & Hm)]; [by left | right].
  exists m, e. split_and!; [done | done | lia].
Qed.

(** The quotient and the remainder that [SFdiv] rounds. *)
Lemma SFdiv_core_binary_spec (m1 m2 : positive) (e1 e2 : Z) :
  let e' :=
    Z.min (fexp prec emax (Zdigits2 (Z.pos m1) + e1 - (Zdigits2 (Z.pos m2) + e2)))
          (e1 - e2) in
  let s := e1 - e2 - e' in
  ∃ q r,
    SFdiv_core_binary prec emax (Z.pos m1) e1 (Z.pos m2) e2
    = (q, e', new_location (Z.pos m2) r)
    ∧ Z.pos m1 * 2 ^ s = Z.pos m2 * q + r
    ∧ 0 <= r < Z.pos m2.
Proof.
  intros e' s. unfold SFdiv_core_binary. fold e'. fold s.
  assert (Hs : 0 <= s) by lia.
  set (m' := match s with 0 => Z.pos m1 | Z.pos _ => Z.pos m1 ≪ s | Z.neg _ => 0 end).
  assert (Hm' : m' = Z.pos m1 * 2 ^ s).
  { subst m'. destruct s as [|p|p] eqn:E; [lia| |lia].
    by rewrite Z.shiftl_mul_pow2. }
  pose proof (Z.div_eucl_eq m' (Z.pos m2) ltac:(lia)) as Heq.
  pose proof (Z.mod_pos_bound m' (Z.pos m2) ltac:(lia)) as Hr.
  unfold Z.modulo in Hr.
  change (IntDef.Z.div_eucl m' (Z.pos m2)) with (Z.div_eucl m' (Z.pos m2)).
  destruct (Z.div_eucl m' (Z.pos m2)) as [q r].
  exists q, r. split_and!; first [done | lia].
Qed.

Lemma new_location_exact (nb_steps : Z) : new_location nb_steps 0 = loc_Exact.
Proof.
  unfold new_location, new_location_even, new_location_odd.
  by destruct (IntDef.Z.even nb_steps).
Qed.
End Normalize.

Section Operations.
Local Open Scope Z_scope.
Import Binary64.

Lemma binary_round_aux_nonneg (mx ex : Z) (lx : location) :
  0 <= mx → SFnonneg (binary_round_aux prec emax false mx ex lx).
Proof.
  intros Hmx.
  destruct (binary_round_aux_spec false mx ex lx Hmx) as (m1 & Hspec).
  cbv zeta in Hspec. destruct Hspec as (_ & _ & ->).
  destruct (m1 / 2 ^ _); [done| |done]. by destruct (_ <=? _).
Qed.

Lemma binary_normalize_nonneg (z ez : Z) :
  0 <= z → SFnonneg (binary_normalize prec emax z ez false).
Proof.
  intros Hz. destruct z as [|mz|mz]; [done| |lia]. cbn [binary_normalize].
  unfold binary_round. destruct (shl_align mz ez _) as [mx ex].
  by apply binary_round_aux_nonneg.
Qed.

Lemma SFadd_nonneg (x y : spec_float) :
  SFnonneg x → SFnonneg y → SFnonneg (SFadd prec emax x y).
Proof.
  destruct x as [sx|sx| |sx mx ex], y as [sy|sy| |sy my ey]; cbn [SFnonneg SFadd];
    try done; try (by intros -> ->).
  intros -> ->. cbn [cond_Zopp]. apply binary_normalize_nonneg. lia.
Qed.

Lemma SFmul_nonneg (x y : spec_float) :
  SFnonneg x → SFnonneg y → SFnonneg (SFmul prec emax x y).
Proof.
  destruct x as [sx|sx| |sx mx ex], y as [sy|sy| |sy my ey]; cbn [SFnonneg SFmul];
    try done; try (by intros -> ->).
  intros -> ->. cbn [xorb]. by apply binary_round_aux_nonneg.
Qed.

Lemma SFdiv_nonneg (x y : spec_float) :
  SFnonneg x → SFnonneg y → SFnonneg (SFdiv prec emax x y).
Proof.
  destruct x as [sx|sx| |sx mx ex], y as [sy|sy| |sy my ey]; cbn [SFnonneg SFdiv];
    try done; try (by intros -> ->).
  intros -> ->. cbn [xorb].
  destruct (SFdiv_core_binary_spec mx my ex ey) as (q & r & -> & Hqr & Hr).
  apply binary_round_aux_nonneg.
  match type of Hqr with _ * 2 ^ ?s = _ => pose proof (pow2_pos s ltac:(lia)) end. nia.
Qed.
End Operations.

Section FloatSigns.
Import Binary64.
Local Open Scope float_scope.

Lemma add_nonneg (x y : float) : nonneg x → nonneg y → nonneg (x + y).
Proof. unfold nonneg. rewrite FloatAxioms.add_spec. apply SFadd_nonneg. Qed.

Lemma mul_nonneg (x y : float) : nonneg x → nonneg y → nonneg (x * y).
Proof. unfold nonneg. rewrite FloatAxioms.mul_spec. apply SFmul_nonneg. Qed.

Lemma div_nonneg (x y : float) : nonneg x → nonneg y → nonneg (x / y).
Proof. unfold nonneg. rewrite FloatAxioms.div_spec. apply SFdiv_nonneg. Qed.

Lemma is_nan_spec (x : float) : is_nan x = true ↔ Prim2SF x = S754_nan.
Proof.
  unfold is_nan. rewrite FloatAxioms.eqb_spec. unfold SFeqb.
  destruct (Prim2SF x) as [s|s| |s m e]; cbn [SFcompare negb].
  - done.
  - by destruct s.
  - done.
  - rewrite Z.compare_refl, compare_cont_spec, Z.compare_refl. by destruct s.
Qed.

(** [change > 0 ? change : 0] and [change < 0 ? -change : 0] *)
Lemma gain_nonneg (change : float) : nonneg (if gtb change 0 then change else 0).
Proof.
  unfold gtb. destruct (0 <? change) eqn:E; [|done]. unfold nonneg.
  rewrite FloatAxioms.ltb_spec in E. unfold SFltb in E.
  change (Prim2SF 0) with (S754_zero false) in E.
  destruct (Prim2SF change) as [s|s| |s m e]; cbn [SFcompare] in E; try done;
    by destruct s.
Qed.

Lemma loss_nonneg (change : float) : nonneg (if change <? 0 then - change else 0).
Proof.
  destruct (change <? 0) eqn:E; [|done]. unfold nonneg.
  rewrite FloatAxioms.ltb_spec in E. unfold SFltb in E.
  change (Prim2SF 0) with (S754_zero false) in E.
  rewrite FloatAxioms.opp_spec.
  destruct (Prim2SF change) as [s|s| |s m e]; cbn [SFcompare SFopp] in E |- *; try done;
    by destruct s.
Qed.
End FloatSigns.

Section PercentBounds.
Import Binary64.
Local Open Scope Z_scope.

Lemma SFleb_below_one (x : spec_float) :
  SFleb (Prim2SF 1) x = true → SFnonneg x ∧ x ≠ S754_nan.
Proof.
  change (Prim2SF 1) with (S754_finite false 4503599627370496 (-52)). unfold SFleb.
  destruct x as [s|s| |s m e]; cbn [SFcompare SFnonneg]; try done; by destruct s.
Qed.

(** [1 + rs] for [rs] that is not negative *)
Lemma SFadd_one_lower (x : spec_float) :
  valid_binary x = true → SFnonneg x →
  valid_binary (SFadd prec emax (Prim2SF 1) x) = true →
  x = S754_nan ∨ SFleb (Prim2SF 1) (SFadd prec emax (Prim2SF 1) x) = true.
Proof.
  change (Prim2SF 1) with (S754_finite false 4503599627370496 (-52)).
  intros Hx Hnonneg. destruct x as [s|s| |s m e]; cbn [SFnonneg] in Hnonneg;
    cbn [SFadd]; [by right| |by left|]; subst s; [by right|].
  destruct (valid_finite _ _ _ Hx) as (He & _ & _).
  set (ez := Z.min (-52) e).
  destruct (shl_align_spec 4503599627370496 (-52) ez) as [_ H1].
  destruct (shl_align_spec m e ez) as [_ H2].
  replace (Z.min (-52) ez) with ez in H1 by lia. replace (Z.min e ez) with ez in H2 by lia.
  cbn [cond_Zopp]. rewrite H1, H2. clear H1 H2. intros Hvalid.
  set (S := 1200).
  assert (HS : S = 1200) by done. clearbody S.
  pose proof (pow2_pos (ez + S) ltac:(lia)) as Hp.
  pose proof (pow2_pos (e + S) ltac:(lia)) as Hpe.
  assert (Hval : 2 ^ S
                 <= (4503599627370496 * 2 ^ (-52 - ez) + Z.pos m * 2 ^ (e - ez))
                    * 2 ^ (ez + S)).
  { rewrite Z.mul_add_distr_r, <- !Z.mul_assoc, <- !Z.pow_add_r by lia.
    replace (-52 - ez + (ez + S)) with (-52 + S) by lia.
    replace (e - ez + (ez + S)) with (e + S) by lia.
    change 4503599627370496 with (2 ^ 52). rewrite <- Z.pow_add_r by lia.
    replace (52 + (-52 + S)) with S by lia. lia. }
  destruct (binary_normalize_lower _ ez S ltac:(lia) ltac:(lia) Hval)
    as [Heq|(m' & e' & Heq & Hm' & He')]; rewrite Heq in Hvalid |- *; right; [done|].
  apply (one_SFleb m' e' S); [done | lia | done | done].
Qed.

(** [2 * x] for [x >= 1] *)
Lemma SFmul_two_lower (x : spec_float) :
  valid_binary x = true → SFleb (Prim2SF 1) x = true →
  valid_binary (SFmul prec emax (Prim2SF 2) x) = true →
  SFleb (Prim2SF 1) (SFmul prec emax (Prim2SF 2) x) = true.
Proof.
  intros Hx Hle.
  destruct (SFleb_one x Hx Hle) as [->|(m & e & -> & He & Hm)]; [done|].
  change (Prim2SF 2) with (S754_finite false 4503599627370496 (-51)).
  cbn [SFmul xorb]. intros Hvalid.
  set (S := 1200).
  assert (HS : S = 1200) by done. clearbody S.
  specialize (Hm S ltac:(lia)).
  pose proof (pow2_pos (e + S) ltac:(lia)) as Hpe.
  assert (Hval : 2 ^ S <= Z.pos (4503599627370496 * m) * 2 ^ (-51 + e + S)).
  { rewrite Pos2Z.inj_mul. change (Z.pos 4503599627370496) with (2 ^ 52).
    replace (2 ^ 52 * Z.pos m * 2 ^ (-51 + e + S))
      with (Z.pos m * (2 ^ 52 * 2 ^ (-51 + e + S))) by lia.
    rewrite <- Z.pow_add_r by lia. replace (52 + (-51 + e + S)) with (1 + (e + S)) by lia.
    rewrite Z.pow_add_r by lia. change (2 ^ 1) with 2. nia. }
  destruct (binary_round_aux_lower (Z.pos (4503599627370496 * m)) (-51 + e) S loc_Exact
              ltac:(lia) ltac:(lia)
              ltac:(lia) Hval) as [Heq|(m' & e' & Heq & He' & Hm')];
    rewrite Heq in Hvalid |- *; [done|].
  apply (one_SFleb m' e' S); [done | lia | lia | done].
Qed.

(** [x - 1] for [x >= 1] *)
Lemma SFsub_one_nonneg (x : spec_float) :
  valid_binary x = true → SFleb (Prim2SF 1) x = true →
  SFnonneg (SFsub prec emax x (Prim2SF 1)).
Proof.
  intros Hx Hle.
  destruct (SFleb_one x Hx Hle) as [->|(m & e & -> & He & Hm)]; [done|].
  change (Prim2SF 1) with (S754_finite false 4503599627370496 (-52)).
  cbn [SFsub cond_Zopp].
  set (ez := Z.min e (-52)).
  destruct (shl_align_spec 4503599627370496 (-52) ez) as [_ H1].
  destruct (shl_align_spec m e ez) as [_ H2].
  replace (Z.min (-52) ez) with ez in H1 by lia. replace (Z.min e ez) with ez in H2 by lia.
  rewrite H1, H2. clear H1 H2.
  apply binary_normalize_nonneg.
  specialize (Hm (- ez) ltac:(lia)).
  replace (e + - ez) with (e - ez) in Hm by lia.
  change 4503599627370496 with (2 ^ 52). rewrite <- Z.pow_add_r by lia.
  replace (52 + (-52 - ez)) with (- ez) by lia. lia.
Qed.

(** [100 / d] for [d >= 1] *)
Lemma SFdiv_hundred (d : spec_float) :
  valid_binary d = true → SFleb (Prim2SF 1) d = true →
  valid_binary (SFdiv prec emax (Prim2SF 100) d) = true →
  SFnonneg (SFdiv prec emax (Prim2SF 100) d)
  ∧ SFleb (SFdiv prec emax (Prim2SF 100) d) (Prim2SF 100) = true.
Proof.
  intros Hd Hle.
  destruct (SFleb_one d Hd Hle) as [->|(md & ed & -> & Hed & Hmd)]; [done|].
  destruct (valid_finite _ _ _ Hd) as (Hed' & Hmd53 & _).
  change (Prim2SF 100) with (S754_finite false 7036874417766400 (-46)).
  cbn [SFdiv xorb].
  destruct (SFdiv_core_binary_spec 7036874417766400 md (-46) ed)
    as (q & r & -> & Hqr & Hr).
  change (Zdigits2 (Z.pos 7036874417766400)) with 53 in *.
  assert (Hd2 : Zdigits2 (Z.pos md) <= 53) by (apply Zdigits2_le; lia).
  destruct (Zdigits2_bounds (Z.pos md) ltac:(lia)) as (Hd2pos & _ & Hmdhi).
  set (d2 := Zdigits2 (Z.pos md)) in *.
  rewrite fexp_spec in *.
  replace (Z.min (Z.max (53 + -46 - (d2 + ed) - 53) (-1074)) (-46 - ed))
    with (-46 - d2 - ed) in * by lia.
  set (s := -46 - ed - (-46 - d2 - ed)) in *.
  assert (Hsd : s = d2) by lia.
  pose proof (pow2_pos s ltac:(lia)) as Hps.
  assert (Hq : 2 ^ 52 <= q).
  { assert (2 ^ d2 <= 2 ^ s) by (apply Z.pow_le_mono_r; lia).
    change 7036874417766400 with (100 * 2 ^ 46) in Hqr.
    change (2 ^ 46) with 70368744177664 in Hqr.
    change (2 ^ 52) with 4503599627370496. nia. }
  intros Hvalid.
  set (S := 1200).
  assert (HS : S = 1200) by done. clearbody S.
  specialize (Hmd S ltac:(lia)).
  set (e' := -46 - d2 - ed) in *.
  assert (Hsum : s + e' + ed = -46) by lia.
  assert (He'S : 0 <= e' + S) by lia.
  pose proof (pow2_pos (e' + S) He'S) as HpX.
  pose proof (pow2_pos (ed + S) ltac:(lia)) as HpY.
  pose proof (pow2_pos S ltac:(lia)) as HpS.
  set (X := 2 ^ (e' + S)) in *. set (Y := 2 ^ (ed + S)) in *.
  assert (Hscale : Z.pos 7036874417766400 * 2 ^ s * X * Y = 100 * 2 ^ S * 2 ^ S).
  { subst X Y. rewrite <- !Z.mul_assoc, <- !Z.pow_add_r by lia.
    replace (s + (e' + S + (ed + S))) with (-46 + (S + S)) by lia.
    change (Z.pos 7036874417766400) with (100 * 2 ^ 46).
    rewrite <- Z.mul_assoc, <- Z.pow_add_r by lia.
    by replace (46 + (-46 + (S + S))) with (S + S) by lia. }
  assert (Hchain : q * X * 2 ^ S + r * X * Y <= 100 * 2 ^ S * 2 ^ S).
  { rewrite <- Hscale, Hqr.
    assert (q * X * 2 ^ S <= q * X * (Z.pos md * Y))
      by (apply Z.mul_le_mono_nonneg_l; [nia | lia]).
    nia. }
  assert (HrXY : 0 <= r * X * Y) by nia.
  assert (Hbound : q * X <= 100 * 2 ^ S) by nia.
  assert (Hloc : new_location (Z.pos md) r = loc_Exact
                 ∨ (e' <= fexp prec emax (Zdigits2 q + e') ∧ q * X < 100 * 2 ^ S)).
  { destruct (Z.eq_dec r 0) as [->|Hr0]; [left; apply new_location_exact|right].
    split.
    - rewrite fexp_spec. pose proof (Zdigits2_gt q 52 ltac:(lia) Hq). lia.
    - assert (0 < r * X * Y) by nia. nia. }
  destruct (binary_round_aux_upper 100 q e' S _ ltac:(lia) ltac:(lia) He'S
              ltac:(by vm_compute) Hbound Hloc)
    as [Heq|(m' & e'' & Heq & He'' & Hm')]; rewrite Heq in Hvalid |- *; [done|].
  split; [done|].
  apply (hundred_SFleb m' e'' S); [done | lia | lia | lia | done].
Qed.

(** [100 - q] for [q] in [0, 100] *)
Lemma SFsub_hundred (q : spec_float) :
  valid_binary q = true → SFnonneg q → SFleb q (Prim2SF 100) = true →
  valid_binary (SFsub prec emax (Prim2SF 100) q) = true →
  SFleb (Prim2SF 0) (SFsub prec emax (Prim2SF 100) q) = true
  ∧ SFleb (SFsub prec emax (Prim2SF 100) q) (Prim2SF 100) = true.
Proof.
  intros Hq Hnonneg Hle.
  destruct q as [s|s| |s m e]; cbn [SFnonneg] in Hnonneg; try subst s; try done.
  destruct (valid_finite _ _ _ Hq) as (He & _ & _).
  set (S := 1200).
  assert (HS : S = 1200) by done. clearbody S.
  pose proof (SFleb_hundred m e S Hq Hle ltac:(lia) ltac:(lia) ltac:(lia)) as Hm.
  change (Prim2SF 100) with (S754_finite false 7036874417766400 (-46)).
  change (Prim2SF 0) with (S754_zero false).
  cbn [SFsub cond_Zopp].
  set (ez := Z.min (-46) e).
  destruct (shl_align_spec 7036874417766400 (-46) ez) as [_ H1].
  destruct (shl_align_spec m e ez) as [_ H2].
  replace (Z.min (-46) ez) with ez in H1 by lia. replace (Z.min e ez) with ez in H2 by lia.
  rewrite H1, H2. clear H1 H2. intros Hvalid.
  pose proof (pow2_pos (ez + S) ltac:(lia)) as Hp.
  set (z := Z.pos 7036874417766400 * 2 ^ (-46 - ez) - Z.pos m * 2 ^ (e - ez)) in *.
  assert (Hz : z * 2 ^ (ez + S) = 100 * 2 ^ S - Z.pos m * 2 ^ (e + S)).
  { subst z. rewrite Z.mul_sub_distr_r, <- !Z.mul_assoc, <- !Z.pow_add_r by lia.
    replace (-46 - ez + (ez + S)) with (-46 + S) by lia.
    replace (e - ez + (ez + S)) with (e + S) by lia.
    change (Z.pos 7036874417766400) with (100 * 2 ^ 46).
    rewrite <- Z.mul_assoc, <- Z.pow_add_r by lia.
    by replace (46 + (-46 + S)) with S by lia. }
  assert (Hz0 : 0 <= z) by nia.
  destruct (binary_normalize_upper 100 z ez S ltac:(lia) ltac:(lia) ltac:(by vm_compute)
              Hz0 ltac:(lia))
    as [Heq|(m' & e' & Heq & Hm' & He')]; rewrite Heq in Hvalid |- *; [done|].
  split; [done|].
  apply (hundred_SFleb m' e' S); [done | lia | lia | lia | done].
Qed.
End PercentBounds.

(** ** RSIEngine *)

Section RSI64Bounds.
Import Binary64 RSI64.
Local Open Scope float_scope.

Lemma rsiOf_range (g l : float) : nonneg g → nonneg l → percentOrNaN (rsiOf g l).
Proof.
  intros Hg Hl. unfold rsiOf.
  set (rs := if negb (l =? 0) then g / l else 0).
  assert (Hrs : nonneg rs).
  { subst rs. destruct (negb _); [by apply div_nonneg | done]. }
  pose proof (Prim2SF_valid (1 + rs)) as Hvd.
  pose proof (Prim2SF_valid (100 / (1 + rs))) as Hvq.
  pose proof (Prim2SF_valid (100 - 100 / (1 + rs))) as Hvr.
  unfold percentOrNaN, percent.
  rewrite is_nan_spec, !FloatAxioms.leb_spec.
  rewrite FloatAxioms.sub_spec in Hvr |- *. rewrite FloatAxioms.div_spec in Hvq, Hvr |- *.
  rewrite FloatAxioms.add_spec in Hvd, Hvq, Hvr |- *.
  unfold SF64sub, SF64div, SF64add in *.
  destruct (SFadd_one_lower (Prim2SF rs) (Prim2SF_valid rs) Hrs Hvd) as [Hnan|Hone].
  - left. by rewrite Hnan.
  - right. destruct (SFdiv_hundred _ Hvd Hone Hvq) as [Hq Hq100].
    destruct (SFsub_hundred _ Hvq Hq Hq100 Hvr) as [-> ->]. done.
Qed.

Lemma ofPos_lower (p : positive) : (1 <=? ofPos p) = true.
Proof.
  induction p as [p IH|p IH|]; cbn [ofPos]; [| |done].
  - rewrite FloatAxioms.leb_spec in IH |- *.
    pose proof (Prim2SF_valid (2 * ofPos p)) as Hv2.
    pose proof (Prim2SF_valid (1 + 2 * ofPos p)) as Hv.
    rewrite FloatAxioms.add_spec in Hv |- *. rewrite FloatAxioms.mul_spec in Hv2, Hv |- *.
    unfold SF64add, SF64mul in *.
    pose proof (SFmul_two_lower _ (Prim2SF_valid (ofPos p)) IH Hv2) as H2.
    destruct (SFleb_below_one _ H2) as [Hnonneg Hnan].
    by destruct (SFadd_one_lower _ Hv2 Hnonneg Hv).
  - rewrite FloatAxioms.leb_spec in IH |- *.
    pose proof (Prim2SF_valid (2 * ofPos p)) as Hv2.
    rewrite FloatAxioms.mul_spec in Hv2 |- *. unfold SF64mul in *.
    apply SFmul_two_lower; [apply Prim2SF_valid | done | done].
Qed.

(** The number of a period of at least 1, and the number before it. *)
Lemma ofNat_period (period : nat) :
  (1 ≤ period)%nat → nonneg (ofNat period) ∧ nonneg (ofNat period - 1).
Proof.
  intros Hperiod. unfold ofNat.
  destruct (N.of_nat period) as [|p] eqn:Hp; [lia|].
  pose proof (ofPos_lower p) as Hle. rewrite FloatAxioms.leb_spec in Hle.
  split.
  - by destruct (SFleb_below_one _ Hle).
  - unfold nonneg. rewrite FloatAxioms.sub_spec.
    apply SFsub_one_nonneg; [apply Prim2SF_valid | done].
Qed.

Lemma sum_from_nonneg (l : list float) (a : float) :
  nonneg a → Forall nonneg l → nonneg (foldl PrimFloat.add a l).
Proof.
  intros Ha Hl. revert a Ha.
  induction Hl as [|x l Hx _ IH]; intros a Ha; cbn [foldl]; [done|].
  apply IH. by apply add_nonneg.
Qed.

Lemma at_nonneg (l : list float) (i : nat) : Forall nonneg l → nonneg (at_ l i).
Proof.
  intros Hl. unfold at_. destruct (l !! i) as [x|] eqn:Hi; [|done].
  apply (Forall_lookup_1 _ _ _ _ Hl Hi).
Qed.

Lemma gainsOf_nonneg (changes : list float) : Forall nonneg (gainsOf changes).
Proof.
  unfold gainsOf. apply Forall_fmap, Forall_forall. intros c _. apply gain_nonneg.
Qed.

Lemma lossesOf_nonneg (changes : list float) : Forall nonneg (lossesOf changes).
Proof.
  unfold lossesOf. apply Forall_fmap, Forall_forall. intros c _. apply loss_nonneg.
Qed.

Variables (period len : nat) (gains losses : list float).
Hypothesis Hperiod : (1 ≤ period)%nat.
Hypothesis Hgains : Forall nonneg gains.
Hypothesis Hlosses : Forall nonneg losses.

Lemma smoothed_nonneg (avg : float) (values : list float) (i : nat) :
  nonneg avg → Forall nonneg values →
  nonneg ((avg * (ofNat period - 1) + at_ values i) / ofNat period).
Proof.
  intros Havg Hvalues. destruct (ofNat_period period Hperiod) as [Hp Hp1].
  apply div_nonneg; [|done]. apply add_nonneg; [|by apply at_nonneg].
  by apply mul_nonneg.
Qed.

Lemma wilderStep_filled (n : nat) (st : loopState) :
  (period + 1 + n < len)%nat →
  filled period len n st →
  filled period len (S n) (wilderStep period gains losses st (period + 1 + n)).
Proof.
  intros Hlt (Hg & Hl & Hlen & Hnull & Hval).
  pose proof (smoothed_nonneg (avgGain st) gains (period + 1 + n - 1) Hg Hgains) as Hg'.
  pose proof (smoothed_nonneg (avgLoss st) losses (period + 1 + n - 1) Hl Hlosses) as Hl'.
  unfold filled, wilderStep. cbn [avgGain avgLoss rsiValues]. split_and!; [done | done | | |].
  - by rewrite length_insert.
  - intros i Hi. rewrite list_lookup_insert_ne by lia. by apply Hnull.
  - intros i Hi. destruct (decide (i = period + 1 + n)%nat) as [->|Hne].
    + eexists. split; [apply list_lookup_insert_eq; lia|]. by apply rsiOf_range.
    + rewrite list_lookup_insert_ne by lia. apply Hval. lia.
Qed.

Lemma loop_filled (n : nat) (st : loopState) :
  (period + 1 + n ≤ len)%nat →
  filled period len 0 st →
  filled period len n (foldl (wilderStep period gains losses) st (seq (period + 1) n)).
Proof.
  intros Hn H0. induction n as [|n IH]; [done|].
  rewrite seq_S, foldl_app. cbn [foldl].
  apply wilderStep_filled; [lia|]. apply IH. lia.
Qed.
End RSI64Bounds.


(** On the prices of scenario A the code yields one value, about 53.5. *)
Example scenarioA_rsi :
  ∃ v, RSI64.calculateRSI RSI64.scenarioA 14 = Ok (replicate 14 None ++ [Some v])
       ∧ PrimFloat.ltb 53 v = true ∧ PrimFloat.ltb v 54 = true.
Proof. eexists. split_and!; by vm_compute. Qed.



(** ** MarketDataSource *)

(** A 418 answer ends the call at once, after a single request. *)
Lemma getBinanceKlines_banned (r : Klines.Response) (rest : list Klines.Response) :
  Klines.status r = 418%Z →
  Klines.getBinanceKlines (r :: rest)
  = ([Klines.Fetch],
     Some (Throw "Binance API: IP banned (418). Please wait before retrying.")).
Proof. intros H. unfold Klines.getBinanceKlines, Klines.ok. by rewrite H. Qed.

(** Any other status outside 200..299 ends the call at once with an error
    that carries the status code. *)
Lemma getBinanceKlines_other_status (r : Klines.Response) (rest : list Klines.Response) :
  Klines.ok r = false → Klines.status r ≠ 429%Z → Klines.status r ≠ 418%Z →
  Klines.getBinanceKlines (r :: rest)
  = ([Klines.Fetch],
     Some (Throw ("Binance API error: " +:+ pretty (Klines.status r)
                    +:+ " " +:+ Klines.statusText r))).
Proof.
  intros Hok H429 H418. simpl. rewrite Hok.
  apply Z.eqb_neq in H429, H418. by rewrite H429, H418.
Qed.

(** A 429 answer is followed by the wait and by a new call, which treats
    its own answer in the same way. *)
Lemma getBinanceKlines_rate_limited (r : Klines.Response) (rest : list Klines.Response) :
  Klines.status r = 429%Z →
  Klines.getBinanceKlines (r :: rest)
  = (Klines.Fetch
       :: Klines.Wait (match Klines.retryAfter r with
                       | Some seconds => seconds * 1000
                       | None => 60000
                       end)%Z
       :: (Klines.getBinanceKlines rest).1,
     (Klines.getBinanceKlines rest).2).
Proof.
  intros H. cbn [Klines.getBinanceKlines]. unfold Klines.ok. rewrite H. simpl.
  by destruct (Klines.getBinanceKlines rest).
Qed.

(** After [n] rate-limit answers in a row the function has sent [n + 1]
    requests, that is, it has retried [n] times. *)
Lemma getBinanceKlines_retries (n : nat) (klines : list Candle) :
  let run := Klines.getBinanceKlines
               (replicate n Klines.tooManyRequests ++ [Klines.success klines]) in
  Klines.requests run.1 = S n ∧ Klines.retries run.1 = n ∧ run.2 = Some (Ok klines).
Proof.
  simpl. unfold Klines.retries.
  induction n as [|n (IHr & _ & IHo)]; [done|].
  cbn [replicate app]. rewrite getBinanceKlines_rate_limited by done.
  cbn [fst snd Klines.tooManyRequests Klines.retryAfter].
  assert (Klines.requests
            (Klines.Fetch :: Klines.Wait 60000
               :: (Klines.getBinanceKlines
                     (replicate n Klines.tooManyRequests ++ [Klines.success klines])).1)
          = S (S n)) as ->; [|done].
  rewrite <- IHr. reflexivity.
Qed.

(** C6. When the exchange answers 429 twice in a row and then succeeds,
    [getBinanceKlines] waits twice and sends three requests: it retries
    twice, although a 429 is to be retried exactly once. *)
Theorem getBinanceKlines_retries_twice (klines : list Candle) :
  let run := Klines.getBinanceKlines
               [Klines.tooManyRequests; Klines.tooManyRequests; Klines.success klines] in
  run = ([Klines.Fetch; Klines.Wait 60000; Klines.Fetch; Klines.Wait 60000; Klines.Fetch],
         Some (Ok klines))
  ∧ Klines.retries run.1 = 2.
Proof. split; reflexivity. Qed.

(** ** BreakoutDetector: resolution of an open position *)

Section Resolution.
Import Breakout.

Lemma closePosition_stop_first (s : Pair) (c : Candle) :
  hitsStopLoss s c → closePosition s c = (true, setResult loss s).
Proof.
  unfold hitsStopLoss, closePosition. intros H.
  destruct (breakoutDirection s); apply Qle_bool_iff in H; simpl; by rewrite H.
Qed.

Lemma detect_pairs rangeHigh rangeLow candles st i c :
  ∃ new, validBreakoutReentryPairs (detect rangeHigh rangeLow candles st i c)
         = validBreakoutReentryPairs st ++ new.
Proof.
  unfold detect. destruct (firstBreakout st) as [first|].
  - destruct (_ || _); [exists []; by rewrite app_nil_r|].
    destruct (_ && _); [by eexists|exists []; by rewrite app_nil_r].
  - destruct (_ || _); exists []; by rewrite app_nil_r.
Qed.

Lemma checkCandles_skip (s : Pair) (pre rest : list Candle) :
  Forall (λ c, ¬ hitsStopLoss s c ∧ ¬ hitsTakeProfit s c) pre →
  checkCandles s (pre ++ rest) = checkCandles s rest.
Proof.
  induction 1 as [|c pre [Hsl Htp] _ IH]; [done|].
  cbn [app checkCandles]. rewrite IH.
  unfold hitsStopLoss, hitsTakeProfit in Hsl, Htp.
  destruct (breakoutDirection s); simpl;
    rewrite <- Qle_bool_iff in Hsl, Htp;
    apply not_true_is_false in Hsl, Htp; by rewrite Hsl, Htp.
Qed.

Lemma checkCandles_stop_first (s : Pair) (c : Candle) (post : list Candle) :
  hitsStopLoss s c → checkCandles s (c :: post) = setResult loss s.
Proof.
  unfold hitsStopLoss. intros H. cbn [checkCandles].
  destruct (breakoutDirection s); apply Qle_bool_iff in H; simpl; by rewrite H.
Qed.
End Resolution.

Lemma findReentryIndex_nonempty reentryTime additionalCandles j reentryIndex :
  Breakout.findReentryIndex reentryTime additionalCandles j = Some reentryIndex →
  additionalCandles ≠ [].
Proof. by destruct additionalCandles. Qed.

(** C3. When one candle meets both the stop-loss and the take-profit
    condition of the open position, the position is closed as a loss on that
    candle: in the scan of the day (the last signal of the array becomes a
    loss), and in the look-ahead over the following days (the first candle
    after the re-entry that meets a condition decides). *)
Theorem stop_loss_has_priority :
  (∀ (rangeHigh rangeLow : Q) (candles : list Candle) (st : Breakout.ScanState)
     (i : nat) (candle : Candle) (lastSignal : Breakout.Pair),
     candles !! i = Some candle →
     Breakout.hasOpenPosition st = true →
     last (Breakout.validBreakoutReentryPairs st) = Some lastSignal →
     Breakout.result lastSignal = Breakout.pending →
     Breakout.hitsStopLoss lastSignal candle →
     Breakout.hitsTakeProfit lastSignal candle →
     Breakout.validBreakoutReentryPairs (Breakout.scanStep rangeHigh rangeLow candles st i)
       !! (length (Breakout.validBreakoutReentryPairs st) - 1)
     = Some (Breakout.setResult Breakout.loss lastSignal))
  ∧ (∀ (pendingSignal : Breakout.Pair) (additionalCandles : list Candle)
       (reentryIndex : nat) (before : list Candle) (candle : Candle)
       (after : list Candle),
       Breakout.findReentryIndex (Breakout.reentryTime pendingSignal) additionalCandles 0
       = Some reentryIndex →
       drop (reentryIndex + 1) additionalCandles = before ++ candle :: after →
       Forall (λ c, ¬ Breakout.hitsStopLoss pendingSignal c
                    ∧ ¬ Breakout.hitsTakeProfit pendingSignal c) before →
       Breakout.hitsStopLoss pendingSignal candle →
       Breakout.hitsTakeProfit pendingSignal candle →
       Breakout.resolvePending additionalCandles pendingSignal
       = Breakout.setResult Breakout.loss pendingSignal).
Proof.
  split.
  - intros rangeHigh rangeLow candles st i candle lastSignal Hc Hopen Hlast Hpend Hsl _.
    unfold Breakout.scanStep. rewrite Hc, Hopen, Hlast, Hpend. simpl.
    rewrite closePosition_stop_first by done.
    match goal with
    | |- context [Breakout.detect _ _ _ ?st' _ _] =>
        destruct (detect_pairs rangeHigh rangeLow candles st' i candle) as [new ->]
    end.
    simpl. apply last_Some in Hlast as [front Hfront]. rewrite Hfront.
    rewrite length_app. simpl.
    rewrite lookup_app_l by (rewrite length_insert, length_app; simpl; lia).
    apply list_lookup_insert_eq. rewrite length_app. simpl. lia.
  - intros s additionalCandles reentryIndex before candle after Hfind Hdrop Hbefore Hsl _.
    unfold Breakout.resolvePending.
    pose proof (findReentryIndex_nonempty _ _ _ _ Hfind) as Hne.
    destruct additionalCandles as [|c0 rest]; [done|].
    rewrite Hfind, Hdrop, checkCandles_skip by done.
    by apply checkCandles_stop_first.
Qed.

Lemma stop_loss_has_priority_witness :
  Breakout.validBreakoutReentryPairs
    (Breakout.scanStep 100 95 [Breakout.bothHit] Breakout.openState 0) !! 0
  = Some (Breakout.setResult Breakout.loss Breakout.openLong)
  ∧ Breakout.resolvePending
      [Breakout.reentryCandle Breakout.openLong; Breakout.bothHit] Breakout.openLong
    = Breakout.setResult Breakout.loss Breakout.openLong.
Proof.
  split.
  - apply (proj1 stop_loss_has_priority 100%Q 95%Q [Breakout.bothHit]
             Breakout.openState 0 Breakout.bothHit Breakout.openLong);
      try reflexivity; vm_compute; discriminate.
  - apply (proj2 stop_loss_has_priority Breakout.openLong
             [Breakout.reentryCandle Breakout.openLong; Breakout.bothHit] 0
             [] Breakout.bothHit []);
      [reflexivity | reflexivity | constructor
       | vm_compute; discriminate | vm_compute; discriminate].
Defined.

(** ** IncrementalCache: the cadence check *)

Lemma hasNewCandleAvailable_hourly (now latest : Z) :
  Cache.hasNewCandleAvailable now (Some latest) "1h" = false
  ↔ (now / 3600000 * 3600000 <= latest)%Z.
Proof.
  unfold Cache.hasNewCandleAvailable, Cache.getLatestExpectedCandleTime.
  cbn [default decide]. rewrite decide_True by done.
  rewrite Z.gtb_ltb, Z.ltb_ge. reflexivity.
Qed.

Lemma get_unexpired {A : Type} (store : gmap string (Cache.Entry A)) now key cached :
  store !! (Cache.CACHE_PREFIX +:+ key) = Some cached →
  (Cache.expiry cached = 0 ∨ now <= Cache.timestamp cached + Cache.expiry cached)%Z →
  Cache.get store now key = (Some (Cache.data cached, Cache.timestamp cached), store).
Proof.
  intros Hget Hexp. unfold Cache.get. rewrite Hget.
  destruct (negb _ && _)%Z eqn:E; [|done].
  apply andb_true_iff in E as [E1 E2].
  apply negb_true_iff, Z.eqb_neq in E1. apply Z.gtb_lt in E2. lia.
Qed.

(** A forced refresh skips the cache and requests every symbol. *)
Lemma fetchMultipleRSI_forced net now store symbols period maPeriod :
  (MultiRSI.fetchMultipleRSI net now store symbols period maPeriod true).2 = symbols.
Proof. reflexivity. Qed.

Lemma candleElapsed_hourly (latest now : Z) :
  Cadence.candleElapsed latest now 3600000 ↔ (latest < now / 3600000 * 3600000)%Z.
Proof.
  unfold Cadence.candleElapsed. split.
  - intros (k & Hlast & Hk).
    assert (k <= now / 3600000)%Z by (apply Z.div_le_lower_bound; lia).
    lia.
  - intros Hlt. exists (now / 3600000)%Z. split; [done|].
    pose proof (Z.mul_div_le now 3600000 ltac:(lia)). lia.
Qed.

(** C5. With an unexpired cache entry whose readings have their latest
    time stamp at [latest], a call of [fetchMultipleRSI] that is not forced
    returns the cached array, leaves the cache as it is and requests nothing
    from the exchange as long as no new hourly candle period has elapsed
    since [latest]; once one has, it requests the klines of every symbol.
    The cadence check reports no update exactly in the first case. When
    [latest] is on the hour, as 14:00 is, a new period has elapsed from
    [latest + 1h] on: not at 14:45, but at 15:01. *)
Theorem fetchMultipleRSI_cadence
    (net : string → result (list Candle)) (now : Z)
    (store : gmap string (Cache.Entry (list Reading.t)))
    (symbols : list string) (period maPeriod : nat)
    (cached : Cache.Entry (list Reading.t)) (latest : Z) :
  store !! (Cache.CACHE_PREFIX +:+ MultiRSI.cacheKey symbols period maPeriod) = Some cached →
  (Cache.expiry cached = 0 ∨ now <= Cache.timestamp cached + Cache.expiry cached)%Z →
  Cache.data cached ≠ [] →
  foldl Z.max 0%Z (Reading.timestamp <$> Cache.data cached) = latest →
  (0 < latest)%Z →
  let elapsed := Cadence.candleElapsed latest now 3600000 in
  (¬ elapsed →
     MultiRSI.fetchMultipleRSI net now store symbols period maPeriod false
     = (Cache.data cached, store, []))
  ∧ (elapsed →
     (MultiRSI.fetchMultipleRSI net now store symbols period maPeriod false).2 = symbols)
  ∧ (Cache.hasNewCandleAvailable now (Some latest) "1h" = false ↔ ¬ elapsed)
  ∧ ((latest mod 3600000 = 0)%Z → elapsed ↔ (latest + 3600000 <= now)%Z).
Proof.
  intros Hget Hexp Hdata Hlatest Hpos elapsed.
  assert (Hcad : Cache.hasNewCandleAvailable now (Some latest) "1h" = false ↔ ¬ elapsed).
  { rewrite hasNewCandleAvailable_hourly. subst elapsed.
    rewrite candleElapsed_hourly. lia. }
  assert (Hlen : (0 <? length (Cache.data cached)) = true).
  { apply Nat.ltb_lt. destruct (Cache.data cached); simpl; [done | lia]. }
  assert (Hgt : (latest >? 0)%Z = true) by (apply Z.gtb_lt; lia).
  unfold MultiRSI.fetchMultipleRSI. cbn [negb].
  rewrite (get_unexpired _ _ _ _ Hget Hexp), Hlen, Hlatest, Hgt.
  split_and!; [| |done|].
  - intros Hnot. apply Hcad in Hnot. by rewrite Hnot.
  - intros Hel. destruct (Cache.hasNewCandleAvailable now (Some latest) "1h"); [done|].
    by destruct (proj1 Hcad eq_refl).
  - intros Hal. subst elapsed. rewrite candleElapsed_hourly.
    pose proof (Z.div_mod latest 3600000 ltac:(lia)) as Hl.
    pose proof (Z.div_mod now 3600000 ltac:(lia)) as Hn.
    pose proof (Z.mod_pos_bound now 3600000 ltac:(lia)) as Hb.
    rewrite Hal in Hl. lia.
Qed.

Lemma fetchMultipleRSI_cadence_witness :
  (MultiRSI.fetchMultipleRSI MultiRSI.offline MultiRSI.at1445 MultiRSI.scenarioD
     ["BTC/USDT"] 14 14 false
   = ([MultiRSI.cachedReading], MultiRSI.scenarioD, [])
   ∧ (MultiRSI.fetchMultipleRSI MultiRSI.offline MultiRSI.at1501 MultiRSI.scenarioD
        ["BTC/USDT"] 14 14 false).2 = ["BTC/USDT"])
  ∧ (MultiRSI.fetchMultipleRSI MultiRSI.offline 57500000 Cadence.refreshed.2
       ["BTC/USDT"] 14 14 false
     = (Cadence.refreshed.1, Cadence.refreshed.2, [])
     ∧ (MultiRSI.fetchMultipleRSI MultiRSI.offline 57600000 Cadence.refreshed.2
          ["BTC/USDT"] 14 14 false).2 = ["BTC/USDT"]).
Proof.
  split; split.
  - destruct (fetchMultipleRSI_cadence MultiRSI.offline MultiRSI.at1445
                MultiRSI.scenarioD ["BTC/USDT"] 14 14
                (Cache.mkEntry [MultiRSI.cachedReading]
                   (MultiRSI.at1400 + 5 * 60 * 1000)%Z (2 * 60 * 60 * 1000)%Z)
                MultiRSI.at1400) as (Hcached & _);
      [reflexivity | right; vm_compute; discriminate | discriminate
      | reflexivity | reflexivity |].
    apply Hcached. intros [k Hk]. unfold MultiRSI.at1445, MultiRSI.at1400 in Hk. lia.
  - destruct (fetchMultipleRSI_cadence MultiRSI.offline MultiRSI.at1501
                MultiRSI.scenarioD ["BTC/USDT"] 14 14
                (Cache.mkEntry [MultiRSI.cachedReading]
                   (MultiRSI.at1400 + 5 * 60 * 1000)%Z (2 * 60 * 60 * 1000)%Z)
                MultiRSI.at1400) as (_ & Hfresh & _);
      [reflexivity | right; vm_compute; discriminate | discriminate
      | reflexivity | reflexivity |].
    apply Hfresh. exists 489471%Z. by vm_compute.
  - destruct (fetchMultipleRSI_cadence MultiRSI.offline 57500000
                Cadence.refreshed.2 ["BTC/USDT"] 14 14
                (Cache.mkEntry Cadence.refreshed.1 57000000 (2 * 60 * 60 * 1000)%Z)
                57599999) as (Hcached & _);
      [unfold Cadence.refreshed; apply lookup_insert_eq
      | right; vm_compute; discriminate | vm_compute; discriminate
      | vm_compute; reflexivity | reflexivity |].
    apply Hcached. intros [k Hk]. lia.
  - destruct (fetchMultipleRSI_cadence MultiRSI.offline 57600000
                Cadence.refreshed.2 ["BTC/USDT"] 14 14
                (Cache.mkEntry Cadence.refreshed.1 57000000 (2 * 60 * 60 * 1000)%Z)
                57599999) as (_ & Hfresh & _);
      [unfold Cadence.refreshed; apply lookup_insert_eq
      | right; vm_compute; discriminate | vm_compute; discriminate
      | vm_compute; reflexivity | reflexivity |].
    apply Hfresh. exists 16%Z. by vm_compute.
Defined.

(** ** Arrays: the stable sort *)

Section SortFacts.
Context {A : Type} (compareFn : A → A → Z) (rank : A → Z).
Hypothesis compareFn_rank : ∀ x y, (compareFn x y <= 0)%Z ↔ (rank x <= rank y)%Z.

Local Abbreviation ordered := (StronglySorted (λ a b, (rank a <= rank b)%Z)).

Lemma insertSorted_perm x l : insertSorted compareFn x l ≡ₚ x :: l.
Proof.
  induction l as [|y l IH]; simpl; [done|].
  destruct (compareFn x y <=? 0)%Z; [done|].
  rewrite IH. apply Permutation_swap.
Qed.

Lemma sortWith_perm l : sortWith compareFn l ≡ₚ l.
Proof.
  induction l as [|x l IH]; simpl; [done|].
  rewrite insertSorted_perm. by rewrite IH.
Qed.

Lemma sortWith_length l : length (sortWith compareFn l) = length l.
Proof. by rewrite sortWith_perm. Qed.

Lemma insertSorted_ordered x l : ordered l → ordered (insertSorted compareFn x l).
Proof.
  induction 1 as [|y l Hl IH Hy]; simpl.
  - repeat constructor.
  - destruct (compareFn x y <=? 0)%Z eqn:E.
    + apply Z.leb_le, compareFn_rank in E.
      constructor; [by constructor|].
      constructor; [done|]. eapply Forall_impl; [exact Hy|]. simpl. lia.
    + apply Z.leb_gt in E.
      assert (rank y <= rank x)%Z.
      { destruct (Z.le_gt_cases (rank x) (rank y)) as [Hle|Hgt]; [|lia].
        apply compareFn_rank in Hle. lia. }
      constructor; [done|].
      eapply Permutation_Forall; [symmetry; apply insertSorted_perm|].
      by constructor.
Qed.

Lemma sortWith_ordered l : ordered (sortWith compareFn l).
Proof.
  induction l as [|x l IH]; simpl; [constructor|]. by apply insertSorted_ordered.
Qed.

Lemma insertSorted_front x l :
  Forall (λ y, (rank x <= rank y)%Z) l → insertSorted compareFn x l = x :: l.
Proof.
  destruct 1 as [|y l Hy _]; simpl; [done|].
  apply compareFn_rank, Z.leb_le in Hy. by rewrite Hy.
Qed.

Lemma filter_insertSorted (P : A → Prop) `{∀ x, Decision (P x)} x l :
  ordered l →
  filter P (insertSorted compareFn x l)
  = if decide (P x) then insertSorted compareFn x (filter P l) else filter P l.
Proof.
  induction 1 as [|y l Hl IH Hy]; simpl.
  - rewrite filter_cons, filter_nil. by destruct (decide (P x)).
  - destruct (compareFn x y <=? 0)%Z eqn:E.
    + rewrite !filter_cons. destruct (decide (P x)) as [Hx|Hx]; [|done].
      destruct (decide (P y)) as [Hpy|Hpy]; simpl.
      * by rewrite E.
      * symmetry. apply insertSorted_front.
        apply Z.leb_le, compareFn_rank in E.
        apply Forall_forall. intros z [_ Hz]%list_elem_of_filter.
        rewrite Forall_forall in Hy. specialize (Hy z Hz). simpl in Hy. lia.
    + rewrite !filter_cons, IH.
      destruct (decide (P x)), (decide (P y)); simpl; try done. by rewrite E.
Qed.

Lemma filter_sortWith (P : A → Prop) `{∀ x, Decision (P x)} l :
  filter P (sortWith compareFn l) = sortWith compareFn (filter P l).
Proof.
  induction l as [|x l IH]; simpl; [done|].
  rewrite filter_insertSorted by apply sortWith_ordered.
  rewrite filter_cons, IH. by destruct (decide (P x)).
Qed.

Lemma ordered_lookup l i j a b :
  ordered l → l !! i = Some a → l !! j = Some b → i < j → (rank a <= rank b)%Z.
Proof.
  intros Hl Hi Hj Hij.
  rewrite <- (take_drop j l) in Hl.
  eapply (StronglySorted_app_1_elem_of _ _ _ _ _ Hl).
  - apply list_elem_of_lookup. exists i. by rewrite lookup_take_lt.
  - apply list_elem_of_lookup. exists 0. by rewrite lookup_drop, Nat.add_0_r.
Qed.
End SortFacts.

Lemma byCloseTime_rank (x y : Candle) :
  (closeTime x - closeTime y <= 0)%Z ↔ (closeTime x <= closeTime y)%Z.
Proof. lia. Qed.

(** ** RSIEngine: the reading of the two latest candles *)

Lemma fromEnd_Some {A : Type} (arr : list A) (k : nat) (x : A) :
  Engine.fromEnd arr k = Some x → k ≤ length arr ∧ arr !! (length arr - k) = Some x.
Proof.
  unfold Engine.fromEnd. destruct (length arr <? k) eqn:E; [done|].
  apply Nat.ltb_ge in E. done.
Qed.

(** Whatever the order of the candles read by position, the reading
    returned has its previous time stamp at or before its time stamp, and
    strictly before when the two candles differ in close time. *)
Lemma readingOf_timestamps symbol (formattedData : list Candle) period maPeriod r p :
  Engine.readingOf symbol formattedData period maPeriod = Ok r →
  Reading.previous_timestamp r = Some p →
  ∃ previous latest,
    Engine.fromEnd formattedData 2 = Some previous
    ∧ Engine.fromEnd formattedData 1 = Some latest
    ∧ (p <= Reading.timestamp r)%Z
    ∧ (closeTime previous ≠ closeTime latest → (p < Reading.timestamp r)%Z).
Proof.
  unfold Engine.readingOf.
  destruct (RSI.calculateRSI _ _) as [rsiValues|]; [|done].
  destruct (Engine.fromEnd formattedData 1) as [latest|]; [|done].
  destruct (Engine.fromEnd formattedData 2) as [previous|]; simpl.
  - destruct (closeTime previous >? closeTime latest)%Z eqn:E;
      intros [= <-]; simpl; intros [= <-]; exists previous, latest.
    + apply Z.gtb_lt in E. repeat split; try done; lia.
    + rewrite Z.gtb_ltb in E. apply Z.ltb_ge in E. repeat split; try done; lia.
  - intros [= <-]. done.
Qed.

(** After the sort the candle read as previous never closes after the one
    read as latest, so the reading is built by the ordinary path. *)
Lemma sorted_last_two (klines : list Candle) previous latest :
  let formattedData := sortWith (λ a b, closeTime a - closeTime b)%Z klines in
  Engine.fromEnd formattedData 2 = Some previous →
  Engine.fromEnd formattedData 1 = Some latest →
  (closeTime previous <= closeTime latest)%Z.
Proof.
  intros fd [H2 Hp]%fromEnd_Some [H1 Hl]%fromEnd_Some.
  eapply (ordered_lookup closeTime fd _ _ previous latest); [|done..|lia].
  apply (sortWith_ordered _ closeTime byCloseTime_rank).
Qed.

(** C7. On klines whose two latest candles close at the same time,
    [fetchRSIFromBinance] returns a reading whose previous time stamp equals
    its time stamp: the guard that follows the comment "latest must be newer
    than previous" tests [prevTime > latestTime] only, and after the sort
    the previous candle never closes after the latest one. What every
    reading has is a previous time stamp that is not later than its time
    stamp. *)
Theorem fetchRSIFromBinance_equal_close_times :
  (∀ (symbol : string) (klines : list Candle) (period maPeriod : nat)
     (r : Reading.t) (p : Z),
     Engine.fetchRSIFromBinance symbol klines period maPeriod = Ok r →
     Reading.previous_timestamp r = Some p →
     (p <= Reading.timestamp r)%Z)
  ∧ ∃ r, Engine.fetchRSIFromBinance "BTC/USDT" Engine.repeated 14 14 = Ok r
         ∧ Reading.timestamp r = (15 * 3600000 - 1)%Z
         ∧ Reading.previous_timestamp r = Some (15 * 3600000 - 1)%Z.
Proof.
  split.
  - intros symbol klines period maPeriod r p.
    unfold Engine.fetchRSIFromBinance. destruct klines as [|k klines]; [done|].
    intros Hr Hp.
    by destruct (readingOf_timestamps _ _ _ _ _ _ Hr Hp) as (_ & _ & _ & _ & Hle & _).
  - destruct (Engine.fetchRSIFromBinance "BTC/USDT" Engine.repeated 14 14)
      as [r|] eqn:Hr; [|vm_compute in Hr; discriminate].
    exists r. split; [done|]. vm_compute in Hr. by injection Hr as <-.
Qed.

Lemma orNull_zero (v : Q) : (v == 0)%Q → Engine.orNull (Some (Some v)) = None.
Proof. intros Hv. simpl. apply Qneb_false in Hv. by rewrite Hv. Qed.



(** ** BreakoutDetector: the signals of one day *)

Section ScanInvariant.
Import Breakout.
Variables rangeHigh rangeLow : Q.
Variable candles : list Candle.

(** A property of signals that does not depend on [result] and holds of
    every signal at its creation. *)
Variable good : Pair → Prop.
Hypothesis good_setResult : ∀ res s, good s → good (setResult res s).
Hypothesis good_new :
  ∀ first i candle,
    candles !! i = Some candle → waiting candles i first →
    good (newSignalAt rangeHigh rangeLow candles first i candle).

Local Abbreviation scanInvariant := (scanInvariant candles good).

Lemma closePosition_good s c : good s → good (closePosition s c).2.
Proof.
  intros Hs. unfold closePosition.
  repeat (destruct (_ && _); simpl; auto).
Qed.

Lemma detect_invariant st i c :
  candles !! i = Some c →
  scanInvariant i st → scanInvariant (S i) (detect rangeHigh rangeLow candles st i c).
Proof.
  intros Hc [Hgood Hwait]. unfold detect.
  destruct (firstBreakout st) as [first|] eqn:Hfirst.
  - specialize (Hwait first eq_refl).
    assert (Hkeep : scanInvariant (S i) st).
    { split; [done|]. intros f Hf. rewrite Hfirst in Hf. injection Hf as <-.
      destruct Hwait as (? & ? & ?). repeat split; try done. lia. }
    destruct (_ || _); [done|]. destruct (_ && _); [|done].
    split; simpl; [|done].
    apply Forall_app. split; [done|]. repeat constructor. by apply good_new.
  - destruct (_ || _).
    + split; simpl; [done|]. intros f [= <-]. repeat split; simpl; try done; lia.
    + split; [done|]. intros f Hf. by rewrite Hfirst in Hf.
Qed.

Lemma scanStep_invariant st i :
  i < length candles →
  scanInvariant i st → scanInvariant (S i) (scanStep rangeHigh rangeLow candles st i).
Proof.
  intros Hi Hinv. unfold scanStep.
  destruct (candles !! i) as [c|] eqn:Hc;
    [|apply lookup_ge_None in Hc; lia].
  destruct (hasOpenPosition st) eqn:Hopen; [|by apply detect_invariant].
  destruct Hinv as [Hgood Hwait].
  assert (Hwait' : ∀ first, firstBreakout st = Some first → waiting candles (S i) first).
  { intros f Hf. destruct (Hwait f Hf) as (? & ? & ?). repeat split; try done. lia. }
  destruct (last (validBreakoutReentryPairs st)) as [lastSignal|] eqn:Hlast.
  - assert (Hlastgood : good lastSignal).
    { apply last_Some in Hlast as [front Hfront]. rewrite Hfront in Hgood.
      apply Forall_app in Hgood as [_ Hl]. by inversion Hl. }
    destruct (bool_decide (result lastSignal = pending)).
    + pose proof (closePosition_good lastSignal c Hlastgood) as Hclosed.
      destruct (closePosition lastSignal c) as [positionClosed updated].
      simpl in Hclosed.
      assert (Hgood' : Forall good
                (<[length (validBreakoutReentryPairs st) - 1 := updated]>
                   (validBreakoutReentryPairs st))) by by apply Forall_insert.
      destruct positionClosed.
      * apply detect_invariant; [done|]. by split.
      * by split.
    + apply detect_invariant; [done|]. by split.
  - apply detect_invariant; [done|]. by split.
Qed.

Lemma scanFrom_invariant n st :
  n ≤ length candles →
  scanInvariant 0 st →
  scanInvariant n (scanFrom rangeHigh rangeLow candles st (seq 0 n)).
Proof.
  intros Hn H0. induction n as [|n IH]; [done|].
  rewrite seq_S. unfold scanFrom. rewrite foldl_app. simpl.
  apply scanStep_invariant; [lia|]. apply IH. lia.
Qed.

Lemma scanDay_good :
  Forall good (validBreakoutReentryPairs (scanDay rangeHigh rangeLow candles)).
Proof.
  unfold scanDay. eapply proj1, scanFrom_invariant; [done|].
  split; simpl; [constructor | done].
Qed.
End ScanInvariant.

Section SignalRules.
Import Breakout.

Lemma lowest_fold (l : list Candle) (m0 : Q) :
  let lowest :=
    foldl (λ lowestPrice c, if Qltb (low c) lowestPrice then low c else lowestPrice) m0 l in
  (lowest = m0 ∨ ∃ c, c ∈ l ∧ low c = lowest)
  ∧ (lowest <= m0)%Q ∧ ∀ c, c ∈ l → (lowest <= low c)%Q.
Proof.
  revert m0. induction l as [|c l IH]; intros m0; simpl.
  - split; [by left|]. split; [lra|]. intros c Hc. by apply not_elem_of_nil in Hc.
  - set (m1 := if Qltb (low c) m0 then low c else m0).
    assert (Hm1 : (m1 <= m0)%Q ∧ (m1 <= low c)%Q ∧ (m1 = m0 ∨ m1 = low c)).
    { subst m1. destruct (Qltb (low c) m0) eqn:E.
      - apply Qltb_true in E. repeat split; [lra|lra|by right].
      - apply Qltb_false in E. repeat split; [lra|lra|by left]. }
    destruct Hm1 as (Hle0 & Hlec & Hcase).
    destruct (IH m1) as (Hwho & Hle & Hall). fold m1.
    split; [|split].
    + destruct Hwho as [->|(c' & Hc' & <-)].
      * destruct Hcase as [->| ->]; [by left|]. right. exists c. split; [|done].
        apply list_elem_of_here.
      * right. exists c'. split; [|done]. by apply list_elem_of_further.
    + lra.
    + intros c' [->|Hc']%elem_of_cons; [lra|]. by apply Hall.
Qed.

Lemma highest_fold (l : list Candle) (m0 : Q) :
  let highest :=
    foldl (λ highestPrice c, if Qgtb (high c) highestPrice then high c else highestPrice)
          m0 l in
  (highest = m0 ∨ ∃ c, c ∈ l ∧ high c = highest)
  ∧ (m0 <= highest)%Q ∧ ∀ c, c ∈ l → (high c <= highest)%Q.
Proof.
  revert m0. induction l as [|c l IH]; intros m0; simpl.
  - split; [by left|]. split; [lra|]. intros c Hc. by apply not_elem_of_nil in Hc.
  - set (m1 := if Qgtb (high c) m0 then high c else m0).
    assert (Hm1 : (m0 <= m1)%Q ∧ (high c <= m1)%Q ∧ (m1 = m0 ∨ m1 = high c)).
    { subst m1. destruct (Qgtb (high c) m0) eqn:E.
      - apply Qgtb_true in E. repeat split; [lra|lra|by right].
      - apply Qgtb_false in E. repeat split; [lra|lra|by left]. }
    destruct Hm1 as (Hle0 & Hlec & Hcase).
    destruct (IH m1) as (Hwho & Hle & Hall). fold m1.
    split; [|split].
    + destruct Hwho as [->|(c' & Hc' & <-)].
      * destruct Hcase as [->| ->]; [by left|]. right. exists c. split; [|done].
        apply list_elem_of_here.
      * right. exists c'. split; [|done]. by apply list_elem_of_further.
    + lra.
    + intros c' [->|Hc']%elem_of_cons; [lra|]. by apply Hall.
Qed.

Lemma lowestOf_isLowest (window : list Candle) :
  window ≠ [] → isLowest (lowestOf window) window.
Proof.
  destruct window as [|c0 rest]; [done|]. intros _. unfold lowestOf, isLowest.
  destruct (lowest_fold (c0 :: rest) (low c0)) as (Hwho & _ & Hall).
  split; [|done].
  destruct Hwho as [Heq|(c & Hc & Heq)].
  - exists c0. split; [apply list_elem_of_here|]. by rewrite Heq.
  - exists c. split; [done|]. by rewrite Heq.
Qed.

Lemma highestOf_isHighest (window : list Candle) :
  window ≠ [] → isHighest (highestOf window) window.
Proof.
  destruct window as [|c0 rest]; [done|]. intros _. unfold highestOf, isHighest.
  destruct (highest_fold (c0 :: rest) (high c0)) as (Hwho & _ & Hall).
  split; [|done].
  destruct Hwho as [Heq|(c & Hc & Heq)].
  - exists c0. split; [apply list_elem_of_here|]. by rewrite Heq.
  - exists c. split; [done|]. by rewrite Heq.
Qed.

Lemma slice_nonempty (candles : list Candle) b r x :
  candles !! b = Some x → b ≤ r → slice b (r + 1) candles ≠ [].
Proof.
  intros Hb Hbr. unfold slice. rewrite (drop_S _ _ _ Hb).
  replace (r + 1 - b) with (S (r - b)) by lia. done.
Qed.

Variables rangeHigh rangeLow : Q.
Variable candles : list Candle.

Lemma newSignalAt_createdAt first i candle :
  candles !! i = Some candle → waiting candles i first →
  createdAt candles (firstBreakoutIndex first) i
    (newSignalAt rangeHigh rangeLow candles first i candle).
Proof.
  intros Hc (Hlt & Hb & Hprice). unfold createdAt, newSignalAt.
  destruct (bool_decide _); destruct (Qgtb _ _); simpl; done.
Qed.

Lemma newSignalAt_risk first i candle :
  candles !! i = Some candle → waiting candles i first →
  riskRule candles (newSignalAt rangeHigh rangeLow candles first i candle).
Proof.
  intros Hc Hwait.
  pose proof (newSignalAt_createdAt first i candle Hc Hwait) as Hcreated.
  destruct Hwait as (Hlt & Hb & Hprice).
  pose proof (slice_nonempty candles _ i _ Hb ltac:(lia)) as Hne.
  pose proof (lowestOf_isLowest _ Hne) as Hlow.
  pose proof (highestOf_isHighest _ Hne) as Hhigh.
  unfold riskRule. exists (firstBreakoutIndex first), i.
  revert Hcreated. unfold newSignalAt.
  set (window := slice (firstBreakoutIndex first) (i + 1) candles) in *.
  set (direction := reentryDirectionOf _ _ _ _ _ _).
  set (entry := close candle).
  destruct direction; simpl.
  - destruct (Qgtb (entry - lowestOf window) (entry * 0.01)) eqn:E; simpl; intros Hcreated.
    + apply Qgtb_true in E.
      exists (lowestOf window), (entry * 0.01)%Q.
      split; [done|]. split; [lra|]. split; [done|].
      split; [apply Qmin_is_r; lra|]. split; lra.
    + apply Qgtb_false in E.
      exists (lowestOf window), (entry - lowestOf window)%Q.
      split; [done|]. split; [lra|]. split; [done|].
      split; [apply Qmin_is_l; lra|]. split; lra.
  - destruct (Qgtb (highestOf window - entry) (entry * 0.01)) eqn:E; simpl; intros Hcreated.
    + apply Qgtb_true in E.
      exists (highestOf window), (entry * 0.01)%Q.
      split; [done|]. split; [lra|]. split; [done|].
      split; [apply Qmin_is_r; lra|]. split; lra.
    + apply Qgtb_false in E.
      exists (highestOf window), (highestOf window - entry)%Q.
      split; [done|]. split; [lra|]. split; [done|].
      split; [apply Qmin_is_l; lra|]. split; lra.
Qed.
End SignalRules.

Section DirectionRule.
Import Breakout.
Variables rangeHigh rangeLow : Q.
Variable candles : list Candle.

Lemma newSignalAt_fields first i candle :
  let s := newSignalAt rangeHigh rangeLow candles first i candle in
  breakoutDirection s
  = reentryDirectionOf rangeHigh rangeLow candle
      (if 0 <? i then candles !! (i - 1) else None)
      (firstBreakoutPrice first) (firstBreakoutDirection first)
  ∧ reentryCandle s = candle
  ∧ breakoutPrice s = firstBreakoutPrice first.
Proof.
  unfold newSignalAt. destruct (bool_decide _); destruct (Qgtb _ _); simpl; done.
Qed.

Lemma newSignalAt_direction first i candle :
  candles !! i = Some candle → waiting candles i first →
  directionRule rangeHigh rangeLow candles
    (newSignalAt rangeHigh rangeLow candles first i candle).
Proof.
  intros Hc Hwait.
  pose proof (newSignalAt_createdAt rangeHigh rangeLow candles first i candle Hc Hwait)
    as Hcreated.
  destruct Hwait as (Hlt & Hb & Hprice).
  destruct (candles !! (i - 1)) as [prevCandle|] eqn:Hprev.
  2: { apply lookup_ge_None in Hprev. apply lookup_lt_Some in Hc. lia. }
  unfold directionRule. exists (firstBreakoutIndex first), i, prevCandle.
  split; [done|]. split; [done|].
  destruct (newSignalAt_fields first i candle) as (-> & -> & ->).
  assert (Hpos : (0 <? i) = true) by (apply Nat.ltb_lt; lia).
  rewrite Hpos, Hprev. unfold reentryDirectionOf, belowRange, aboveRange. cbv zeta.
  destruct (Qltb (low candle) rangeLow) eqn:E1.
  { apply Qltb_true in E1. intuition done. }
  apply Qltb_false in E1.
  destruct (Qgtb (high candle) rangeHigh) eqn:E2.
  { apply Qgtb_true in E2. intuition (try done; lra). }
  apply Qgtb_false in E2.
  destruct (Qltb (close prevCandle) rangeLow || Qltb (low prevCandle) rangeLow) eqn:E3.
  { apply orb_true_iff in E3. rewrite !Qltb_true in E3. intuition (try done; lra). }
  apply orb_false_iff in E3. rewrite !Qltb_false in E3.
  destruct (Qgtb (close prevCandle) rangeHigh || Qgtb (high prevCandle) rangeHigh) eqn:E4.
  { apply orb_true_iff in E4. rewrite !Qgtb_true in E4. intuition (try done; lra). }
  apply orb_false_iff in E4. rewrite !Qgtb_false in E4.
  destruct (Qgtb (firstBreakoutPrice first) rangeHigh) eqn:E5.
  { apply Qgtb_true in E5. intuition (try done; lra). }
  apply Qgtb_false in E5.
  destruct (Qltb (firstBreakoutPrice first) rangeLow) eqn:E6.
  { apply Qltb_true in E6. intuition (try done; lra). }
  apply Qltb_false in E6. intuition (try done; lra).
Qed.
End DirectionRule.

Lemma riskRule_setResult candles res s :
  Breakout.riskRule candles s → Breakout.riskRule candles (Breakout.setResult res s).
Proof. by destruct s. Qed.

Lemma directionRule_setResult rangeHigh rangeLow candles res s :
  Breakout.directionRule rangeHigh rangeLow candles s →
  Breakout.directionRule rangeHigh rangeLow candles (Breakout.setResult res s).
Proof. by destruct s. Qed.

Section Order.
Local Open Scope Z_scope.

Ltac compare_cases :=
  repeat match goal with
         | |- context [(?x ?= ?y)%Z] => destruct (Z.compare_spec x y)
         end.

Lemma SFcompare_refl (x : spec_float) : SFcompare x x ≠ Some Lt.
Proof.
  destruct x as [s|s| |s m e]; cbn [SFcompare]; [done|by destruct s|done|].
  rewrite compare_cont_spec, !Z.compare_refl. by destruct s.
Qed.

Lemma SFcompare_trans (x y z : spec_float) :
  SFcompare x y = Some Lt → SFcompare y z = Some Lt → SFcompare x z = Some Lt.
Proof.
  destruct x as [sx|sx| |sx mx ex], y as [sy|sy| |sy my ey], z as [sz|sz| |sz mz ez];
    cbn [SFcompare]; try done;
    try destruct sx; try destruct sy; try destruct sz; try done;
    rewrite ?compare_cont_spec; compare_cases; cbn [CompOpp]; try done; lia.
Qed.

Lemma SFcompare_swap (x y : spec_float) :
  x ≠ S754_nan → y ≠ S754_nan → SFcompare y x ≠ Some Lt →
  SFcompare x y = Some Lt ∨ SFcompare x y = Some Eq.
Proof.
  destruct x as [sx|sx| |sx mx ex], y as [sy|sy| |sy my ey];
    cbn [SFcompare]; try done; intros _ _;
    try destruct sx; try destruct sy; try done; try (by left); try (by right);
    rewrite ?compare_cont_spec; compare_cases; cbn [CompOpp]; try done;
    try (by left); try (by right); lia.
Qed.
End Order.

Section FloatOrder.
Local Open Scope float_scope.

Lemma ltb_irrefl (x : float) : (x <? x) = false.
Proof.
  rewrite FloatAxioms.ltb_spec. unfold SFltb.
  pose proof (SFcompare_refl (Prim2SF x)).
  by destruct (SFcompare (Prim2SF x) (Prim2SF x)) as [[]|].
Qed.

Lemma ltb_trans (x y z : float) : (x <? y) = true → (y <? z) = true → (x <? z) = true.
Proof.
  rewrite !FloatAxioms.ltb_spec. unfold SFltb. intros Hxy Hyz.
  rewrite (SFcompare_trans (Prim2SF x) (Prim2SF y) (Prim2SF z)); [done| |].
  - by destruct (SFcompare (Prim2SF x) (Prim2SF y)) as [[]|].
  - by destruct (SFcompare (Prim2SF y) (Prim2SF z)) as [[]|].
Qed.

(** Of two numbers, neither of them [NaN], the one that is not above the
    other is at most the other. *)
Lemma leb_of_not_ltb (x y : float) :
  is_nan x = false → is_nan y = false → (y <? x) = false → (x <=? y) = true.
Proof.
  intros Hx Hy. rewrite FloatAxioms.ltb_spec, FloatAxioms.leb_spec.
  unfold SFltb, SFleb. intros Hlt.
  destruct (SFcompare_swap (Prim2SF x) (Prim2SF y)) as [-> | ->]; [| | |done..].
  - intros Hnan%is_nan_spec. congruence.
  - intros Hnan%is_nan_spec. congruence.
  - by destruct (SFcompare (Prim2SF y) (Prim2SF x)) as [[]|].
Qed.

Lemma smaller_le (a b : float) :
  is_nan a = false → is_nan b = false → (Breakout64.smaller a b <=? b) = true.
Proof.
  intros Ha Hb. unfold Breakout64.smaller, Binary64.gtb. destruct (b <? a) eqn:E.
  - apply leb_of_not_ltb; [done | done | apply ltb_irrefl].
  - by apply leb_of_not_ltb.
Qed.
End FloatOrder.

(** ** BreakoutDetector: the signals of one day, over binary64 numbers *)

Section ScanInvariant64.
Import Breakout Breakout64.
Variables rangeHigh rangeLow : float.
Variable candles : list Breakout64.Candle.

(** A property of signals that does not depend on [result] and holds of
    every signal at its creation. *)
Variable good : Breakout64.Pair → Prop.
Hypothesis good_setResult : ∀ res s, good s → good (Breakout64.setResult res s).
Hypothesis good_new :
  ∀ first i candle,
    candles !! i = Some candle → Breakout64.waiting candles i first →
    good (Breakout64.newSignalAt rangeHigh rangeLow candles first i candle).

Local Abbreviation invariant := (Breakout64.scanInvariant candles good).

Lemma closePosition64_good s c : good s → good (Breakout64.closePosition s c).2.
Proof.
  intros Hs. unfold Breakout64.closePosition.
  repeat (destruct (_ && _); simpl; auto).
Qed.

Lemma detect64_invariant st i c :
  candles !! i = Some c →
  invariant i st → invariant (S i) (Breakout64.detect rangeHigh rangeLow candles st i c).
Proof.
  intros Hc [Hgood Hwait]. unfold Breakout64.detect.
  destruct (Breakout64.firstBreakout st) as [first|] eqn:Hfirst.
  - specialize (Hwait first eq_refl).
    assert (Hkeep : invariant (S i) st).
    { split; [done|]. intros f Hf. rewrite Hfirst in Hf. injection Hf as <-.
      destruct Hwait as (? & ? & ?). repeat split; try done. lia. }
    destruct (_ || _); [done|]. destruct (_ && _); [|done].
    split; simpl; [|done].
    apply Forall_app. split; [done|]. repeat constructor. by apply good_new.
  - destruct (_ || _).
    + split; simpl; [done|]. intros f [= <-]. repeat split; simpl; try done; lia.
    + split; [done|]. intros f Hf. by rewrite Hfirst in Hf.
Qed.

Lemma scanStep64_invariant st i :
  i < length candles →
  invariant i st → invariant (S i) (Breakout64.scanStep rangeHigh rangeLow candles st i).
Proof.
  intros Hi Hinv. unfold Breakout64.scanStep.
  destruct (candles !! i) as [c|] eqn:Hc;
    [|apply lookup_ge_None in Hc; lia].
  destruct (Breakout64.hasOpenPosition st) eqn:Hopen; [|by apply detect64_invariant].
  destruct Hinv as [Hgood Hwait].
  assert (Hwait' : ∀ first, Breakout64.firstBreakout st = Some first →
                            Breakout64.waiting candles (S i) first).
  { intros f Hf. destruct (Hwait f Hf) as (? & ? & ?). repeat split; try done. lia. }
  destruct (last (Breakout64.validBreakoutReentryPairs st)) as [lastSignal|] eqn:Hlast.
  - assert (Hlastgood : good lastSignal).
    { apply last_Some in Hlast as [front Hfront]. rewrite Hfront in Hgood.
      apply Forall_app in Hgood as [_ Hl]. by inversion Hl. }
    destruct (bool_decide (Breakout64.result lastSignal = pending)).
    + pose proof (closePosition64_good lastSignal c Hlastgood) as Hclosed.
      destruct (Breakout64.closePosition lastSignal c) as [positionClosed updated].
      simpl in Hclosed.
      assert (Hgood' : Forall good
                (<[length (Breakout64.validBreakoutReentryPairs st) - 1 := updated]>
                   (Breakout64.validBreakoutReentryPairs st))) by by apply Forall_insert.
      destruct positionClosed.
      * apply detect64_invariant; [done|]. by split.
      * by split.
    + apply detect64_invariant; [done|]. by split.
  - apply detect64_invariant; [done|]. by split.
Qed.

Lemma scanFrom64_invariant n st :
  n ≤ length candles →
  invariant 0 st →
  invariant n (Breakout64.scanFrom rangeHigh rangeLow candles st (seq 0 n)).
Proof.
  intros Hn H0. induction n as [|n IH]; [done|].
  rewrite seq_S. unfold Breakout64.scanFrom. rewrite foldl_app. simpl.
  apply scanStep64_invariant; [lia|]. apply IH. lia.
Qed.

Lemma scanDay64_good :
  Forall good
    (Breakout64.validBreakoutReentryPairs (Breakout64.scanDay rangeHigh rangeLow candles)).
Proof.
  unfold Breakout64.scanDay. eapply proj1, scanFrom64_invariant; [done|].
  split; simpl; [constructor | done].
Qed.
End ScanInvariant64.

Section SignalRules64.
Import Breakout Breakout64.
Local Open Scope float_scope.

Lemma lowest64_fold (l : list Breakout64.Candle) (m0 : float) :
  let lowest :=
    foldl (λ lowestPrice c,
             if Breakout64.low c <? lowestPrice then Breakout64.low c else lowestPrice)
          m0 l in
  (lowest = m0 ∨ ∃ c, c ∈ l ∧ Breakout64.low c = lowest)
  ∧ (∀ x, (x <? m0) = false → (x <? lowest) = false)
  ∧ ∀ c, c ∈ l → (Breakout64.low c <? lowest) = false.
Proof.
  revert m0. induction l as [|c l IH]; intros m0; cbn [foldl].
  - split; [by left|]. split; [done|]. intros c Hc. by apply not_elem_of_nil in Hc.
  - set (m1 := if Breakout64.low c <? m0 then Breakout64.low c else m0).
    destruct (IH m1) as (Hwho & Hbelow & Hall). fold m1.
    assert (Hm1 : (m1 = m0 ∨ m1 = Breakout64.low c)
                  ∧ (Breakout64.low c <? m1) = false
                  ∧ ∀ x, (x <? m0) = false → (x <? m1) = false).
    { subst m1. destruct (Breakout64.low c <? m0) eqn:E.
      - split; [by right|]. split; [apply ltb_irrefl|].
        intros x Hx. destruct (x <? Breakout64.low c) eqn:Hxc; [|done].
        by rewrite (ltb_trans _ _ _ Hxc E) in Hx.
      - split; [by left|]. by split. }
    destruct Hm1 as (Hcase & Hc & Hmono).
    split; [|split].
    + destruct Hwho as [->|(c' & Hc' & <-)].
      * destruct Hcase as [->| ->]; [by left|]. right. exists c. split; [|done].
        apply list_elem_of_here.
      * right. exists c'. split; [|done]. by apply list_elem_of_further.
    + intros x Hx. apply Hbelow. by apply Hmono.
    + intros c' [->|Hc']%elem_of_cons; [|by apply Hall]. by apply Hbelow.
Qed.

Lemma highest64_fold (l : list Breakout64.Candle) (m0 : float) :
  let highest :=
    foldl (λ highestPrice c,
             if Binary64.gtb (Breakout64.high c) highestPrice then Breakout64.high c
             else highestPrice)
          m0 l in
  (highest = m0 ∨ ∃ c, c ∈ l ∧ Breakout64.high c = highest)
  ∧ (∀ x, (m0 <? x) = false → (highest <? x) = false)
  ∧ ∀ c, c ∈ l → Binary64.gtb (Breakout64.high c) highest = false.
Proof.
  unfold Binary64.gtb. revert m0. induction l as [|c l IH]; intros m0; cbn [foldl].
  - split; [by left|]. split; [done|]. intros c Hc. by apply not_elem_of_nil in Hc.
  - set (m1 := if m0 <? Breakout64.high c then Breakout64.high c else m0).
    destruct (IH m1) as (Hwho & Habove & Hall). fold m1.
    assert (Hm1 : (m1 = m0 ∨ m1 = Breakout64.high c)
                  ∧ (m1 <? Breakout64.high c) = false
                  ∧ ∀ x, (m0 <? x) = false → (m1 <? x) = false).
    { subst m1. destruct (m0 <? Breakout64.high c) eqn:E.
      - split; [by right|]. split; [apply ltb_irrefl|].
        intros x Hx. destruct (Breakout64.high c <? x) eqn:Hxc; [|done].
        by rewrite (ltb_trans _ _ _ E Hxc) in Hx.
      - split; [by left|]. by split. }
    destruct Hm1 as (Hcase & Hc & Hmono).
    split; [|split].
    + destruct Hwho as [->|(c' & Hc' & <-)].
      * destruct Hcase as [->| ->]; [by left|]. right. exists c. split; [|done].
        apply list_elem_of_here.
      * right. exists c'. split; [|done]. by apply list_elem_of_further.
    + intros x Hx. apply Habove. by apply Hmono.
    + intros c' [->|Hc']%elem_of_cons; [|by apply Hall]. by apply Habove.
Qed.

Lemma lowestOf64_isLowest (window : list Breakout64.Candle) :
  window ≠ [] → Breakout64.isLowest (Breakout64.lowestOf window) window.
Proof.
  destruct window as [|c0 rest]; [done|]. intros _.
  unfold Breakout64.lowestOf, Breakout64.isLowest.
  destruct (lowest64_fold (c0 :: rest) (Breakout64.low c0)) as (Hwho & _ & Hall).
  split; [|done].
  destruct Hwho as [Heq|(c & Hc & Heq)].
  - exists c0. split; [apply list_elem_of_here | done].
  - by exists c.
Qed.

Lemma highestOf64_isHighest (window : list Breakout64.Candle) :
  window ≠ [] → Breakout64.isHighest (Breakout64.highestOf window) window.
Proof.
  destruct window as [|c0 rest]; [done|]. intros _.
  unfold Breakout64.highestOf, Breakout64.isHighest.
  destruct (highest64_fold (c0 :: rest) (Breakout64.high c0)) as (Hwho & _ & Hall).
  split; [|done].
  destruct Hwho as [Heq|(c & Hc & Heq)].
  - exists c0. split; [apply list_elem_of_here | done].
  - by exists c.
Qed.

Lemma slice_holds {A : Type} (l : list A) (b r : nat) (x : A) :
  l !! b = Some x → b ≤ r → slice b (r + 1) l ≠ [].
Proof.
  intros Hb Hbr. unfold slice. rewrite (drop_S _ _ _ Hb).
  replace (r + 1 - b)%nat with (S (r - b)) by lia. done.
Qed.

Variables rangeHigh rangeLow : float.
Variable candles : list Breakout64.Candle.

Lemma newSignalAt64_createdAt first i candle :
  candles !! i = Some candle → Breakout64.waiting candles i first →
  Breakout64.createdAt candles (Breakout64.firstBreakoutIndex first) i
    (Breakout64.newSignalAt rangeHigh rangeLow candles first i candle).
Proof.
  intros Hc (Hlt & Hb & Hprice). unfold Breakout64.createdAt, Breakout64.newSignalAt.
  destruct (bool_decide _); destruct (Binary64.gtb _ _); simpl; done.
Qed.

Lemma newSignalAt64_risk first i candle :
  candles !! i = Some candle → Breakout64.waiting candles i first →
  Breakout64.riskRule candles
    (Breakout64.newSignalAt rangeHigh rangeLow candles first i candle).
Proof.
  intros Hc Hwait.
  pose proof (newSignalAt64_createdAt first i candle Hc Hwait) as Hcreated.
  destruct Hwait as (Hlt & Hb & Hprice).
  pose proof (slice_holds candles _ i _ Hb ltac:(lia)) as Hne.
  pose proof (lowestOf64_isLowest _ Hne) as Hlow.
  pose proof (highestOf64_isHighest _ Hne) as Hhigh.
  unfold Breakout64.riskRule. exists (Breakout64.firstBreakoutIndex first), i.
  unfold Breakout64.newSignalAt in *.
  set (window := slice (Breakout64.firstBreakoutIndex first) (i + 1) candles) in *.
  set (direction := Breakout64.reentryDirectionOf _ _ _ _ _ _) in *.
  set (entry := Breakout64.close candle) in *.
  destruct direction; simpl in *.
  - exists (Breakout64.lowestOf window). split; [exact Hcreated|].
    split; [apply smaller_le|]. unfold Breakout64.smaller.
    destruct (Binary64.gtb _ _) eqn:E; simpl; by rewrite ?E.
  - exists (Breakout64.highestOf window). split; [exact Hcreated|].
    split; [apply smaller_le|]. unfold Breakout64.smaller.
    destruct (Binary64.gtb _ _) eqn:E; simpl; by rewrite ?E.
Qed.
End SignalRules64.

Lemma riskRule64_setResult candles res s :
  Breakout64.riskRule candles s → Breakout64.riskRule candles (Breakout64.setResult res s).
Proof. by destruct s. Qed.

(** C2. Every signal created by the scan of a day has its stop-loss and
    its take-profit computed from the entry price, operation by operation in
    binary64: the risk is the smaller of the distance from the entry to the
    most adverse price of the candles from the breakout candle to the
    re-entry candle (lowest low for long, highest high for short) and of
    [entryPrice * 0.01]; the stop-loss is that most adverse price when the
    risk is not capped, and the entry less (long) or plus (short) the risk
    when it is; the take-profit is the entry plus (long) or less (short) the
    risk times 2. *)
Theorem signal_risk_rule
    (rangeHigh rangeLow : float) (candlesAfterRange : list Breakout64.Candle)
    (s : Breakout64.Pair) :
  s ∈ Breakout64.signalsOfDay rangeHigh rangeLow candlesAfterRange →
  Breakout64.riskRule candlesAfterRange s.
Proof.
  unfold Breakout64.signalsOfDay. rewrite sortWith_perm.
  revert s. apply Forall_forall.
  apply (scanDay64_good rangeHigh rangeLow candlesAfterRange
           (Breakout64.riskRule candlesAfterRange)).
  - intros res s. apply riskRule64_setResult.
  - intros first i candle. apply newSignalAt64_risk.
Qed.

Lemma signal_risk_rule_witness :
  ∃ s, Breakout64.signalsOfDay 100 95 Breakout64.shallow = [s]
    ∧ Breakout64.riskRule Breakout64.shallow s
    ∧ Breakout64.entryPrice s = 95.5%float
    ∧ Breakout64.stopLoss s = 94.75%float
    ∧ Breakout64.takeProfit s = 97%float.
Proof.
  eexists. split; [vm_compute; reflexivity|]. split.
  - apply (signal_risk_rule 100 95 Breakout64.shallow).
    vm_compute. apply list_elem_of_here.
  - split_and!; reflexivity.
Defined.

(** In scenario B the entry is 98 and the risk is capped: the stop that
    is stored, 98.980000000000004, lies more than [0.01 * entryPrice] above
    the entry, and the target, 96.040000000000006, is not the entry less
    twice that distance. *)
Lemma signal_risk_rule_rounds :
  ∃ s, Breakout64.signalsOfDay 100 95 Breakout64.scenarioB = [s]
    ∧ Breakout64.breakoutDirection s = Breakout.short
    ∧ Breakout64.entryPrice s = 98%float
    ∧ Breakout64.withinCap s = false
    ∧ Breakout64.targetAtTwice s = false.
Proof. eexists. split; [vm_compute; reflexivity|]. split_and!; by vm_compute. Qed.

(** C4. The direction recorded in every signal comes from the side of the
    re-entry: long when the low of the re-entry candle is below the range,
    else short when its high is above the range, else the side of the candle
    before it (below: long, above: short); the side of the breakout price
    decides only when none of these does. *)
Theorem signal_direction_rule
    (rangeHigh rangeLow : Q) (candlesAfterRange : list Candle) (s : Breakout.Pair) :
  s ∈ Breakout.signalsOfDay rangeHigh rangeLow candlesAfterRange →
  Breakout.directionRule rangeHigh rangeLow candlesAfterRange s.
Proof.
  unfold Breakout.signalsOfDay. rewrite sortWith_perm.
  revert s. apply Forall_forall.
  apply (scanDay_good rangeHigh rangeLow candlesAfterRange
           (Breakout.directionRule rangeHigh rangeLow candlesAfterRange)).
  - intros res s. apply directionRule_setResult.
  - intros first i candle. apply newSignalAt_direction.
Qed.

Lemma signal_direction_rule_witness :
  ∃ s, Breakout.signalsOfDay 100 95 Breakout.scenarioB = [s]
    ∧ Breakout.directionRule 100 95 Breakout.scenarioB s
    ∧ Breakout.breakoutDirection s = Breakout.short.
Proof.
  eexists. split; [vm_compute; reflexivity|]. split.
  - apply (signal_direction_rule 100 95 Breakout.scenarioB).
    vm_compute. apply list_elem_of_here.
  - reflexivity.
Defined.

(** ** Arrays: the loop that removes duplicates *)

Section UniqueFacts.
Context {A : Type} (keyOf : A → string).

Lemma uniqueFrom_elem seen l x :
  x ∈ uniqueFrom keyOf seen l → x ∈ l ∧ keyOf x ∉ seen.
Proof.
  revert seen. induction l as [|y l IH]; intros seen; simpl.
  - by intros ?%not_elem_of_nil.
  - destruct (decide (keyOf y ∈ seen)) as [Hin|Hout].
    + intros [??]%IH. split; [by apply list_elem_of_further | done].
    + intros [->|[? H0]%IH]%elem_of_cons.
      * split; [apply list_elem_of_here | done].
      * split; [by apply list_elem_of_further|].
        intros Hseen. apply H0. by apply elem_of_union_r.
Qed.

Lemma uniqueFrom_fresh seen l x :
  x ∈ uniqueFrom keyOf ({[keyOf x]} ∪ seen) l → False.
Proof. intros [_ Hx]%uniqueFrom_elem. set_solver. Qed.

Lemma uniqueFrom_NoDup seen l : NoDup (keyOf <$> uniqueFrom keyOf seen l).
Proof.
  revert seen. induction l as [|y l IH]; intros seen; simpl; [constructor|].
  destruct (decide (keyOf y ∈ seen)); [apply IH|].
  rewrite fmap_cons. apply NoDup_cons. split; [|apply IH].
  intros (z & Hkey & [_ Hz]%uniqueFrom_elem)%list_elem_of_fmap. set_solver.
Qed.

Lemma uniqueFrom_Forall (P : A → Prop) seen l :
  Forall P l → Forall P (uniqueFrom keyOf seen l).
Proof.
  rewrite !Forall_forall. intros Hl x [Hx _]%uniqueFrom_elem. by apply Hl.
Qed.

Lemma uniqueFrom_sorted (R : A → A → Prop) seen l :
  StronglySorted R l → StronglySorted R (uniqueFrom keyOf seen l).
Proof.
  intros Hl. revert seen. induction Hl as [|y l Hl IH Hy]; intros seen; simpl.
  - constructor.
  - destruct (decide (keyOf y ∈ seen)); [apply IH|].
    constructor; [apply IH|]. by apply uniqueFrom_Forall.
Qed.

(** Every key of the input is seen before or kept. *)
Lemma uniqueFrom_keys seen l x :
  x ∈ l → keyOf x ∈ seen ∨ keyOf x ∈ keyOf <$> uniqueFrom keyOf seen l.
Proof.
  revert seen. induction l as [|y l IH]; intros seen; [by intros ?%not_elem_of_nil|].
  simpl. intros [->|Hx]%elem_of_cons.
  - destruct (decide (keyOf y ∈ seen)); [by left|].
    right. rewrite fmap_cons. apply list_elem_of_here.
  - destruct (decide (keyOf y ∈ seen)); [by apply IH|].
    destruct (IH ({[keyOf y]} ∪ seen) Hx) as [Hseen|Hkept].
    + apply elem_of_union in Hseen as [->%elem_of_singleton|?]; [|by left].
      right. rewrite fmap_cons. apply list_elem_of_here.
    + right. rewrite fmap_cons. by apply list_elem_of_further.
Qed.

Lemma uniqueFrom_all_seen seen l :
  (∀ x, x ∈ l → keyOf x ∈ seen) → uniqueFrom keyOf seen l = [].
Proof.
  induction l as [|y l IH]; intros Hl; simpl; [done|].
  rewrite decide_True by (apply Hl, list_elem_of_here).
  apply IH. intros x Hx. by apply Hl, list_elem_of_further.
Qed.

(** Elements whose key is already seen may be dropped beforehand. *)
Lemma uniqueFrom_filter seen seen' l :
  seen ⊆ seen' →
  uniqueFrom keyOf seen' (filter (λ x, keyOf x ∉ seen) l) = uniqueFrom keyOf seen' l.
Proof.
  revert seen seen'. induction l as [|y l IH]; intros seen seen' Hsub; [done|].
  rewrite filter_cons. destruct (decide (keyOf y ∉ seen)) as [Hout|Hin]; simpl.
  - destruct (decide (keyOf y ∈ seen')); [by apply IH|].
    f_equal. apply IH. set_solver.
  - assert (keyOf y ∈ seen) by (by destruct (decide (keyOf y ∈ seen))).
    rewrite decide_True by set_solver. by apply IH.
Qed.
End UniqueFacts.

(** ** OversoldExtractor *)

Lemma StronglySorted_mono {A : Type} (R1 R2 : A → A → Prop) (l : list A) :
  (∀ a b, R1 a b → R2 a b) → StronglySorted R1 l → StronglySorted R2 l.
Proof.
  intros HR. induction 1 as [|x l _ IH Hx]; constructor; [done|].
  eapply Forall_impl; [exact Hx|]. apply HR.
Qed.

Lemma byTimestampDesc_rank (x y : Event.t) :
  (Oversold.byTimestampDesc x y <= 0)%Z ↔ (- Event.timestamp x <= - Event.timestamp y)%Z.
Proof. unfold Oversold.byTimestampDesc. lia. Qed.

Lemma sortUnique_valid (rsiThreshold : Q) (mergedEvents : list Event.t) :
  Forall (λ e, Event.rsi e <= rsiThreshold)%Q mergedEvents →
  Oversold.valid rsiThreshold (Oversold.sortUnique mergedEvents).
Proof.
  intros Hall. unfold Oversold.valid, Oversold.sortUnique. split; [|split].
  - apply uniqueFrom_Forall.
    eapply Permutation_Forall; [symmetry; apply sortWith_perm | done].
  - pose proof (uniqueFrom_NoDup Oversold.keyOf ∅
                  (sortWith Oversold.byTimestampDesc mergedEvents)) as Hkeys.
    change Oversold.keyOf
      with ((λ p : string * Z, p.1 +:+ "_" +:+ pretty p.2)
            ∘ (λ e, (Event.symbol e, Event.timestamp e))) in Hkeys at 1.
    rewrite list_fmap_compose in Hkeys. by apply NoDup_fmap_1 in Hkeys.
  - apply uniqueFrom_sorted.
    eapply StronglySorted_mono;
      [|apply (sortWith_ordered _ (λ e, - Event.timestamp e)%Z byTimestampDesc_rank)].
    simpl. lia.
Qed.

Section OversoldValid.
Variable numberToString : Q → string.

Lemma oversoldEventsOf_threshold net now days rsiThreshold lastTimestamp symbol :
  Forall (λ e, Event.rsi e <= rsiThreshold)%Q
    (Oversold.oversoldEventsOf net now days rsiThreshold lastTimestamp symbol).
Proof.
  unfold Oversold.oversoldEventsOf.
  destruct (Oversold.fetchHistoricalRSI _ _ _ _ _ _) as [historicalRSI|]; [|constructor].
  apply Forall_fmap, Forall_forall. intros item [Hle _]%list_elem_of_filter. simpl.
  apply Qle_bool_iff. by apply Is_true_true.
Qed.

Lemma allEvents_threshold net now days rsiThreshold lastTimestamp symbols :
  Forall (λ e, Event.rsi e <= rsiThreshold)%Q
    (mjoin (Oversold.oversoldEventsOf net now days rsiThreshold lastTimestamp <$> symbols)).
Proof.
  apply Forall_forall. intros e (events & He & Hevents)%list_elem_of_join.
  apply list_elem_of_fmap in Hevents as (symbol & -> & _).
  pose proof (oversoldEventsOf_threshold net now days rsiThreshold lastTimestamp symbol)
    as Hall.
  rewrite Forall_forall in Hall. by apply Hall.
Qed.

Lemma get_cacheValid key rsiThreshold (store : gmap string (Cache.Entry (list Event.t))) now :
  Oversold.cacheValid key rsiThreshold store →
  Oversold.cacheValid key rsiThreshold (Cache.get store now key).2
  ∧ ∀ data cachedAt, (Cache.get store now key).1 = Some (data, cachedAt) →
                     Oversold.valid rsiThreshold data.
Proof.
  intros Hstore. unfold Cache.get.
  destruct (store !! (Cache.CACHE_PREFIX +:+ key)) as [cached|] eqn:Hget; simpl.
  - destruct (negb _ && _)%Z; simpl.
    + split; [|done]. intros c Hc. by rewrite lookup_delete_eq in Hc.
    + split; [done|]. intros data cachedAt [= <- <-]. by apply Hstore.
  - done.
Qed.

(** One call: from a valid cache, a valid array and a valid cache. *)
Lemma fetchOversoldHistory_valid net now store symbols days rsiThreshold forceRefresh :
  let key := Oversold.cacheKey numberToString symbols days rsiThreshold in
  let out := Oversold.fetchOversoldHistory numberToString net now store symbols days
               rsiThreshold forceRefresh in
  Oversold.cacheValid key rsiThreshold store →
  Oversold.valid rsiThreshold out.1 ∧ Oversold.cacheValid key rsiThreshold out.2.
Proof.
  intros key out Hstore. subst out. unfold Oversold.fetchOversoldHistory. fold key.
  destruct (get_cacheValid key rsiThreshold store now Hstore) as [Hstore1 Hdata].
  destruct (Cache.get store now key) as [cached store1]. simpl in Hstore1, Hdata.
  set (cachedData :=
         match cached with
         | Some (data, _) => if 0 <? length data then Some data else None
         | None => None
         end).
  assert (Hcached : ∀ data, cachedData = Some data → Oversold.valid rsiThreshold data).
  { intros data. subst cachedData. destruct cached as [[d t]|]; [|done].
    destruct (0 <? length d); [|done]. intros [= <-]. by eapply Hdata. }
  assert (Hset : ∀ events,
            Forall (λ e, Event.rsi e <= rsiThreshold)%Q events →
            Oversold.cacheValid key rsiThreshold
              (Cache.set store1 now key (Oversold.sortUnique events) (60 * 60 * 1000)%Z)).
  { intros events Hevents c. unfold Cache.set. rewrite lookup_insert_eq.
    intros [= <-]. by apply sortUnique_valid. }
  destruct cachedData as [data|] eqn:Hc; simpl.
  - pose proof (Hcached data eq_refl) as Hvalid. destruct (Hvalid) as [Hd _].
    destruct (negb forceRefresh && negb _); simpl; [done|].
    set (allEvents := mjoin _).
    assert (Hnew : Forall (λ e, Event.rsi e <= rsiThreshold)%Q allEvents)
      by apply allEvents_threshold.
    assert (Hboth : Forall (λ e, Event.rsi e <= rsiThreshold)%Q (data ++ allEvents))
      by by apply Forall_app.
    destruct (0 <? length allEvents), (negb forceRefresh); simpl;
      (split; [try done; by apply sortUnique_valid | by apply Hset]).
  - set (allEvents := mjoin _).
    assert (Hnew : Forall (λ e, Event.rsi e <= rsiThreshold)%Q allEvents)
      by apply allEvents_threshold.
    split; [by apply sortUnique_valid | by apply Hset].
Qed.

End OversoldValid.

(** C8. Starting from a cache that holds no array, or a valid one, under
    the key of the call, every array returned by successive calls of
    [fetchOversoldHistory] (whatever the exchange answers, whenever they are
    made, forced or not) contains only events with [rsi <= rsiThreshold],
    no two events with the same symbol and time stamp, and is sorted by time
    stamp in descending order. *)
Theorem fetchOversoldHistory_returns_valid
    (numberToString : Q → string) (symbols : list string) (days : Z)
    (rsiThreshold : Q) (calls : list Oversold.Call)
    (store : gmap string (Cache.Entry (list Event.t))) :
  Oversold.cacheValid (Oversold.cacheKey numberToString symbols days rsiThreshold)
    rsiThreshold store →
  Forall (Oversold.valid rsiThreshold)
    (Oversold.returned numberToString symbols days rsiThreshold calls store).
Proof.
  revert store. induction calls as [|call calls IH]; intros store Hstore; simpl;
    [constructor|].
  pose proof (fetchOversoldHistory_valid numberToString
                (Oversold.net call) (Oversold.now call) store
                symbols days rsiThreshold (Oversold.forceRefresh call) Hstore) as Hstep.
  simpl in Hstep.
  destruct (Oversold.fetchOversoldHistory _ _ _ _ _ _ _ _) as [events store'].
  destruct Hstep as [Hevents Hstore']. constructor; [done|]. by apply IH.
Qed.

Lemma fetchOversoldHistory_returns_valid_witness :
  Forall (Oversold.valid 30)
    (Oversold.returned Oversold.printFloor ["BTC/USDT"] 7 30 Oversold.sampleCalls ∅)
  ∧ length (Oversold.returned Oversold.printFloor ["BTC/USDT"] 7 30
              Oversold.sampleCalls ∅) = 2.
Proof.
  split; [|reflexivity].
  apply (fetchOversoldHistory_returns_valid Oversold.printFloor ["BTC/USDT"] 7 30
           Oversold.sampleCalls ∅).
  intros cached Hcached. rewrite lookup_empty in Hcached. discriminate.
Defined.

(** ** IncrementalCache: the merge *)

Lemma append_nil (s : string) : "" +:+ s = s.
Proof. reflexivity. Qed.

Lemma append_cons (c : Ascii.ascii) (s t : string) : String c s +:+ t = String c (s +:+ t).
Proof. reflexivity. Qed.

Ltac norm_append := repeat first [rewrite append_nil | rewrite append_cons].

Section KeyFacts.
Import Oversold.

Lemma without_append c s1 s2 : without c (s1 +:+ String c s2) → False.
Proof.
  induction s1 as [|c' s1 IH]; norm_append; simpl.
  - by intros [? _].
  - by intros [_ ?].
Qed.

(** A text is cut in one way only at its last underscore. *)
Lemma underscore_split (a b p q : string) :
  without "_"%char p → without "_"%char q →
  a +:+ "_" +:+ p = b +:+ "_" +:+ q → a = b ∧ p = q.
Proof.
  intros Hp Hq. revert b.
  induction a as [|c a IH]; intros [|c' b]; norm_append.
  - by intros [= ->].
  - intros [= <- Heq]. rewrite Heq in Hp. by destruct (without_append _ _ _ Hp).
  - intros [= -> Heq]. rewrite <- Heq in Hq. by destruct (without_append _ _ _ Hq).
  - intros [= -> [-> ->]%IH]. done.
Qed.

Lemma pretty_N_go_without (c : Ascii.ascii) (x : N) (s : string) :
  (∀ d : N, pretty_N_char d ≠ c) → without c s → without c (pretty_N_go x s).
Proof.
  intros Hc. revert s. induction (N.lt_wf_0 x) as [x _ IH]; intros s Hs.
  destruct (decide (0 < x)%N) as [Hpos|Hzero].
  - rewrite pretty_N_go_step by done. apply IH; [by apply N.div_lt|].
    simpl. split; [apply Hc | done].
  - assert (x = 0%N) as -> by lia. by rewrite pretty_N_go_0.
Qed.

Lemma digit_not_underscore (d : N) : pretty_N_char d ≠ "_"%char.
Proof. unfold pretty_N_char. by repeat case_match. Qed.

Lemma pretty_N_without (x : N) : without "_"%char (pretty x).
Proof.
  unfold pretty, pretty_N. case_decide; [simpl; by split|].
  apply pretty_N_go_without; [apply digit_not_underscore | done].
Qed.

Lemma pretty_Z_without (x : Z) : without "_"%char (pretty x).
Proof.
  destruct x as [|p|p]; unfold pretty, pretty_Z.
  - simpl. by split.
  - apply pretty_N_without.
  - norm_append. simpl. split; [done|]. apply pretty_N_without.
Qed.

(** Events with the same key have the same symbol and the same time
    stamp. *)
Lemma keyOf_inj (a b : Event.t) :
  keyOf a = keyOf b →
  Event.symbol a = Event.symbol b ∧ Event.timestamp a = Event.timestamp b.
Proof.
  unfold keyOf. intros [Hs Ht]%underscore_split; try apply pretty_Z_without.
  split; [done|]. by apply (inj pretty).
Qed.
End KeyFacts.

Section MergeFacts.
Context {A : Type} (keyOf : A → string) (compareFn : A → A → Z) (rank : A → Z).
Hypothesis compareFn_rank : ∀ x y, (compareFn x y <= 0)%Z ↔ (rank x <= rank y)%Z.
Hypothesis keyOf_rank : ∀ x y, keyOf x = keyOf y → rank x = rank y.

Local Abbreviation ordered := (StronglySorted (λ a b, (rank a <= rank b)%Z)).

(** A sorted array without duplicates absorbs an increment whose keys are
    all seen already or present in it. *)
Lemma unique_absorb (kept increment : list A) (seen : gset string) :
  ordered kept →
  NoDup (keyOf <$> kept) →
  (∀ x, x ∈ kept → keyOf x ∉ seen) →
  (∀ y, y ∈ increment → keyOf y ∈ seen ∨ keyOf y ∈ keyOf <$> kept) →
  uniqueFrom keyOf seen (sortWith compareFn (kept ++ increment)) = kept.
Proof.
  revert increment seen.
  induction kept as [|m kept IH]; intros increment seen Hord Hnd Hunseen Hinc.
  - simpl. apply uniqueFrom_all_seen. intros x Hx.
    rewrite (sortWith_perm compareFn increment) in Hx.
    destruct (Hinc x Hx) as [?|Hk]; [done|]. by apply not_elem_of_nil in Hk.
  - apply StronglySorted_cons in Hord as [Hm Hord].
    rewrite fmap_cons in Hnd. apply NoDup_cons in Hnd as [Hmk Hnd].
    rewrite <- (uniqueFrom_filter keyOf seen seen) by done.
    rewrite (filter_sortWith compareFn rank compareFn_rank).
    rewrite <- app_comm_cons, filter_cons.
    rewrite decide_True by (apply Hunseen, list_elem_of_here).
    rewrite filter_app.
    assert (filter (λ x, keyOf x ∉ seen) kept = kept) as ->.
    { clear -Hunseen. induction kept as [|x kept IHk]; [done|].
      rewrite filter_cons, decide_True
        by (apply Hunseen, list_elem_of_further, list_elem_of_here).
      f_equal. apply IHk. intros y [->|Hy]%elem_of_cons.
      - apply Hunseen, list_elem_of_here.
      - by apply Hunseen, list_elem_of_further, list_elem_of_further. }
    set (rest := filter (λ x, keyOf x ∉ seen) increment).
    assert (Hrest : ∀ y, y ∈ rest → keyOf y ∈ keyOf <$> (m :: kept)).
    { intros y [Hy Hin]%list_elem_of_filter. by destruct (Hinc y Hin). }
    simpl. rewrite (insertSorted_front compareFn rank compareFn_rank).
    2: { apply Forall_forall. intros y Hy.
         rewrite (sortWith_perm compareFn (kept ++ rest)) in Hy.
         apply elem_of_app in Hy as [Hy|Hy].
         - rewrite Forall_forall in Hm. by apply Hm.
         - apply Hrest, list_elem_of_fmap in Hy as (z & Hkey & Hz).
           rewrite (keyOf_rank y z Hkey).
           apply elem_of_cons in Hz as [->|Hz]; [lia|].
           rewrite Forall_forall in Hm. by apply Hm. }
    simpl. rewrite decide_False by (apply Hunseen, list_elem_of_here).
    f_equal. apply IH; [done|done|..].
    + intros x Hx Hseen. apply elem_of_union in Hseen as [Hseen%elem_of_singleton|Hseen].
      * apply Hmk. rewrite <- Hseen. by apply list_elem_of_fmap_2.
      * eapply Hunseen; [by apply list_elem_of_further | done].
    + intros y Hy. apply Hrest in Hy. rewrite fmap_cons in Hy.
      apply elem_of_cons in Hy as [->|Hy]; [|by right].
      left. apply elem_of_union_l. by apply elem_of_singleton.
Qed.

(** Merging the increment a second time changes nothing. *)
Lemma merge_twice (cached increment : list A) :
  let merged := uniqueFrom keyOf ∅ (sortWith compareFn (cached ++ increment)) in
  uniqueFrom keyOf ∅ (sortWith compareFn (merged ++ increment)) = merged.
Proof.
  intros merged. apply unique_absorb.
  - apply uniqueFrom_sorted, (sortWith_ordered compareFn rank compareFn_rank).
  - apply uniqueFrom_NoDup.
  - set_solver.
  - intros y Hy. right.
    destruct (uniqueFrom_keys keyOf ∅ (sortWith compareFn (cached ++ increment)) y)
      as [Hseen|Hkept]; [|set_solver|done].
    rewrite (sortWith_perm compareFn (cached ++ increment)).
    apply elem_of_app. by right.
Qed.
End MergeFacts.

Lemma append_assoc (s1 s2 s3 : string) : (s1 +:+ s2) +:+ s3 = s1 +:+ s2 +:+ s3.
Proof. induction s1 as [|c s1 IH]; norm_append; [done|]. by rewrite IH. Qed.

Lemma byReentryDesc_rank (x y : Signal.t) :
  (Signals.byReentryDesc x y <= 0)%Z ↔ (- Signal.reentryTime x <= - Signal.reentryTime y)%Z.
Proof. unfold Signals.byReentryDesc. lia. Qed.

(** Signals with the same key have the same re-entry time. *)
Lemma signal_keyOf_reentry (a b : Signal.t) :
  Signals.keyOf a = Signals.keyOf b → Signal.reentryTime a = Signal.reentryTime b.
Proof.
  unfold Signals.keyOf.
  assert (Hassoc : ∀ s r t, s +:+ "_" +:+ r +:+ "_" +:+ t = (s +:+ "_" +:+ r) +:+ "_" +:+ t).
  { intros s r t. by rewrite !append_assoc. }
  rewrite !Hassoc.
  intros [Hfront _]%underscore_split.
  - apply underscore_split in Hfront as [_ Hr]; try apply pretty_Z_without.
    by apply (inj pretty).
  - destruct (Signal.breakoutTime a =? 0)%Z; [done | apply pretty_Z_without].
  - destruct (Signal.breakoutTime b =? 0)%Z; [done | apply pretty_Z_without].
Qed.

(** C9. The merge of the cache with an increment is idempotent: merging
    the same increment again into the merged collection yields the merged
    collection, which is sorted by time and holds each key once. This holds
    of the oversold events (key [symbol_timestamp]) and of the breakout
    signals (key [symbol_reentryTime_breakoutTime]). *)
Theorem merge_idempotent :
  (∀ cachedData allEvents : list Event.t,
     Oversold.merge (Oversold.merge cachedData allEvents) allEvents
     = Oversold.merge cachedData allEvents)
  ∧ (∀ cachedData allSignals : list Signal.t,
       Signals.merge (Signals.merge cachedData allSignals) allSignals
       = Signals.merge cachedData allSignals).
Proof.
  split.
  - intros cachedData allEvents. unfold Oversold.merge, Oversold.sortUnique.
    apply (merge_twice Oversold.keyOf Oversold.byTimestampDesc
             (λ e, - Event.timestamp e)%Z byTimestampDesc_rank).
    intros x y Hkey. apply keyOf_inj in Hkey as [_ Ht]. by rewrite Ht.
  - intros cachedData allSignals. unfold Signals.merge.
    apply (merge_twice Signals.keyOf Signals.byReentryDesc
             (λ e, - Signal.reentryTime e)%Z byReentryDesc_rank).
    intros x y Hkey. by rewrite (signal_keyOf_reentry x y Hkey).
Qed.

(** The merge is what a refresh writes back to the cache: with a cached
    array and a new candle due, the entry becomes the merge of the cached
    array with the events fetched since the last cached time stamp. *)
Lemma fetchOversoldHistory_stores_merge
    (numberToString : Q → string) (net : string → result (list Candle)) (now : Z)
    (store : gmap string (Cache.Entry (list Event.t)))
    (symbols : list string) (days : Z) (rsiThreshold : Q)
    (cached : Cache.Entry (list Event.t)) :
  let key := Oversold.cacheKey numberToString symbols days rsiThreshold in
  let latest := maxOf (Event.timestamp <$> Cache.data cached) in
  let allEvents :=
    mjoin (Oversold.oversoldEventsOf net now days rsiThreshold
             (Some (latest - 60 * 1000)%Z) <$> symbols) in
  store !! (Cache.CACHE_PREFIX +:+ key) = Some cached →
  (Cache.expiry cached = 0 ∨ now <= Cache.timestamp cached + Cache.expiry cached)%Z →
  Cache.data cached ≠ [] →
  Cache.hasNewCandleAvailable now (Some latest) "1h" = true →
  (Oversold.fetchOversoldHistory numberToString net now store symbols days
     rsiThreshold false).2 !! (Cache.CACHE_PREFIX +:+ key)
  = Some (Cache.mkEntry (Oversold.merge (Cache.data cached) allEvents) now
            (60 * 60 * 1000)%Z).
Proof.
  intros key latest allEvents Hget Hexp Hdata Hnew.
  unfold Oversold.fetchOversoldHistory. fold key.
  rewrite (get_unexpired _ _ _ _ Hget Hexp).
  assert (Hlen : (0 <? length (Cache.data cached)) = true).
  { apply Nat.ltb_lt. destruct (Cache.data cached); simpl; [done | lia]. }
  rewrite Hlen. cbn [fmap option_fmap option_map negb andb]. fold latest.
  rewrite Hnew. cbn [negb andb]. fold allEvents.
  assert (Hwritten : ∀ events (st : gmap string (Cache.Entry (list Event.t))),
            Cache.set st now key events (60 * 60 * 1000)%Z
              !! (Cache.CACHE_PREFIX +:+ key)
            = Some (Cache.mkEntry events now (60 * 60 * 1000)%Z)).
  { intros events st. unfold Cache.set. apply lookup_insert_eq. }
  destruct (0 <? length allEvents); simpl; apply Hwritten.
Qed.

(** On a sample: one cached event, and an increment that repeats it and
    brings an older and a newer one. *)
Example merge_sample :
  let cached := [Oversold.sampleEvent "BTC" 7200000 25] in
  let increment := [Oversold.sampleEvent "BTC" 7200000 26;
                    Oversold.sampleEvent "ETH" 3600000 28;
                    Oversold.sampleEvent "ETH" 10800000 12] in
  Oversold.merge cached increment
  = [Oversold.sampleEvent "ETH" 10800000 12; Oversold.sampleEvent "BTC" 7200000 25;
     Oversold.sampleEvent "ETH" 3600000 28]
  ∧ Oversold.merge (Oversold.merge cached increment) increment
    = Oversold.merge cached increment.
Proof. split; vm_compute; reflexivity. Qed.

(** * Further properties of the code *)

(** ** IncrementalCache: [CacheUtils] *)

Lemma prefix_append (s t : string) : String.prefix s (s +:+ t) = true.
Proof.
  induction s as [|c s IH]; norm_append; simpl; [by destruct t|].
  destruct (Ascii.ascii_dec c c); [done | congruence].
Qed.

Lemma prefixed_inj (key key' : string) :
  Cache.CACHE_PREFIX +:+ key = Cache.CACHE_PREFIX +:+ key' → key = key'.
Proof. apply (inj (String.app Cache.CACHE_PREFIX)). Qed.

(** X1. What [set] writes under a key, [get] reads back under that key as
    long as the entry has not expired, and reading any other key is not
    affected by the write. *)
Theorem cache_set_get {A : Type} (store : gmap string (Cache.Entry A))
    (now now' : Z) (key key' : string) (data : A) (expiry : Z) :
  (expiry = 0 ∨ now' <= now + expiry)%Z →
  Cache.get (Cache.set store now key data expiry) now' key
  = (Some (data, now), Cache.set store now key data expiry)
  ∧ (key' ≠ key →
     (Cache.get (Cache.set store now key data expiry) now' key').1
     = (Cache.get store now' key').1).
Proof.
  intros Hexp. split.
  - apply (get_unexpired _ _ _ (Cache.mkEntry data now expiry));
      [apply lookup_insert_eq | done].
  - intros Hne. unfold Cache.get, Cache.set.
    rewrite lookup_insert_ne by (intros Heq; apply Hne; symmetry; by apply prefixed_inj).
    destruct (store !! (Cache.CACHE_PREFIX +:+ key')) as [cached|]; [|done].
    by destruct (negb _ && _)%Z.
Qed.

Lemma cache_set_get_witness :
  Cache.get (Cache.set (∅ : gmap string (Cache.Entry (list Z))) 1000 "k" [7%Z] 3600000)
    2000 "k"
  = (Some ([7%Z], 1000%Z), Cache.set ∅ 1000 "k" [7%Z] 3600000)
  ∧ (Cache.get (Cache.set (∅ : gmap string (Cache.Entry (list Z))) 1000 "k" [7%Z] 3600000)
       2000 "other").1 = None.
Proof.
  destruct (cache_set_get (∅ : gmap string (Cache.Entry (list Z))) 1000 2000 "k" "other"
              [7%Z] 3600000 ltac:(right; vm_compute; discriminate)) as [Hsame Hother].
  split; [exact Hsame|]. rewrite Hother by discriminate. reflexivity.
Defined.

(** X2. Reading an entry after its expiry yields nothing and removes the
    entry from the store; the other keys of the store are kept. *)
Theorem cache_get_expired {A : Type} (store : gmap string (Cache.Entry A))
    (now : Z) (key : string) (cached : Cache.Entry A) :
  store !! (Cache.CACHE_PREFIX +:+ key) = Some cached →
  Cache.expiry cached ≠ 0%Z →
  (Cache.timestamp cached + Cache.expiry cached < now)%Z →
  (Cache.get store now key).1 = None
  ∧ (Cache.get store now key).2 = CacheOps.remove store key
  ∧ (Cache.get store now key).2 !! (Cache.CACHE_PREFIX +:+ key) = None
  ∧ ∀ k, k ≠ Cache.CACHE_PREFIX +:+ key → (Cache.get store now key).2 !! k = store !! k.
Proof.
  intros Hget Hexp Hlate. unfold Cache.get, CacheOps.remove. rewrite Hget.
  apply Z.eqb_neq in Hexp. rewrite Hexp.
  assert (Hgt : (now >? Cache.timestamp cached + Cache.expiry cached)%Z = true)
    by (apply Z.gtb_lt; lia).
  rewrite Hgt. simpl. repeat split.
  - apply lookup_delete_eq.
  - intros k Hk. by apply lookup_delete_ne.
Qed.

Lemma cache_get_expired_witness :
  (Cache.get CacheOps.sampleStore 100000000 "fresh").1 = None
  ∧ (Cache.get CacheOps.sampleStore 100000000 "fresh").2
      !! (Cache.CACHE_PREFIX +:+ "fresh") = None.
Proof.
  destruct (cache_get_expired CacheOps.sampleStore 100000000 "fresh"
              (Cache.mkEntry [2%Z] 90000000 3600000)
              ltac:(reflexivity) ltac:(discriminate) ltac:(reflexivity))
    as (Hnone & _ & Hgone & _).
  by split.
Defined.

(** X3. [clear] removes every entry of the cache and nothing else: after
    it every read of the cache yields nothing, and the keys of the store
    that do not carry the prefix keep their values. *)
Theorem cache_clear {A : Type} (store : gmap string (Cache.Entry A)) :
  (∀ now key, Cache.get (CacheOps.clear store) now key = (None, CacheOps.clear store))
  ∧ (∀ k, String.prefix Cache.CACHE_PREFIX k = false →
          CacheOps.clear store !! k = store !! k)
  ∧ (∀ k, String.prefix Cache.CACHE_PREFIX k = true → CacheOps.clear store !! k = None).
Proof.
  assert (Hgone : ∀ k, String.prefix Cache.CACHE_PREFIX k = true →
                       CacheOps.clear store !! k = None).
  { intros k Hk. unfold CacheOps.clear. apply map_lookup_filter_None. right.
    intros e _. simpl. rewrite Hk. discriminate. }
  split; [|split; [|done]].
  - intros now key. unfold Cache.get. by rewrite Hgone by apply prefix_append.
  - intros k Hk. unfold CacheOps.clear.
    destruct (store !! k) as [e|] eqn:He.
    + by apply map_lookup_filter_Some.
    + apply map_lookup_filter_None. by left.
Qed.

Lemma cache_clear_witness :
  CacheOps.clear CacheOps.sampleStore !! "theme" = CacheOps.sampleStore !! "theme".
Proof.
  apply (proj1 (proj2 (cache_clear CacheOps.sampleStore))).
  vm_compute. reflexivity.
Defined.

(** X4. [clearOld] removes exactly the cache entries written more than 24
    hours ago: an entry of the cache survives if and only if its age is at
    most 24 hours, and the keys without the prefix keep their values. *)
Theorem cache_clearOld {A : Type} (store : gmap string (Cache.Entry A)) (now : Z) :
  (∀ key e, CacheOps.clearOld store now !! (Cache.CACHE_PREFIX +:+ key) = Some e
            ↔ store !! (Cache.CACHE_PREFIX +:+ key) = Some e
              ∧ (now - Cache.timestamp e <= 24 * 60 * 60 * 1000)%Z)
  ∧ (∀ k, String.prefix Cache.CACHE_PREFIX k = false →
          CacheOps.clearOld store now !! k = store !! k).
Proof.
  split.
  - intros key e. unfold CacheOps.clearOld. rewrite map_lookup_filter_Some. simpl.
    rewrite prefix_append. split.
    + intros [He Hage]. split; [done|]. specialize (Hage eq_refl). lia.
    + intros [He Hage]. split; [done|]. intros _. lia.
  - intros k Hk. unfold CacheOps.clearOld.
    destruct (store !! k) as [e|] eqn:He.
    + apply map_lookup_filter_Some. split; [done|]. simpl. rewrite Hk. discriminate.
    + apply map_lookup_filter_None. by left.
Qed.

Lemma cache_clearOld_witness :
  CacheOps.clearOld CacheOps.sampleStore 100000000 !! "theme"
  = CacheOps.sampleStore !! "theme".
Proof.
  apply (proj2 (cache_clearOld CacheOps.sampleStore 100000000)).
  vm_compute. reflexivity.
Defined.

Example clearOld_sample :
  CacheOps.clearOld CacheOps.sampleStore 100000000
  = delete (Cache.CACHE_PREFIX +:+ "old") CacheOps.sampleStore.
Proof.
  apply map_eq. intros k.
  destruct (decide (k = Cache.CACHE_PREFIX +:+ "old")) as [->|Hne].
  - rewrite lookup_delete_eq. apply map_lookup_filter_None. right.
    intros e He. vm_compute in He. injection He as <-. simpl. intros H. apply H; [done|].
    reflexivity.
  - rewrite lookup_delete_ne by done.
    destruct (CacheOps.sampleStore !! k) as [e|] eqn:He.
    + apply map_lookup_filter_Some. split; [done|]. simpl. intros Hp.
      unfold CacheOps.sampleStore in He.
      apply lookup_insert_Some in He as [[<- <-]|[_ He]]; [done|].
      apply lookup_insert_Some in He as [[<- <-]|[_ He]]; [simpl; lia|].
      apply lookup_singleton_Some in He as [<- _]. done.
    + apply map_lookup_filter_None. by left.
Qed.

(** ** MarketDataSource: retries *)

Lemma rate_limited_not_ok (r : Klines.Response) : Retry.rateLimited r → Klines.ok r = false.
Proof. unfold Retry.rateLimited, Klines.ok. by intros ->. Qed.

Lemma getBinanceKlines_single (r : Klines.Response) (rest : list Klines.Response) :
  ¬ Retry.rateLimited r →
  Klines.getBinanceKlines (r :: rest)
  = ([Klines.Fetch], (Klines.getBinanceKlines [r]).2)
  ∧ (Klines.getBinanceKlines [r]).2 ≠ None.
Proof.
  unfold Retry.rateLimited. intros Hr%Z.eqb_neq. simpl. rewrite Hr.
  destruct (Klines.ok r); [done|]. by destruct (Klines.status r =? 418)%Z.
Qed.

(** X5. Whatever the number of 429 answers in a row, [getBinanceKlines]
    sends a request for each of them and one more, waits after each 429 for
    the time its [Retry-After] header asks (60 s without header), and ends
    as the first other answer makes it end: with the klines of a 2xx answer,
    with an error otherwise. *)
Theorem getBinanceKlines_rate_limits
    (limited : list Klines.Response) (r : Klines.Response) (rest : list Klines.Response) :
  Forall Retry.rateLimited limited →
  ¬ Retry.rateLimited r →
  let run := Klines.getBinanceKlines (limited ++ r :: rest) in
  Klines.requests run.1 = S (length limited)
  ∧ Retry.waits run.1 = Retry.waitTimeOf <$> limited
  ∧ run.2 = (Klines.getBinanceKlines [r]).2
  ∧ run.2 ≠ None.
Proof.
  intros Hlimited Hr. simpl.
  induction Hlimited as [|l limited Hl _ IH].
  - cbn [app]. destruct (getBinanceKlines_single r rest Hr) as [-> Hsome].
    by repeat split.
  - cbn [app]. rewrite getBinanceKlines_rate_limited by done.
    destruct IH as (Hreq & Hwaits & Hout & Hsome).
    cbn [fst snd]. repeat split; try done.
    + change (Klines.requests (Klines.Fetch :: Klines.Wait ?w :: ?e))
        with (S (Klines.requests e)). by rewrite Hreq.
    + change (Retry.waits (Klines.Fetch :: Klines.Wait ?w :: ?e))
        with (w :: Retry.waits e). by rewrite Hwaits.
Qed.

Lemma getBinanceKlines_rate_limits_witness :
  let run := Klines.getBinanceKlines
               [Retry.slowDown; Klines.tooManyRequests; Retry.serverError] in
  Klines.requests run.1 = 3
  ∧ Retry.waits run.1 = [2000; 60000]%Z
  ∧ run.2 = Some (Throw "Binance API error: 500 Internal Server Error").
Proof.
  destruct (getBinanceKlines_rate_limits [Retry.slowDown; Klines.tooManyRequests]
              Retry.serverError []
              ltac:(repeat constructor) ltac:(discriminate))
    as (Hreq & Hwaits & Hout & _).
  split; [exact Hreq|]. split; [exact Hwaits|]. exact Hout.
Defined.

(** X6. As long as the exchange answers 429, the call does not end: after
    any number of such answers it has sent as many requests, waited as many
    times, and has neither a result nor an error. *)
Theorem getBinanceKlines_never_gives_up (server : list Klines.Response) :
  Forall Retry.rateLimited server →
  let run := Klines.getBinanceKlines server in
  run.2 = None
  ∧ Klines.requests run.1 = length server
  ∧ Retry.waits run.1 = Retry.waitTimeOf <$> server.
Proof.
  intros Hserver. simpl. induction Hserver as [|l server Hl _ IH]; [done|].
  rewrite getBinanceKlines_rate_limited by done.
  destruct IH as (Hout & Hreq & Hwaits). cbn [fst snd]. repeat split; [done|..].
  - change (Klines.requests (Klines.Fetch :: Klines.Wait ?w :: ?e))
      with (S (Klines.requests e)). by rewrite Hreq.
  - change (Retry.waits (Klines.Fetch :: Klines.Wait ?w :: ?e))
      with (w :: Retry.waits e). by rewrite Hwaits.
Qed.

Lemma getBinanceKlines_never_gives_up_witness :
  (Klines.getBinanceKlines (replicate 5 Klines.tooManyRequests)).2 = None
  ∧ Klines.requests (Klines.getBinanceKlines (replicate 5 Klines.tooManyRequests)).1 = 5.
Proof.
  destruct (getBinanceKlines_never_gives_up (replicate 5 Klines.tooManyRequests)
              ltac:(repeat constructor)) as (Hout & Hreq & _).
  split; [exact Hout | exact Hreq].
Defined.

(** ** RSIEngine: the moving average and the reading *)

Lemma loop_shape (period len : nat) (gains losses : list Q) (n : nat) (st : RSI.loopState) :
  period + 1 + n ≤ len →
  length (RSI.rsiValues st) = len →
  (∀ i, i < period → RSI.rsiValues st !! i = Some None) →
  (∃ v, RSI.rsiValues st !! period = Some (Some v)) →
  let rsi :=
    RSI.rsiValues (foldl (RSI.wilderStep period gains losses) st (seq (period + 1) n)) in
  length rsi = len
  ∧ (∀ i, i < period → rsi !! i = Some None)
  ∧ (∀ i, period ≤ i < period + 1 + n → ∃ v, rsi !! i = Some (Some v)).
Proof.
  intros Hn Hlen Hnull Hfirst. induction n as [|n IH]; cbv zeta.
  - simpl. split_and!; [done..|]. intros i Hi.
    by assert (i = period) as -> by lia.
  - rewrite seq_S, foldl_app. cbn [foldl].
    destruct IH as (IHlen & IHnull & IHval); [lia|].
    set (prev := foldl _ st _) in *.
    unfold RSI.wilderStep. cbn [RSI.rsiValues]. split_and!.
    + by rewrite length_insert.
    + intros i Hi. rewrite list_lookup_insert_ne by lia. by apply IHnull.
    + intros i Hi. destruct (decide (i = period + 1 + n)) as [->|Hne].
      * eexists. apply list_lookup_insert_eq. rewrite IHlen. lia.
      * rewrite list_lookup_insert_ne by lia. apply IHval. lia.
Qed.

(** The shape of the array that [calculateRSI] returns, whatever the
    period. *)
Lemma calculateRSI_shape (prices : list Q) (period : nat) (rsi : list (option Q)) :
  RSI.calculateRSI prices period = Ok rsi →
  period + 1 ≤ length prices
  ∧ length rsi = length prices
  ∧ (∀ i, i < period → rsi !! i = Some None)
  ∧ (∀ i, period ≤ i < length prices → ∃ v, rsi !! i = Some (Some v)).
Proof.
  unfold RSI.calculateRSI.
  destruct (length prices <? period + 1) eqn:Hlt; [done|].
  apply Nat.ltb_ge in Hlt. intros [= <-]. split; [done|].
  match goal with
  | |- context [foldl (RSI.wilderStep _ ?gains ?losses) ?st0 _] =>
      destruct (loop_shape period (length prices) gains losses
                  (length prices - (period + 1)) st0) as (Hlength & Hnull & Hval)
  end.
  - lia.
  - cbn [RSI.rsiValues]. by rewrite length_insert, length_replicate.
  - intros i Hi. cbn [RSI.rsiValues]. rewrite list_lookup_insert_ne by lia.
    apply lookup_replicate_2. lia.
  - eexists. cbn [RSI.rsiValues]. apply list_lookup_insert_eq.
    rewrite length_replicate. lia.
  - split_and!; [done..|]. intros i Hi. apply Hval. lia.
Qed.

Lemma omap_nulls {A : Type} (l : list (option A)) :
  Forall (λ x, x = None) l → omap id l = [].
Proof. induction 1 as [|x l -> _ IH]; [done|]. by cbn. Qed.

Lemma omap_numbers {A : Type} (l : list (option A)) :
  Forall is_Some l → Some <$> omap id l = l.
Proof.
  induction 1 as [|x l [v ->] _ IH]; [done|]. cbn. by rewrite IH.
Qed.

(** The numbers of a slice of an array that is [null] below [period] and
    holds numbers from there on. *)
Lemma slice_numbers {A : Type} (l : list (option A)) (period from to : nat) :
  (∀ i, i < period → i < length l → l !! i = Some None) →
  (∀ i, period ≤ i < length l → is_Some (mjoin (l !! i))) →
  to ≤ length l →
  Some <$> omap id (slice from to l) = slice (from `max` period) to l.
Proof.
  intros Hnull Hval Hto.
  set (s := slice from to l). set (k := period - from).
  rewrite <- (take_drop k s), omap_app, omap_nulls, app_nil_l.
  - rewrite omap_numbers.
    + subst s. unfold slice. rewrite skipn_firstn_comm, drop_drop.
      replace (from + k) with (from `max` period) by lia.
      f_equal. lia.
    + apply Forall_lookup. intros i x. subst s. unfold slice.
      rewrite lookup_drop, lookup_take_Some, lookup_drop. intros [Hx Hi].
      assert (Hlt : from + (k + i) < length l) by by eapply lookup_lt_Some.
      destruct (Hval (from + (k + i)) ltac:(lia)) as [v Hv].
      rewrite Hx in Hv. destruct x; [done | discriminate].
  - apply Forall_lookup. intros i x. subst s. unfold slice.
    rewrite lookup_take_Some, lookup_take_Some, lookup_drop. intros [[Hx _] Hi].
    assert (Hlt : from + i < length l) by by eapply lookup_lt_Some.
    rewrite Hnull in Hx by lia. by injection Hx as <-.
Qed.

(** The entries of the moving average, for the RSI series of
    [calculateRSI]. *)
Lemma rsiMAOf_entries (prices : list Q) (period maPeriod : nat)
    (rsiValues : list (option Q)) :
  RSI.calculateRSI prices period = Ok rsiValues →
  let rsiMA := Engine.rsiMAOf rsiValues maPeriod in
  length rsiMA = maPeriod `max` length prices
  ∧ (∀ i, i < maPeriod → rsiMA !! i = Some None)
  ∧ (∀ i, maPeriod ≤ i < length prices →
       let window := omap id (slice (i - maPeriod + 1) (i + 1) rsiValues) in
       rsiMA !! i
       = Some (if 0 <? length window
               then Some (sum window / ofNat (length window))%Q else None)
       ∧ Some <$> window = slice ((i - maPeriod + 1) `max` period) (i + 1) rsiValues
       ∧ length window = i + 1 - (i - maPeriod + 1) `max` period).
Proof.
  intros Hcalc rsiMA.
  destruct (calculateRSI_shape _ _ _ Hcalc) as (Hlen & Hlength & Hnull & Hval).
  split_and!.
  - subst rsiMA. unfold Engine.rsiMAOf.
    rewrite length_app, length_replicate, length_fmap, length_seq. lia.
  - intros i Hi. subst rsiMA. unfold Engine.rsiMAOf.
    rewrite lookup_app_l by (rewrite length_replicate; lia).
    by apply lookup_replicate_2.
  - intros i Hi window.
    assert (Hwindow : Some <$> window
                      = slice ((i - maPeriod + 1) `max` period) (i + 1) rsiValues).
    { apply slice_numbers.
      - intros j Hj _. by apply Hnull.
      - intros j Hj. rewrite Hlength in Hj. destruct (Hval j Hj) as [v ->]. by eexists.
      - lia. }
    split_and!; [|done|].
    + subst rsiMA. unfold Engine.rsiMAOf.
      rewrite lookup_app_r by (rewrite length_replicate; lia).
      rewrite length_replicate, list_lookup_fmap.
      rewrite lookup_seq_lt by lia. cbn [fmap option_fmap option_map].
      by replace (maPeriod + (i - maPeriod)) with i by lia.
    + rewrite <- (length_fmap Some), Hwindow. unfold slice.
      rewrite length_take, length_drop. lia.
Qed.

(** X7. The moving average of the RSI series of [calculateRSI]: the array
    has the length of the series (or [maPeriod] when that is larger); an
    entry is [null] below [maPeriod], below [period], and everywhere when
    [maPeriod] is 0; every other entry is the mean of the RSI values of the
    last [maPeriod] indices, or of those from index [period] on when these
    are fewer. *)
Theorem rsiMAOf_windows (prices : list Q) (period maPeriod : nat)
    (rsiValues : list (option Q)) :
  RSI.calculateRSI prices period = Ok rsiValues →
  let rsiMA := Engine.rsiMAOf rsiValues maPeriod in
  length rsiMA = maPeriod `max` length prices
  ∧ (∀ i, i < length rsiMA → i < maPeriod ∨ i < period ∨ maPeriod = 0 →
       rsiMA !! i = Some None)
  ∧ (∀ i, 1 ≤ maPeriod ≤ i → period ≤ i < length prices →
       ∃ window,
         rsiMA !! i = Some (Some (sum window / ofNat (length window))%Q)
         ∧ length window = maPeriod `min` (i + 1 - period)
         ∧ Some <$> window = slice (i + 1 - length window) (i + 1) rsiValues).
Proof.
  intros Hcalc rsiMA.
  destruct (rsiMAOf_entries _ _ maPeriod _ Hcalc) as (Hlength & Hfirst & Hat).
  fold rsiMA in Hlength, Hfirst, Hat.
  split_and!; [done| |].
  - intros i Hi Hcase.
    destruct (decide (i < maPeriod)) as [Hlt|Hge]; [by apply Hfirst|].
    destruct (Hat i ltac:(lia)) as (-> & _ & Hcount).
    destruct (0 <? _) eqn:E; [|done]. apply Nat.ltb_lt in E. lia.
  - intros i Hma Hi.
    destruct (Hat i ltac:(lia)) as (-> & Hwindow & Hcount).
    exists (omap id (slice (i - maPeriod + 1) (i + 1) rsiValues)).
    rewrite Hwindow, Hcount.
    destruct (0 <? _) eqn:E; [|apply Nat.ltb_ge in E; lia].
    split_and!; [done | lia|]. f_equal. lia.
Qed.

Lemma rsiMAOf_windows_witness :
  ∃ rsiValues, RSI.calculateRSI (scenarioA ++ [45; 44]%Q) 14 = Ok rsiValues
    ∧ length (Engine.rsiMAOf rsiValues 2) = 17
    ∧ Engine.rsiMAOf rsiValues 2 !! 13 = Some None
    ∧ ∃ window, length window = 2
        ∧ Engine.rsiMAOf rsiValues 2 !! 16 = Some (Some (sum window / 2)%Q).
Proof.
  destruct (RSI.calculateRSI (scenarioA ++ [45; 44]%Q) 14) as [rsiValues|] eqn:Hcalc;
    [|vm_compute in Hcalc; discriminate].
  exists rsiValues. split; [done|].
  destruct (rsiMAOf_windows (scenarioA ++ [45; 44]%Q) 14 2 rsiValues Hcalc)
    as (Hlen & Hnull & Hmean).
  split; [exact Hlen|]. split.
  - apply Hnull; [rewrite Hlen; simpl|]; lia.
  - destruct (Hmean 16 ltac:(lia) ltac:(simpl; lia)) as (window & Hw & Hcount & _).
    exists window. split; [exact Hcount|]. rewrite Hw, Hcount. reflexivity.
Defined.

Lemma fetchRSIFromBinance_fields symbol (klines : list Candle) period maPeriod r :
  Engine.fetchRSIFromBinance symbol klines period maPeriod = Ok r →
  let formattedData := sortWith (λ a b, closeTime a - closeTime b)%Z klines in
  ∃ rsiValues latest,
    RSI.calculateRSI (close <$> formattedData) period = Ok rsiValues
    ∧ Engine.fromEnd formattedData 1 = Some latest
    ∧ Reading.symbol r = symbol
    ∧ Reading.timestamp r = closeTime latest
    ∧ Reading.price r = close latest
    ∧ Reading.rsi r = mjoin (Engine.fromEnd rsiValues 1)
    ∧ Reading.rsi_ma r = mjoin (Engine.fromEnd (Engine.rsiMAOf rsiValues maPeriod) 1)
    ∧ Reading.previous_rsi r = Engine.orNull (Engine.fromEnd rsiValues 2)
    ∧ Reading.previous_rsi_ma r
      = Engine.orNull (Engine.fromEnd (Engine.rsiMAOf rsiValues maPeriod) 2)
    ∧ Reading.previous_timestamp r = closeTime <$> Engine.fromEnd formattedData 2
    ∧ Reading.data_points r = length klines.
Proof.
  intros Hr formattedData. unfold Engine.fetchRSIFromBinance in Hr.
  destruct klines as [|k klines]; [done|].
  cbv zeta in Hr. fold formattedData in Hr.
  unfold Engine.readingOf in Hr.
  destruct (RSI.calculateRSI _ _) as [rsiValues|] eqn:Hcalc; [|done].
  destruct (Engine.fromEnd formattedData 1) as [latest|] eqn:H1; [|done].
  exists rsiValues, latest. split; [done|]. split; [done|].
  assert (Hpoints : length formattedData = length (k :: klines))
    by apply sortWith_length.
  destruct (Engine.fromEnd formattedData 2) as [previous|] eqn:H2; simpl in Hr.
  - pose proof (sorted_last_two (k :: klines) previous latest H2 H1) as Hle.
    destruct (closeTime previous >? closeTime latest)%Z eqn:E;
      [apply Z.gtb_lt in E; lia|].
    injection Hr as <-. simpl. by rewrite Hpoints.
  - injection Hr as <-. simpl. by rewrite Hpoints.
Qed.

Lemma fromEnd_last {A : Type} (arr : list A) : arr ≠ [] → is_Some (Engine.fromEnd arr 1).
Proof.
  intros Hne. unfold Engine.fromEnd.
  assert (0 < length arr) by (destruct arr; simpl; [done | lia]).
  destruct (length arr <? 1) eqn:E; [apply Nat.ltb_lt in E; lia|].
  apply lookup_lt_is_Some. lia.
Qed.

Lemma fetchRSIFromBinance_outcome
    (symbol : string) (klines : list Candle) (period maPeriod : nat) :
  (length klines < period + 1 →
   ∃ msg, Engine.fetchRSIFromBinance symbol klines period maPeriod = Throw msg)
  ∧ (period + 1 ≤ length klines →
     ∃ r, Engine.fetchRSIFromBinance symbol klines period maPeriod = Ok r).
Proof.
  unfold Engine.fetchRSIFromBinance. split; intros Hlen.
  - destruct klines as [|k klines]; [by eexists|].
    set (formattedData := sortWith _ (k :: klines)).
    unfold Engine.readingOf, RSI.calculateRSI.
    rewrite length_fmap. unfold formattedData at 1. rewrite sortWith_length.
    apply Nat.ltb_lt in Hlen. rewrite Hlen. by eexists.
  - destruct klines as [|k klines]; [simpl in Hlen; lia|].
    set (formattedData := sortWith _ (k :: klines)).
    assert (Hfd : length formattedData = length (k :: klines)) by apply sortWith_length.
    unfold Engine.readingOf, RSI.calculateRSI.
    rewrite length_fmap, Hfd.
    apply Nat.ltb_ge in Hlen. rewrite Hlen.
    destruct (fromEnd_last formattedData) as [latest ->].
    { intros Hnil. rewrite Hnil in Hfd. simpl in Hfd. lia. }
    destruct (Engine.fromEnd formattedData 2) as [previous|]; simpl; [|by eexists].
    destruct (closeTime previous >? closeTime latest)%Z; by eexists.
Qed.

(** X8. [fetchRSIFromBinance] fails exactly when the exchange returns
    fewer than [period + 1] klines (none at all included), and returns a
    reading otherwise. *)
Theorem fetchRSIFromBinance_succeeds
    (symbol : string) (klines : list Candle) (period maPeriod : nat) :
  (length klines < period + 1 →
   ∃ msg, Engine.fetchRSIFromBinance symbol klines period maPeriod = Throw msg)
  ∧ (period + 1 ≤ length klines →
     ∃ r, Engine.fetchRSIFromBinance symbol klines period maPeriod = Ok r).
Proof.
  destruct (fetchRSIFromBinance_outcome symbol klines period maPeriod)
    as [Hthrows Hreturns].
  split; intros Hlen.
  - destruct (Hthrows Hlen) as [msg Hmsg]. by exists msg.
  - destruct (Hreturns Hlen) as [r Hr]. by exists r.
Qed.

Lemma fetchRSIFromBinance_succeeds_witness :
  (∃ msg, Engine.fetchRSIFromBinance "NEW/USDT" (take 3 Engine.rising) 14 14 = Throw msg)
  ∧ (∃ r, Engine.fetchRSIFromBinance "BTC/USDT" Engine.rising 14 14 = Ok r).
Proof.
  split.
  - apply (proj1 (fetchRSIFromBinance_succeeds "NEW/USDT" (take 3 Engine.rising) 14 14)).
    simpl. lia.
  - apply (proj2 (fetchRSIFromBinance_succeeds "BTC/USDT" Engine.rising 14 14)).
    simpl. lia.
Defined.

(** X9. A reading returned by [fetchRSIFromBinance] carries the symbol
    asked for and the number of klines received; its time stamp is the
    greatest close time among the klines and its price the close of a kline
    with that close time; its [rsi] is a number, and its [rsi_ma] is a
    number exactly when [maPeriod] is at least 1 and below the number of
    klines. *)
Theorem fetchRSIFromBinance_reading
    (symbol : string) (klines : list Candle) (period maPeriod : nat) (r : Reading.t) :
  Engine.fetchRSIFromBinance symbol klines period maPeriod = Ok r →
  Reading.symbol r = symbol
  ∧ Reading.data_points r = length klines
  ∧ (∀ c, c ∈ klines → (closeTime c <= Reading.timestamp r)%Z)
  ∧ (∃ c, c ∈ klines ∧ closeTime c = Reading.timestamp r ∧ close c = Reading.price r)
  ∧ is_Some (Reading.rsi r)
  ∧ (is_Some (Reading.rsi_ma r) ↔ 1 ≤ maPeriod < length klines).
Proof.
  intros Hr.
  destruct (fetchRSIFromBinance_fields _ _ _ _ _ Hr)
    as (rsiValues & latest & Hcalc & H1 & Hsym & Hts & Hprice & Hrsi & Hma & _ & _ & _
        & Hpoints).
  set (formattedData := sortWith (λ a b, closeTime a - closeTime b)%Z klines) in *.
  assert (Hsame : length formattedData = length klines) by apply sortWith_length.
  destruct (calculateRSI_shape _ _ _ Hcalc) as (Hlen & Hlength & _ & Hval).
  rewrite length_fmap in Hlen, Hlength, Hval.
  destruct (rsiMAOf_entries _ _ maPeriod _ Hcalc) as (Hmalen & Hmafirst & Hmaat).
  rewrite length_fmap in Hmalen, Hmaat.
  apply fromEnd_Some in H1 as [_ H1].
  split_and!; [done | done | | | |].
  - intros c Hc. rewrite Hts.
    rewrite <- (sortWith_perm (λ a b, closeTime a - closeTime b)%Z klines) in Hc.
    fold formattedData in Hc.
    apply list_elem_of_lookup in Hc as [i Hi].
    assert (i < length formattedData) by by eapply lookup_lt_Some.
    destruct (decide (i = length formattedData - 1)) as [->|Hne].
    + rewrite H1 in Hi. by injection Hi as <-.
    + eapply (ordered_lookup closeTime formattedData i (length formattedData - 1));
        [apply (sortWith_ordered _ closeTime byCloseTime_rank) | done | done | lia].
  - exists latest. split; [|by rewrite Hts, Hprice].
    rewrite <- (sortWith_perm (λ a b, closeTime a - closeTime b)%Z klines).
    by eapply list_elem_of_lookup_2.
  - rewrite Hrsi. unfold Engine.fromEnd. rewrite Hlength.
    destruct (length formattedData <? 1) eqn:E; [apply Nat.ltb_lt in E; lia|].
    destruct (Hval (length formattedData - 1) ltac:(lia)) as (v & ->). by eexists.
  - rewrite Hma, <- Hsame. unfold Engine.fromEnd. rewrite Hmalen.
    destruct (_ <? 1) eqn:E; [apply Nat.ltb_lt in E; lia|].
    destruct (decide (length formattedData ≤ maPeriod)) as [Hshort|Hlong].
    { rewrite Hmafirst by lia. split; [by intros [? ?] | lia]. }
    replace (maPeriod `max` length formattedData - 1)
      with (length formattedData - 1) by lia.
    destruct (Hmaat (length formattedData - 1) ltac:(lia)) as (-> & _ & Hcount).
    destruct (0 <? _) eqn:Hnum.
    + apply Nat.ltb_lt in Hnum. split; [lia | by eexists].
    + apply Nat.ltb_ge in Hnum. split; [by intros [? ?] | lia].
Qed.

Lemma fetchRSIFromBinance_reading_witness :
  ∃ r, Engine.fetchRSIFromBinance "ETH/USDT" Engine.repeated 14 14 = Ok r
    ∧ Reading.symbol r = "ETH/USDT"
    ∧ Reading.data_points r = 16
    ∧ is_Some (Reading.rsi r)
    ∧ is_Some (Reading.rsi_ma r).
Proof.
  destruct (Engine.fetchRSIFromBinance "ETH/USDT" Engine.repeated 14 14)
    as [r|] eqn:Hr; [|vm_compute in Hr; discriminate].
  exists r. split; [done|].
  destruct (fetchRSIFromBinance_reading "ETH/USDT" Engine.repeated 14 14 r Hr)
    as (Hsym & Hpoints & _ & _ & Hrsi & Hma).
  split; [exact Hsym|]. split; [exact Hpoints|]. split; [exact Hrsi|].
  apply Hma. simpl. lia.
Defined.

(** ** IncrementalCache: [fetchMultipleRSI] beyond the cadence check *)

Lemma readingOf_symbol net period maPeriod (symbol : string) :
  match net symbol with
  | Ok klines =>
      match Engine.fetchRSIFromBinance symbol klines period maPeriod with
      | Ok result => Some result
      | Throw _ => None
      end
  | Throw _ => None
  end
  = (if Range.enoughKlines net period symbol
     then match net symbol with
          | Ok klines =>
              match Engine.fetchRSIFromBinance symbol klines period maPeriod with
              | Ok result => Some result
              | Throw _ => None
              end
          | Throw _ => None
          end
     else None)
  ∧ (Range.enoughKlines net period symbol = true →
     ∃ r : Reading.t,
       match net symbol with
       | Ok klines => Engine.fetchRSIFromBinance symbol klines period maPeriod
       | Throw msg => Throw msg
       end = Ok r ∧ Reading.symbol r = symbol).
Proof.
  unfold Range.enoughKlines. destruct (net symbol) as [klines|msg]; [|done].
  destruct (fetchRSIFromBinance_outcome symbol klines period maPeriod)
    as [Hthrows Hreturns].
  destruct (period + 1 <=? length klines) eqn:E.
  - apply Nat.leb_le in E. destruct (Hreturns E) as [r Hr]. split; [done|].
    intros _. exists r. split; [done|].
    by destruct (fetchRSIFromBinance_fields _ _ _ _ _ Hr) as (? & ? & _ & _ & ? & _).
  - apply Nat.leb_gt in E. destruct (Hthrows E) as [msg ->]. done.
Qed.

(** X10. A refresh of [fetchMultipleRSI] asks the exchange for every
    symbol, in order; a symbol whose request fails, or for which fewer than
    [period + 1] klines come back, is left out without stopping the others;
    the array returned holds one reading per remaining symbol, in the order
    of the symbols, and it is what the cache holds afterwards, for two
    hours. *)
Theorem fetchMultipleRSI_isolates_failures
    (net : string → result (list Candle)) (now : Z)
    (store : gmap string (Cache.Entry (list Reading.t)))
    (symbols : list string) (period maPeriod : nat) :
  let out := MultiRSI.fetchMultipleRSI net now store symbols period maPeriod true in
  Reading.symbol <$> out.1.1 = filter (λ s, Range.enoughKlines net period s) symbols
  ∧ out.2 = symbols
  ∧ out.1.2 !! (Cache.CACHE_PREFIX +:+ MultiRSI.cacheKey symbols period maPeriod)
    = Some (Cache.mkEntry out.1.1 now (2 * 60 * 60 * 1000)%Z).
Proof.
  cbv zeta. unfold MultiRSI.fetchMultipleRSI. cbn [fst snd].
  split; [|split; [done|]].
  - induction symbols as [|symbol symbols IH]; [done|].
    rewrite filter_cons. cbn [fmap list_fmap omap list_omap id].
    destruct (readingOf_symbol net period maPeriod symbol) as [Hone Henough].
    destruct (Range.enoughKlines net period symbol) eqn:E.
    + destruct (Henough eq_refl) as (r & Hr & Hsym).
      rewrite decide_True by done.
      destruct (net symbol) as [klines|]; [|done]. rewrite Hr.
      cbn [fmap list_fmap]. f_equal; [done|]. apply IH.
    + rewrite decide_False by (by intros ?). rewrite Hone. apply IH.
  - unfold Cache.set. apply lookup_insert_eq.
Qed.

Example fetchMultipleRSI_sample :
  Reading.symbol
    <$> (MultiRSI.fetchMultipleRSI Range.twoSymbols 57000000 ∅
           ["BTC/USDT"; "NEW/USDT"; "ETH/USDT"; "XXX/USDT"] 14 14 true).1.1
  = ["BTC/USDT"; "ETH/USDT"].
Proof. vm_compute. reflexivity. Qed.

(** X11. After a refresh at [now] that returned at least one reading, a
    call that is not forced, comes within two hours and before the hour that
    follows the latest time stamp of those readings returns the same array
    from the cache, without any request to the exchange. *)
Theorem fetchMultipleRSI_reuses_refresh
    (net net' : string → result (list Candle)) (now now' : Z)
    (store : gmap string (Cache.Entry (list Reading.t)))
    (symbols : list string) (period maPeriod : nat) :
  let out := MultiRSI.fetchMultipleRSI net now store symbols period maPeriod true in
  let latest := foldl Z.max 0%Z (Reading.timestamp <$> out.1.1) in
  out.1.1 ≠ [] →
  (0 < latest)%Z →
  (now' <= now + 2 * 60 * 60 * 1000)%Z →
  (now' / 3600000 * 3600000 <= latest)%Z →
  MultiRSI.fetchMultipleRSI net' now' out.1.2 symbols period maPeriod false
  = (out.1.1, out.1.2, []).
Proof.
  intros out latest Hne Hpos Hsoon Hhour.
  assert (Hstored :
    out.1.2 !! (Cache.CACHE_PREFIX +:+ MultiRSI.cacheKey symbols period maPeriod)
    = Some (Cache.mkEntry out.1.1 now (2 * 60 * 60 * 1000)%Z))
    by (unfold Cache.set; apply lookup_insert_eq).
  unfold MultiRSI.fetchMultipleRSI at 1. cbn [negb].
  rewrite (get_unexpired _ _ _ _ Hstored) by (right; simpl; lia).
  cbn [Cache.data Cache.timestamp].
  assert (Hlen : (0 <? length out.1.1) = true).
  { apply Nat.ltb_lt. destruct out.1.1; simpl; [done | lia]. }
  rewrite Hlen. fold latest.
  assert (Hgt : (latest >? 0)%Z = true) by (apply Z.gtb_lt; lia).
  rewrite Hgt.
  apply hasNewCandleAvailable_hourly in Hhour. by rewrite Hhour.
Qed.

Lemma fetchMultipleRSI_reuses_refresh_witness :
  let out := MultiRSI.fetchMultipleRSI Range.twoSymbols 57000000 ∅ ["BTC/USDT"] 14 14 true in
  MultiRSI.fetchMultipleRSI MultiRSI.offline 57500000 out.1.2 ["BTC/USDT"] 14 14 false
  = (out.1.1, out.1.2, []).
Proof.
  apply (fetchMultipleRSI_reuses_refresh Range.twoSymbols MultiRSI.offline
           57000000 57500000 ∅ ["BTC/USDT"] 14 14).
  - vm_compute. discriminate.
  - vm_compute. reflexivity.
  - vm_compute. discriminate.
  - vm_compute. discriminate.
Defined.

(** ** Candle cadence helpers *)

(** X12. [getLatestExpectedCandleTime] is the last boundary of the interval
    that is not after [now]: a multiple of the interval length, at most
    [now], and less than one interval before it. Every interval other than
    ['1h'] is read as five minutes. *)
Theorem getLatestExpectedCandleTime_boundary (now : Z) (interval : string) :
  let intervalMs := if decide (interval = "1h") then 3600000%Z else 300000%Z in
  let latest := Cache.getLatestExpectedCandleTime now interval in
  (latest mod intervalMs = 0)%Z
  ∧ (latest <= now < latest + intervalMs)%Z.
Proof.
  cbv zeta. unfold Cache.getLatestExpectedCandleTime.
  replace (60 * 60 * 1000)%Z with 3600000%Z by reflexivity.
  replace (5 * 60 * 1000)%Z with 300000%Z by reflexivity.
  set (m := if decide (interval = "1h") then 3600000%Z else 300000%Z).
  assert (Hm : (0 < m)%Z) by (unfold m; destruct (decide _); lia).
  split.
  - apply Z.mod_mul. lia.
  - pose proof (Z.mul_div_le now m Hm). pose proof (Z.mul_succ_div_gt now m Hm). lia.
Qed.

(** X13. [hasNewCandleAvailable] answers [true] exactly when a boundary of
    the interval lies after the last candle time and not after [now]; a
    missing last candle time counts as 0. *)
Theorem hasNewCandleAvailable_boundary
    (now : Z) (lastCandleTime : option Z) (interval : string) :
  let intervalMs := if decide (interval = "1h") then 3600000%Z else 300000%Z in
  Cache.hasNewCandleAvailable now lastCandleTime interval = true
  ↔ ∃ k : Z, (default 0 lastCandleTime < k * intervalMs <= now)%Z.
Proof.
  cbv zeta. unfold Cache.hasNewCandleAvailable, Cache.getLatestExpectedCandleTime.
  replace (60 * 60 * 1000)%Z with 3600000%Z by reflexivity.
  replace (5 * 60 * 1000)%Z with 300000%Z by reflexivity.
  set (m := if decide (interval = "1h") then 3600000%Z else 300000%Z).
  assert (Hm : (0 < m)%Z) by (unfold m; destruct (decide _); lia).
  rewrite Z.gtb_lt. split.
  - intros Hlt. exists (now / m)%Z. split; [done|].
    pose proof (Z.mul_div_le now m Hm). lia.
  - intros (k & Hlast & Hk).
    assert (k <= now / m)%Z by (apply Z.div_le_lower_bound; lia).
    assert (k * m <= now / m * m)%Z by (apply Z.mul_le_mono_nonneg_r; lia).
    lia.
Qed.

(** ** OversoldStore: [fetchHistoricalRSI] *)

Lemma toFixed2_percent (x : Q) :
  (0 <= x <= 100)%Q → (0 <= Oversold.toFixed2 x <= 100)%Q.
Proof.
  intros [Hlo Hhi]. unfold Oversold.toFixed2.
  assert (H0 : (0 <= Qfloor (x * 100 + (1 # 2)))%Z).
  { change 0%Z with (Qfloor 0). apply Qfloor_resp_le. lra. }
  assert (H1 : (Qfloor (x * 100 + (1 # 2)) <= 10000)%Z).
  { change 10000%Z with (Qfloor (20001 # 2)). apply Qfloor_resp_le. lra. }
  rewrite Zle_Qle in H0, H1.
  change (inject_Z 0) with 0%Q in H0. change (inject_Z 10000) with 10000%Q in H1.
  split.
  - apply Qle_shift_div_l; [reflexivity|]. lra.
  - apply Qle_shift_div_r; [reflexivity|]. lra.
Qed.

Lemma omap_seq_sorted {B : Type} (R : B → B → Prop) (f : nat → option B) (a n : nat) :
  (∀ i j x y, i < j → f i = Some x → f j = Some y → R x y) →
  StronglySorted R (omap f (seq a n)).
Proof.
  intros HR. revert a. induction n as [|n IH]; intros a; simpl; [constructor|].
  destruct (f a) as [x|] eqn:Hx; [|apply IH].
  constructor; [apply IH|].
  apply Forall_forall. intros y (j & Hj & Hy)%list_elem_of_omap.
  apply elem_of_seq in Hj. apply (HR a j); [lia|done..].
Qed.

Lemma omap_length_le {B C : Type} (f : B → option C) (l : list B) :
  length (omap f l) ≤ length l.
Proof. induction l as [|x l IH]; csimpl; [done|]. destruct (f x); csimpl; lia. Qed.

(** X14. The data points returned by [fetchHistoricalRSI] carry the symbol
    asked for and an RSI between 0 and 100; each one is the close time and
    the closing price of a candle the exchange returned; none is older than
    [days] days, none is at or before [sinceTimestamp] when one is given;
    they come in the order of their time stamps, and the first [period]
    candles yield none. *)
Theorem fetchHistoricalRSI_items
    (net : string → result (list Candle)) (now : Z) (symbol : string) (days : Z)
    (period : nat) (sinceTimestamp : option Z) (historicalRSI : list Item.t) :
  Oversold.fetchHistoricalRSI net now symbol days period sinceTimestamp = Ok historicalRSI →
  ∃ klines, net symbol = Ok klines
  ∧ Forall (λ item,
              Item.symbol item = symbol
              ∧ (0 <= Item.rsi item <= 100)%Q
              ∧ (now - days * 24 * 60 * 60 * 1000 <= Item.timestamp item)%Z
              ∧ (∀ since, sinceTimestamp = Some since → since ≠ 0%Z →
                          (since < Item.timestamp item)%Z)
              ∧ ∃ candle, candle ∈ klines
                          ∧ closeTime candle = Item.timestamp item
                          ∧ close candle = Item.price item)
           historicalRSI
  ∧ StronglySorted (λ a b, (Item.timestamp a <= Item.timestamp b)%Z) historicalRSI
  ∧ length historicalRSI ≤ length klines - period.
Proof.
  unfold Oversold.fetchHistoricalRSI.
  destruct (net symbol) as [klines|msg]; [|done].
  intros Hitems. exists klines. split; [done|].
  destruct klines as [|k klines].
  { injection Hitems as <-. repeat split; constructor. }
  set (formattedData := sortWith (λ a b, closeTime a - closeTime b)%Z (k :: klines))
    in Hitems.
  cbv zeta in Hitems.
  destruct (RSI.calculateRSI (close <$> formattedData) period) as [rsiValues|]; [|done].
  injection Hitems as <-.
  set (itemOf := λ i : nat, _).
  assert (Hitem : ∀ i item, itemOf i = Some item →
    ∃ candle, formattedData !! i = Some candle
      ∧ Item.timestamp item = closeTime candle ∧ Item.price item = close candle
      ∧ Item.symbol item = symbol ∧ (0 <= Item.rsi item <= 100)%Q
      ∧ (now - days * 24 * 60 * 60 * 1000 <= closeTime candle)%Z
      ∧ (∀ since, sinceTimestamp = Some since → since ≠ 0%Z →
                  (since < closeTime candle)%Z)).
  { intros i item. unfold itemOf.
    destruct (formattedData !! i) as [candle|]; [|done].
    destruct (rsiValues !! i) as [[rsi|]|]; [|done..].
    destruct (closeTime candle >=? _)%Z eqn:Hcut; [|done].
    destruct (Qle_bool 0 rsi) eqn:Hlo; [|done].
    destruct (Qle_bool rsi 100) eqn:Hhi; [|done]. cbn [andb].
    apply Qle_bool_iff in Hlo, Hhi. apply Z.geb_le in Hcut.
    destruct (match sinceTimestamp with Some _ => _ | None => _ end) eqn:Hsince; [|done].
    intros [= <-]. exists candle. simpl.
    repeat split; [by apply toFixed2_percent..|lia|].
    intros since -> Hnz. apply orb_true_iff in Hsince as [H0|Hgt]; lia. }
  assert (Hperm : formattedData ≡ₚ k :: klines) by apply sortWith_perm.
  split; [|split].
  - apply Forall_forall. intros item (i & _ & Hi)%list_elem_of_omap.
    destruct (Hitem i item Hi) as (candle & Hc & Ht & Hp & Hs & Hr & Hcut & Hsince).
    repeat split; [done|apply Hr|apply Hr|lia| |].
    + intros since Heq Hnz. rewrite Ht. by apply Hsince.
    + exists candle. split; [|done]. rewrite <- Hperm. by eapply list_elem_of_lookup_2.
  - apply omap_seq_sorted. intros i j x y Hij Hx Hy.
    destruct (Hitem i x Hx) as (cx & Hcx & -> & _).
    destruct (Hitem j y Hy) as (cy & Hcy & -> & _).
    eapply (ordered_lookup closeTime formattedData i j); [|done..].
    apply sortWith_ordered, byCloseTime_rank.
  - etrans; [apply omap_length_le|].
    rewrite length_seq. unfold formattedData. by rewrite sortWith_length.
Qed.

Lemma fetchHistoricalRSI_items_witness :
  ∃ historicalRSI,
    Oversold.fetchHistoricalRSI (λ _, Ok Oversold.falling) (16 * 3600000) "BTC/USDT" 7 14
      None = Ok historicalRSI
    ∧ length historicalRSI ≤ length Oversold.falling - 14.
Proof.
  destruct (Oversold.fetchHistoricalRSI (λ _, Ok Oversold.falling) (16 * 3600000)
              "BTC/USDT" 7 14 None) as [historicalRSI|] eqn:E;
    [|vm_compute in E; discriminate].
  exists historicalRSI. split; [done|].
  destruct (fetchHistoricalRSI_items _ _ _ _ _ _ _ E) as (klines & Hnet & _ & _ & Hlen).
  by injection Hnet as <-.
Defined.

(** X15. [fetchHistoricalRSI] fails when the request of the klines fails,
    and when between 1 and [period] klines come back; no kline at all is not
    a failure but an empty history. *)
Theorem fetchHistoricalRSI_fails
    (net : string → result (list Candle)) (now : Z) (symbol : string) (days : Z)
    (period : nat) (sinceTimestamp : option Z) :
  ((∃ msg, Oversold.fetchHistoricalRSI net now symbol days period sinceTimestamp = Throw msg)
   ↔ (∃ msg, net symbol = Throw msg)
     ∨ (∃ klines, net symbol = Ok klines ∧ 0 < length klines < period + 1))
  ∧ (net symbol = Ok [] →
     Oversold.fetchHistoricalRSI net now symbol days period sinceTimestamp = Ok []).
Proof.
  unfold Oversold.fetchHistoricalRSI.
  destruct (net symbol) as [klines|msg].
  - split; [|by intros [= ->]].
    destruct klines as [|k klines].
    { split; [by intros [? ?]|]. intros [[? ?]|(? & [= <-] & ?)]; [done|simpl in *; lia]. }
    cbv zeta. unfold RSI.calculateRSI.
    rewrite length_fmap, sortWith_length.
    destruct (length (k :: klines) <? period + 1) eqn:E.
    + apply Nat.ltb_lt in E. split; [|by eexists].
      intros _. right. exists (k :: klines). split; [done|]. simpl in *. lia.
    + apply Nat.ltb_ge in E. split; [by intros [? ?]|].
      intros [[? ?]|(? & [= <-] & ?)]; [done|lia].
  - split; [|done]. split; [|by eexists]. intros _. left. by eexists.
Qed.

Lemma fetchHistoricalRSI_fails_witness :
  Oversold.fetchHistoricalRSI (λ _, Ok []) 0 "BTC/USDT" 7 14 None = Ok [].
Proof.
  apply (proj2 (fetchHistoricalRSI_fails (λ _, Ok []) 0 "BTC/USDT" 7 14 None)).
  reflexivity.
Defined.

(** ** IncrementalCache: what the merge keeps *)

Section MergeKeeps.
Context {A : Type} (keyOf : A → string) (compareFn : A → A → Z) (rank : A → Z).
Hypothesis compareFn_rank : ∀ x y, (compareFn x y <= 0)%Z ↔ (rank x <= rank y)%Z.
Hypothesis keyOf_rank : ∀ x y, keyOf x = keyOf y → rank x = rank y.

(** The loop keeps the first element of each key it has not seen. *)
Lemma uniqueFrom_first (seen : gset string) (l : list A) (k : string) (x : A) (rest : list A) :
  filter (λ y, keyOf y = k) l = x :: rest → k ∉ seen → x ∈ uniqueFrom keyOf seen l.
Proof.
  revert seen. induction l as [|y l IH]; intros seen; [done|].
  rewrite filter_cons. simpl. destruct (decide (keyOf y = k)) as [Hk|Hk].
  - intros [= -> _] Hseen. rewrite decide_False by (by rewrite Hk).
    apply list_elem_of_here.
  - intros Hfilter Hseen. destruct (decide (keyOf y ∈ seen)); [by apply IH|].
    apply list_elem_of_further, IH; [done|].
    intros [Hin%elem_of_singleton|Hin]%elem_of_union; [by apply Hk | by apply Hseen].
Qed.

(** Sorting leaves an array of elements of one rank as it is. *)
Lemma sortWith_same_rank (l : list A) :
  (∀ x y, x ∈ l → y ∈ l → rank x = rank y) → sortWith compareFn l = l.
Proof.
  induction l as [|x l IH]; intros Hrank; [done|]. simpl.
  rewrite IH by (intros y z Hy Hz; apply Hrank; by apply list_elem_of_further).
  apply (insertSorted_front compareFn rank compareFn_rank).
  apply Forall_forall. intros y Hy.
  rewrite (Hrank x y); [lia | apply list_elem_of_here | by apply list_elem_of_further].
Qed.

Lemma filter_key_NoDup (l : list A) (x : A) :
  NoDup (keyOf <$> l) → x ∈ l → filter (λ y, keyOf y = keyOf x) l = [x].
Proof.
  induction l as [|y l IH]; [by intros _ ?%not_elem_of_nil|].
  rewrite fmap_cons, NoDup_cons, filter_cons. intros [Hy Hnd] [->|Hx]%elem_of_cons.
  - rewrite decide_True by done. f_equal.
    clear IH Hnd. induction l as [|z l IH]; [done|].
    rewrite filter_cons. rewrite fmap_cons, not_elem_of_cons in Hy.
    destruct Hy as [Hz Hy]. rewrite decide_False by done. by apply IH.
  - rewrite decide_False; [by apply IH|].
    intros Hkey. apply Hy. rewrite Hkey. by apply list_elem_of_fmap_2.
Qed.

Lemma merge_keeps (cached increment : list A) (x : A) :
  NoDup (keyOf <$> cached) → x ∈ cached →
  x ∈ uniqueFrom keyOf ∅ (sortWith compareFn (cached ++ increment)).
Proof.
  intros Hnd Hx.
  apply (uniqueFrom_first ∅ _ (keyOf x) x (filter (λ y, keyOf y = keyOf x) increment));
    [|apply not_elem_of_empty].
  rewrite (filter_sortWith compareFn rank compareFn_rank).
  rewrite sortWith_same_rank.
  - by rewrite filter_app, filter_key_NoDup.
  - intros y z [Hy _]%list_elem_of_filter [Hz _]%list_elem_of_filter.
    apply keyOf_rank. by rewrite Hy, Hz.
Qed.

Lemma merge_elem (cached increment : list A) (x : A) :
  x ∈ uniqueFrom keyOf ∅ (sortWith compareFn (cached ++ increment)) →
  x ∈ cached ∨ x ∈ increment.
Proof.
  intros [Hx _]%uniqueFrom_elem. rewrite (sortWith_perm compareFn) in Hx.
  by apply elem_of_app.
Qed.

Lemma merge_covers (cached increment : list A) (x : A) :
  x ∈ cached ++ increment →
  ∃ y, y ∈ uniqueFrom keyOf ∅ (sortWith compareFn (cached ++ increment))
       ∧ keyOf y = keyOf x.
Proof.
  intros Hx. rewrite <- (sortWith_perm compareFn) in Hx.
  destruct (uniqueFrom_keys keyOf ∅ _ x Hx) as [Hseen|Hkept];
    [by apply not_elem_of_empty in Hseen|].
  apply list_elem_of_fmap in Hkept as (y & Hkey & Hy). by exists y.
Qed.
End MergeKeeps.

(** X16. The merge neither invents nor forgets a key, and the cache wins:
    every element of the merged array comes from the cached array or from
    the increment, every key of either is present in it, and every element
    of a cached array without duplicate keys is kept as it is, whatever the
    increment holds under the same key. This holds of the oversold events
    and of the breakout signals. *)
Theorem merge_keeps_cached :
  (∀ cachedData allEvents : list Event.t,
     NoDup (Oversold.keyOf <$> cachedData) →
     (∀ e, e ∈ cachedData → e ∈ Oversold.merge cachedData allEvents)
     ∧ (∀ e, e ∈ Oversold.merge cachedData allEvents → e ∈ cachedData ∨ e ∈ allEvents)
     ∧ (∀ e, e ∈ allEvents →
             ∃ kept, kept ∈ Oversold.merge cachedData allEvents
                     ∧ Event.symbol kept = Event.symbol e
                     ∧ Event.timestamp kept = Event.timestamp e))
  ∧ (∀ cachedData allSignals : list Signal.t,
       NoDup (Signals.keyOf <$> cachedData) →
       (∀ s, s ∈ cachedData → s ∈ Signals.merge cachedData allSignals)
       ∧ (∀ s, s ∈ Signals.merge cachedData allSignals →
               s ∈ cachedData ∨ s ∈ allSignals)
       ∧ (∀ s, s ∈ allSignals →
               ∃ kept, kept ∈ Signals.merge cachedData allSignals
                       ∧ Signals.keyOf kept = Signals.keyOf s)).
Proof.
  split.
  - intros cachedData allEvents Hnd. unfold Oversold.merge, Oversold.sortUnique.
    split; [|split].
    + intros e He.
      apply (merge_keeps Oversold.keyOf Oversold.byTimestampDesc
               (λ e, - Event.timestamp e)%Z byTimestampDesc_rank); [|done..].
      intros x y Hkey. apply keyOf_inj in Hkey as [_ Ht]. by rewrite Ht.
    + intros e. apply merge_elem.
    + intros e He.
      destruct (merge_covers Oversold.keyOf Oversold.byTimestampDesc cachedData allEvents e)
        as (kept & Hkept & Hkey); [apply elem_of_app; by right|].
      exists kept. split; [done|]. by apply keyOf_inj.
  - intros cachedData allSignals Hnd. unfold Signals.merge. split; [|split].
    + intros s Hs.
      apply (merge_keeps Signals.keyOf Signals.byReentryDesc
               (λ e, - Signal.reentryTime e)%Z byReentryDesc_rank); [|done..].
      intros x y Hkey. by rewrite (signal_keyOf_reentry x y Hkey).
    + intros s. apply merge_elem.
    + intros s Hs. apply merge_covers. apply elem_of_app. by right.
Qed.

Lemma merge_keeps_cached_witness :
  Oversold.sampleEvent "BTC" 7200000 25
  ∈ Oversold.merge [Oversold.sampleEvent "BTC" 7200000 25]
      [Oversold.sampleEvent "BTC" 7200000 26; Oversold.sampleEvent "ETH" 3600000 28].
Proof.
  apply (proj1 merge_keeps_cached [Oversold.sampleEvent "BTC" 7200000 25]).
  - apply NoDup_singleton.
  - apply list_elem_of_here.
Defined.

(** X17. A forced refresh of [fetchOversoldHistory] that finds no new
    event, with a cache that holds events, returns the cached events but
    writes the empty array to the cache: the events are not in the cache
    any more. *)
Theorem fetchOversoldHistory_forced_empties_cache
    (numberToString : Q → string) (net : string → result (list Candle)) (now : Z)
    (store : gmap string (Cache.Entry (list Event.t)))
    (symbols : list string) (days : Z) (rsiThreshold : Q)
    (cached : Cache.Entry (list Event.t)) :
  let key := Oversold.cacheKey numberToString symbols days rsiThreshold in
  let latest := maxOf (Event.timestamp <$> Cache.data cached) in
  store !! (Cache.CACHE_PREFIX +:+ key) = Some cached →
  (Cache.expiry cached = 0 ∨ now <= Cache.timestamp cached + Cache.expiry cached)%Z →
  Cache.data cached ≠ [] →
  (∀ symbol, symbol ∈ symbols →
     Oversold.oversoldEventsOf net now days rsiThreshold (Some (latest - 60 * 1000)%Z) symbol
     = []) →
  Oversold.fetchOversoldHistory numberToString net now store symbols days rsiThreshold true
  = (Cache.data cached, Cache.set store now key [] (60 * 60 * 1000)%Z).
Proof.
  intros key latest Hget Hexp Hdata Hnone.
  unfold Oversold.fetchOversoldHistory. fold key.
  rewrite (get_unexpired _ _ _ _ Hget Hexp).
  assert (Hlen : (0 <? length (Cache.data cached)) = true).
  { apply Nat.ltb_lt. destruct (Cache.data cached); simpl; [done | lia]. }
  rewrite Hlen. cbn [fmap option_fmap option_map negb andb]. fold latest.
  assert (Hall : mjoin (Oversold.oversoldEventsOf net now days rsiThreshold
                          (Some (latest - 60 * 1000)%Z) <$> symbols) = []).
  { clear -Hnone. induction symbols as [|symbol symbols IH]; [done|].
    rewrite fmap_cons. cbn [mjoin list_join].
    rewrite Hnone by apply list_elem_of_here.
    apply IH. intros s Hs. by apply Hnone, list_elem_of_further. }
  rewrite Hall. done.
Qed.

Lemma fetchOversoldHistory_forced_empties_cache_witness :
  let cached := Cache.mkEntry [Oversold.sampleEvent "BTC" 7200000 25] 7200000 3600000 in
  let store := {[ Cache.CACHE_PREFIX +:+ Oversold.cacheKey Oversold.printFloor ["BTC/USDT"] 7 30
                  := cached ]} in
  Oversold.fetchOversoldHistory Oversold.printFloor (λ _, Throw "offline") 7300000 store
    ["BTC/USDT"] 7 30 true
  = ([Oversold.sampleEvent "BTC" 7200000 25],
     Cache.set store 7300000 (Oversold.cacheKey Oversold.printFloor ["BTC/USDT"] 7 30) []
       (60 * 60 * 1000)%Z).
Proof.
  apply (fetchOversoldHistory_forced_empties_cache Oversold.printFloor (λ _, Throw "offline")
           7300000 _ ["BTC/USDT"] 7 30
           (Cache.mkEntry [Oversold.sampleEvent "BTC" 7200000 25] 7200000 3600000)).
  - apply lookup_singleton_eq.
  - right. simpl. lia.
  - done.
  - intros symbol _. reflexivity.
Defined.

(** ** BreakoutDetector: the shape of the scan *)

Lemma closePosition_cases (s : Breakout.Pair) (c : Candle) :
  Breakout.closePosition s c = (false, s)
  ∨ ∃ res, res ≠ Breakout.pending
           ∧ Breakout.closePosition s c = (true, Breakout.setResult res s).
Proof.
  unfold Breakout.closePosition.
  destruct (_ && _); [right; by exists Breakout.loss|].
  destruct (_ && _); [right; by exists Breakout.loss|]. cbn [negb].
  destruct (_ && _); [right; by exists Breakout.win|].
  destruct (_ && _); [right; by exists Breakout.win|]. by left.
Qed.

Lemma insert_last {A : Type} (front : list A) (x y : A) :
  <[length (front ++ [x]) - 1 := y]> (front ++ [x]) = front ++ [y].
Proof.
  rewrite length_app. simpl. replace (length front + 1 - 1) with (length front + 0) by lia.
  by rewrite insert_app_r.
Qed.

Lemma createdAt_setResult candles b r res s :
  Breakout.createdAt candles b r s → Breakout.createdAt candles b r (Breakout.setResult res s).
Proof. by destruct s. Qed.

Lemma framed_setResult rangeHigh rangeLow res s :
  Shape.framed rangeHigh rangeLow s → Shape.framed rangeHigh rangeLow (Breakout.setResult res s).
Proof. by destruct s. Qed.

Lemma spanned_setResult candles bound res s :
  Shape.spanned candles bound s → Shape.spanned candles bound (Breakout.setResult res s).
Proof. intros (b & r & ? & ?). exists b, r. split; [by apply createdAt_setResult|done]. Qed.

Lemma spanned_mono candles bound bound' s :
  bound ≤ bound' → Shape.spanned candles bound s → Shape.spanned candles bound' s.
Proof. intros ? (b & r & ? & ?). exists b, r. split; [done|lia]. Qed.

Lemma before_setResult candles res s s' :
  Shape.before candles s s' → Shape.before candles s (Breakout.setResult res s').
Proof.
  intros (b & r & b' & r' & ? & ? & ?). exists b, r, b', r'.
  split; [done|]. split; [by apply createdAt_setResult|done].
Qed.

Lemma StronglySorted_snoc {A : Type} (R : A → A → Prop) (l : list A) (x : A) :
  StronglySorted R (l ++ [x]) ↔ StronglySorted R l ∧ Forall (λ y, R y x) l.
Proof.
  induction l as [|y l IH]; simpl.
  - split; [by repeat constructor|]. intros _. repeat constructor.
  - rewrite !StronglySorted_cons, IH, Forall_app, Forall_singleton, Forall_cons. tauto.
Qed.

Section ScanShape.
Import Breakout.
Variables rangeHigh rangeLow : Q.
Variable candles : list Candle.

Local Abbreviation scanShape := (Shape.scanShape rangeHigh rangeLow candles).
Local Abbreviation detect := (detect rangeHigh rangeLow candles).
Local Abbreviation scanStep := (scanStep rangeHigh rangeLow candles).

Lemma newSignalAt_framed first i candle :
  candles !! i = Some candle →
  Shape.tracked rangeHigh rangeLow candles i first →
  Shape.insideRange rangeHigh rangeLow (close candle) →
  Shape.framed rangeHigh rangeLow (newSignalAt rangeHigh rangeLow candles first i candle).
Proof.
  intros Hc (Hwait & Hout & Htime & _) Hin.
  pose proof (newSignalAt_createdAt rangeHigh rangeLow candles first i candle Hc Hwait)
    as (_ & _ & _ & Hbp & Hep).
  destruct Hwait as (_ & _ & Hprice).
  revert Hbp Hep. unfold Shape.framed, newSignalAt.
  destruct (bool_decide _); destruct (Qgtb _ _); simpl; intros Hbp Hep; done.
Qed.

(** A step that leaves the state as it is. *)
Lemma tracked_next i first :
  Shape.tracked rangeHigh rangeLow candles i first →
  Shape.tracked rangeHigh rangeLow candles (S i) first.
Proof.
  intros ((? & ? & ?) & ? & ? & ?). unfold Shape.tracked, waiting. split_and!; try done. lia.
Qed.

Lemma scanShape_next i st :
  scanShape i st → scanShape (S i) st.
Proof.
  intros (H1 & H2 & H3 & H4 & H5 & H6 & H7).
  unfold Shape.scanShape. split_and!; try done.
  - eapply Forall_impl; [done|]. intros s. apply spanned_mono.
    unfold Shape.boundOf. destruct (firstBreakout st); lia.
  - intros first Hfirst. by apply tracked_next, H7.
Qed.

Lemma detect_shape st i c :
  candles !! i = Some c →
  hasOpenPosition st = false →
  scanShape i st → scanShape (S i) (detect st i c).
Proof.
  intros Hc Hopen Hinv. pose proof Hinv as (H1 & H2 & H3 & H4 & H5 & H6 & H7).
  specialize (H2 Hopen). unfold Breakout.detect.
  destruct (firstBreakout st) as [first|] eqn:Hfirst.
  - destruct (_ || _); [by apply scanShape_next|].
    destruct (_ && _) eqn:Hinside; [|by apply scanShape_next].
    apply andb_true_iff in Hinside as [Hhi%Qle_bool_iff Hlo%Qle_bool_iff].
    pose proof (H7 first eq_refl) as Htracked. pose proof Htracked as (Hwait & _).
    pose proof (newSignalAt_createdAt rangeHigh rangeLow candles first i c Hc Hwait)
      as Hcreated.
    pose proof (newSignalAt_framed first i c Hc Htracked (conj Hlo Hhi)) as Hframed.
    assert (Hpending : result (newSignalAt rangeHigh rangeLow candles first i c) = pending).
    { unfold newSignalAt. destruct (bool_decide _); destruct (Qgtb _ _); done. }
    set (new := newSignalAt rangeHigh rangeLow candles first i c) in *.
    unfold Shape.scanShape, Shape.boundOf. simpl. split_and!.
    + intros front s [<- _]%app_inj_tail. done.
    + done.
    + intros _. split; [done|]. exists new. by rewrite last_snoc.
    + apply Forall_app. split; [done|]. by apply Forall_singleton.
    + apply Forall_app. split.
      * eapply Forall_impl; [done|]. intros s. apply spanned_mono.
        unfold Shape.boundOf. rewrite Hfirst. destruct Hwait. lia.
      * apply Forall_singleton. exists (firstBreakoutIndex first), i. split; [done|lia].
    + apply StronglySorted_snoc. split; [done|].
      eapply Forall_impl; [done|]. intros s (b & r & Hs & Hr).
      unfold Shape.boundOf in Hr. rewrite Hfirst in Hr.
      by exists b, r, (firstBreakoutIndex first), i.
    + done.
  - destruct (Qgtb (close c) rangeHigh || Qltb (close c) rangeLow) eqn:Hbreak;
      [|by apply scanShape_next].
    unfold Shape.scanShape, Shape.boundOf. simpl. rewrite Hopen. split_and!; try done.
    + eapply Forall_impl; [done|]. intros s. apply spanned_mono.
      unfold Shape.boundOf. rewrite Hfirst. lia.
    + intros first [= <-]. unfold Shape.tracked, waiting. simpl. split_and!; try done; [lia|].
      apply orb_true_iff in Hbreak as [?%Qgtb_true|?%Qltb_true]; [by left|by right].
Qed.

Lemma scanStep_shape st i :
  i < length candles →
  scanShape i st → scanShape (S i) (scanStep st i).
Proof.
  intros Hi Hinv. unfold Breakout.scanStep.
  destruct (candles !! i) as [c|] eqn:Hc; [|apply lookup_ge_None in Hc; lia].
  destruct (hasOpenPosition st) eqn:Hopen; [|by apply detect_shape].
  pose proof Hinv as (H1 & _ & H3 & H4 & H5 & H6 & H7).
  destruct (H3 Hopen) as (Hnone & s & Hlast & Hpending).
  rewrite Hlast, Hpending. rewrite bool_decide_eq_true_2 by done.
  pose proof Hlast as [front Hfront]%last_Some.
  specialize (H1 front s Hfront).
  destruct (closePosition_cases s c) as [->|(res & Hres & ->)]; cbv zeta;
    rewrite Hfront, insert_last.
  - rewrite <- Hfront.
    replace {| firstBreakout := _ |} with st by (by destruct st; simplify_eq/=).
    by apply scanShape_next.
  - apply detect_shape; [done|done|].
    rewrite Hfront in H4, H5, H6.
    apply Forall_app in H4 as [H4 H4s]. rewrite Forall_singleton in H4s.
    apply Forall_app in H5 as [H5 H5s]. rewrite Forall_singleton in H5s.
    apply StronglySorted_snoc in H6 as [H6 H6s].
    unfold Shape.scanShape, Shape.boundOf. simpl. rewrite Hnone.
    unfold Shape.boundOf in H5, H5s. rewrite Hnone in H5, H5s.
    split_and!; try done.
    + intros front' s' [<- _]%app_inj_tail. done.
    + intros _. apply Forall_app. split; [done|]. constructor; [|constructor].
      unfold Shape.resolved. by destruct s.
    + apply Forall_app. split; [done|]. apply Forall_singleton. by apply framed_setResult.
    + apply Forall_app. split; [done|]. apply Forall_singleton. by apply spanned_setResult.
    + apply StronglySorted_snoc. split; [done|].
      eapply Forall_impl; [done|]. intros s'. apply before_setResult.
Qed.

Lemma scanned_shape n :
  n ≤ length candles → scanShape n (Shape.scanned rangeHigh rangeLow candles n).
Proof.
  unfold Shape.scanned. induction n as [|n IH]; intros Hn.
  - unfold Shape.scanShape. simpl. split_and!; try done; try constructor.
    intros front s Hnil. by destruct front.
  - rewrite seq_S. unfold scanFrom. rewrite foldl_app. simpl.
    apply scanStep_shape; [lia|]. apply IH. lia.
Qed.
End ScanShape.

(** X18. At every point of the scan of a day there is at most one open
    position: the position is open exactly when the last signal of the
    array is pending, every earlier signal has been closed as a win or a
    loss, and no breakout is waiting for its re-entry while the position is
    open. In particular the branch of the loop that meets an open position
    whose last signal is not pending is never taken. *)
Theorem scan_one_open_position
    (rangeHigh rangeLow : Q) (candlesAfterRange : list Candle) (n : nat) :
  n ≤ length candlesAfterRange →
  let st := Shape.scanned rangeHigh rangeLow candlesAfterRange n in
  let pairs := Breakout.validBreakoutReentryPairs st in
  (Breakout.hasOpenPosition st = true
   ↔ ∃ s, last pairs = Some s ∧ Breakout.result s = Breakout.pending)
  ∧ (∀ j s, pairs !! j = Some s → j + 1 < length pairs →
            Breakout.result s ≠ Breakout.pending)
  ∧ (Breakout.hasOpenPosition st = true → Breakout.firstBreakout st = None).
Proof.
  intros Hn st pairs.
  destruct (scanned_shape rangeHigh rangeLow candlesAfterRange n Hn)
    as (H1 & H2 & H3 & _).
  fold st in H1, H2, H3. fold pairs in H1, H2, H3. split_and!.
  - split; [by intros (_ & Hlast)%H3|].
    intros (s & Hlast & Hpending).
    destruct (Breakout.hasOpenPosition st); [done|].
    specialize (H2 eq_refl). apply last_Some in Hlast as [front Hfront].
    rewrite Hfront, Forall_app, Forall_singleton in H2. by destruct H2 as [_ H2].
  - intros j s Hj Hlt.
    destruct (last pairs) as [lastSignal|] eqn:Hlast.
    + apply last_Some in Hlast as [front Hfront].
      specialize (H1 front lastSignal Hfront). rewrite Hfront in Hj, Hlt.
      rewrite length_app in Hlt. simpl in Hlt.
      rewrite lookup_app_l in Hj by lia.
      rewrite Forall_lookup in H1. by apply (H1 j).
    + apply last_None in Hlast. rewrite Hlast in Hj. done.
  - by intros (Hnone & _)%H3.
Qed.

Lemma scan_one_open_position_witness :
  let st := Shape.scanned 100 95 Shape.threeTrades 8 in
  Breakout.hasOpenPosition st = true
  ∧ Breakout.result <$> Breakout.validBreakoutReentryPairs st
    = [Breakout.win; Breakout.loss; Breakout.pending].
Proof.
  split; [|vm_compute; reflexivity].
  apply (scan_one_open_position 100 95 Shape.threeTrades 8); [vm_compute; lia|].
  eexists. split; vm_compute; reflexivity.
Defined.

Lemma sortWith_sorted {A : Type} (compareFn : A → A → Z) (rank : A → Z) (l : list A) :
  (∀ x y, (compareFn x y <= 0)%Z ↔ (rank x <= rank y)%Z) →
  StronglySorted (λ a b, (rank a <= rank b)%Z) l → sortWith compareFn l = l.
Proof.
  intros Hrank. induction 1 as [|x l Hl IH Hx]; [done|]. simpl. rewrite IH.
  by apply (insertSorted_front compareFn rank Hrank).
Qed.

(** X19. When the candles of the day come with increasing close times, the
    signals of the day do not overlap: each signal re-enters after it broke
    out, each breakout comes after the re-entry of the signal before it,
    and the array pushed for the day, sorted by breakout time, is the array
    of the signals in the order of their creation. *)
Theorem signals_do_not_overlap
    (rangeHigh rangeLow : Q) (candlesAfterRange : list Candle) :
  (∀ i j a b, i < j → candlesAfterRange !! i = Some a → candlesAfterRange !! j = Some b →
              (closeTime a < closeTime b)%Z) →
  let pairs :=
    Breakout.validBreakoutReentryPairs (Breakout.scanDay rangeHigh rangeLow candlesAfterRange) in
  (∀ s, s ∈ pairs → (Breakout.breakoutTime s < Breakout.reentryTime s)%Z)
  ∧ (∀ j j' s s', j < j' → pairs !! j = Some s → pairs !! j' = Some s' →
                  (Breakout.reentryTime s < Breakout.breakoutTime s')%Z)
  ∧ Breakout.signalsOfDay rangeHigh rangeLow candlesAfterRange = pairs.
Proof.
  intros Htimes pairs.
  destruct (scanned_shape rangeHigh rangeLow candlesAfterRange
              (length candlesAfterRange) (le_n _)) as (_ & _ & _ & H4 & H5 & H6 & _).
  change (Breakout.validBreakoutReentryPairs (Shape.scanned _ _ _ _)) with pairs in H4, H5, H6.
  rewrite Forall_forall in H4, H5.
  assert (Hspan : ∀ s, s ∈ pairs → (Breakout.breakoutTime s < Breakout.reentryTime s)%Z).
  { intros s Hs. destruct (H4 s Hs) as (_ & _ & _ & -> & ->).
    destruct (H5 s Hs) as (b & r & (Hbr & Hb & Hr & _) & _). by apply (Htimes b r). }
  assert (Hnext : ∀ j j' s s', j < j' → pairs !! j = Some s → pairs !! j' = Some s' →
                    (Breakout.reentryTime s < Breakout.breakoutTime s')%Z).
  { intros j j' s s' Hjj' Hj Hj'.
    destruct (H4 s (list_elem_of_lookup_2 _ _ _ Hj)) as (_ & _ & _ & _ & ->).
    destruct (H4 s' (list_elem_of_lookup_2 _ _ _ Hj')) as (_ & _ & _ & -> & _).
    assert (Hbefore : Shape.before candlesAfterRange s s').
    { rewrite <- (take_drop j' pairs) in H6.
      eapply (StronglySorted_app_1_elem_of _ _ _ _ _ H6).
      - apply list_elem_of_lookup. exists j. by rewrite lookup_take_lt.
      - apply list_elem_of_lookup. exists 0. by rewrite lookup_drop, Nat.add_0_r. }
    destruct Hbefore as (b & r & b' & r' & (_ & _ & Hr & _) & (_ & Hb' & _) & Hlt).
    by apply (Htimes r b'). }
  split; [done|]. split; [done|].
  unfold Breakout.signalsOfDay. fold pairs.
  apply (sortWith_sorted _ Breakout.breakoutTime); [intros x y; lia|].
  clear -Hspan Hnext. induction pairs as [|s pairs IH]; [constructor|].
  constructor.
  - apply IH.
    + intros s' Hs'. by apply Hspan, list_elem_of_further.
    + intros j j' a b Hjj' Hj Hj'. apply (Hnext (S j) (S j')); [lia|done..].
  - apply Forall_lookup. intros j s' Hj.
    pose proof (Hnext 0 (S j) s s' ltac:(lia) eq_refl Hj).
    pose proof (Hspan s (list_elem_of_here _ _)). lia.
Qed.

Lemma signals_do_not_overlap_witness :
  Breakout.signalsOfDay 100 95 Shape.threeTrades
  = Breakout.validBreakoutReentryPairs (Breakout.scanDay 100 95 Shape.threeTrades).
Proof.
  apply (signals_do_not_overlap 100 95 Shape.threeTrades).
  intros i j a b Hij Hi Hj.
  assert (Hj8 : j < 8) by (by apply lookup_lt_Some in Hj).
  do 8 (destruct j as [|j];
        [do 8 (destruct i as [|i];
               [injection Hi as <-; injection Hj as <-;
                first [lia | vm_compute; reflexivity]|]);
         lia|]).
  lia.
Defined.

(** X20. Every signal of a day broke out of the range and came back into
    it: its breakout price is above [rangeHigh] or below [rangeLow], its
    entry price lies between [rangeLow] and [rangeHigh] and is its
    re-entry price, and its two times are the close times of its breakout
    and re-entry candles. *)
Theorem signals_are_framed (rangeHigh rangeLow : Q) (candlesAfterRange : list Candle) :
  Forall (Shape.framed rangeHigh rangeLow)
    (Breakout.signalsOfDay rangeHigh rangeLow candlesAfterRange).
Proof.
  unfold Breakout.signalsOfDay.
  eapply Permutation_Forall; [symmetry; apply sortWith_perm|].
  by destruct (scanned_shape rangeHigh rangeLow candlesAfterRange
                 (length candlesAfterRange) (le_n _)) as (_ & _ & _ & H4 & _).
Qed.

Lemma slice_last (candles : list Candle) (b r : nat) (x : Candle) :
  b ≤ r → candles !! r = Some x → x ∈ slice b (r + 1) candles.
Proof.
  intros Hbr Hr. unfold slice. apply list_elem_of_lookup. exists (r - b).
  rewrite lookup_take_lt by lia. rewrite lookup_drop.
  by replace (b + (r - b)) with r by lia.
Qed.



Lemma setResult_same (s : Breakout.Pair) : Breakout.setResult (Breakout.result s) s = s.
Proof. by destruct s. Qed.

Lemma setResult_twice (res res' : Breakout.Outcome) (s : Breakout.Pair) :
  Breakout.setResult res (Breakout.setResult res' s) = Breakout.setResult res s.
Proof. by destruct s. Qed.

Section SignalsAreFinal.
Import Breakout.
Variables rangeHigh rangeLow : Q.
Variable candles : list Candle.

(** [s'] is [s] with, possibly, another result; it is [s] if [s] was closed. *)
Local Abbreviation settled :=
  (λ s s' : Pair, s' = setResult (result s') s ∧ (result s ≠ pending → s' = s)).

Lemma detect_keeps st i c j s :
  validBreakoutReentryPairs st !! j = Some s →
  validBreakoutReentryPairs (detect rangeHigh rangeLow candles st i c) !! j = Some s.
Proof.
  intros Hj. destruct (detect_pairs rangeHigh rangeLow candles st i c) as [new ->].
  by apply lookup_app_l_Some.
Qed.

Lemma scanStep_keeps st i j s :
  validBreakoutReentryPairs st !! j = Some s →
  ∃ s', validBreakoutReentryPairs (scanStep rangeHigh rangeLow candles st i) !! j = Some s'
        ∧ settled s s'.
Proof.
  intros Hj.
  assert (Hsame : settled s s) by (by rewrite setResult_same).
  unfold scanStep. destruct (candles !! i) as [c|]; [|by exists s].
  destruct (hasOpenPosition st); [|exists s; split; [by apply detect_keeps|done]].
  destruct (last (validBreakoutReentryPairs st)) as [lastSignal|] eqn:Hlast;
    [|exists s; split; [by apply detect_keeps|done]].
  destruct (bool_decide (result lastSignal = pending)) eqn:Hpending;
    [|exists s; split; [by apply detect_keeps|done]].
  apply bool_decide_eq_true in Hpending.
  apply last_Some in Hlast as [front Hfront].
  assert (Hupdated : ∀ res,
    ∃ s', (front ++ [setResult res lastSignal]) !! j = Some s' ∧ settled s s').
  { intros res. rewrite Hfront in Hj.
    destruct (decide (j < length front)) as [Hlt|Hge].
    - rewrite lookup_app_l in Hj by done. exists s. by rewrite lookup_app_l.
    - rewrite lookup_app_r in Hj by lia. rewrite lookup_app_r by lia.
      destruct (j - length front) as [|k]; [|done]. injection Hj as <-.
      exists (setResult res lastSignal). split; [done|]. split.
      + destruct lastSignal; done.
      + by intros []. }
  destruct (closePosition_cases lastSignal c) as [->|(res & Hres & ->)]; cbv zeta;
    rewrite Hfront, insert_last.
  - exists s. by rewrite <- Hfront.
  - destruct (Hupdated res) as (s' & Hs' & Hsettled). exists s'.
    split; [by apply detect_keeps|done].
Qed.

Lemma scanFrom_keeps indices st j s :
  validBreakoutReentryPairs st !! j = Some s →
  ∃ s', validBreakoutReentryPairs (scanFrom rangeHigh rangeLow candles st indices) !! j
        = Some s'
        ∧ settled s s'.
Proof.
  revert st s. induction indices as [|i indices IH]; intros st s Hj; simpl.
  - exists s. by rewrite setResult_same.
  - destruct (scanStep_keeps st i j s Hj) as (s1 & Hs1 & Heq1 & Hfinal1).
    destruct (IH _ s1 Hs1) as (s' & Hs' & Heq' & Hfinal').
    exists s'. split; [done|]. split.
    + rewrite Heq', Heq1 at 1. by rewrite setResult_twice.
    + intros Hres. rewrite <- (Hfinal1 Hres). apply Hfinal'.
      by rewrite (Hfinal1 Hres).
Qed.
End SignalsAreFinal.

(** X22. The scan never removes or moves a signal, never changes a field
    of a signal other than its result, and never changes the result of a
    signal that was closed: whatever candles are read next, a signal of
    result win or loss stays as it is. *)
Theorem signals_are_final
    (rangeHigh rangeLow : Q) (candlesAfterRange : list Candle)
    (st : Breakout.ScanState) (indices : list nat) (j : nat) (s : Breakout.Pair) :
  Breakout.validBreakoutReentryPairs st !! j = Some s →
  ∃ s',
    Breakout.validBreakoutReentryPairs
      (Breakout.scanFrom rangeHigh rangeLow candlesAfterRange st indices) !! j = Some s'
    ∧ s' = Breakout.setResult (Breakout.result s') s
    ∧ (Breakout.result s ≠ Breakout.pending → s' = s).
Proof.
  intros Hj.
  destruct (scanFrom_keeps rangeHigh rangeLow candlesAfterRange indices st j s Hj)
    as (s' & Hs' & Hfields & Hfinal).
  by exists s'.
Qed.

Lemma signals_are_final_witness :
  ∃ s',
    Breakout.validBreakoutReentryPairs
      (Breakout.scanFrom 100 95 [Breakout.bothHit] Breakout.openState [0]) !! 0 = Some s'
    ∧ s' = Breakout.setResult (Breakout.result s') Breakout.openLong.
Proof.
  destruct (signals_are_final 100 95 [Breakout.bothHit] Breakout.openState [0] 0
              Breakout.openLong eq_refl) as (s' & Hs' & Hfields & _).
  by exists s'.
Defined.

(** ** BreakoutDetector: the look-ahead of a pending signal *)

Section LookAheadFacts.
Import Breakout.

Lemma checkCandles_first (s : Pair) (c : Candle) (post : list Candle) :
  checkCandles s (c :: post)
  = if decide (hitsStopLoss s c) then setResult loss s
    else if decide (hitsTakeProfit s c) then setResult win s
    else checkCandles s post.
Proof.
  cbn [checkCandles].
  destruct (decide (hitsStopLoss s c)) as [Hsl|Hsl];
    [|destruct (decide (hitsTakeProfit s c)) as [Htp|Htp]];
    unfold hitsStopLoss, hitsTakeProfit in *;
    destruct (breakoutDirection s); simpl;
    rewrite <- ?Qle_bool_iff in *;
    repeat match goal with
           | H : ¬ (_ = true) |- _ => apply not_true_is_false in H
           | H : _ = _ |- _ => rewrite H
           end; done.
Qed.

(** The loop over the candles after the re-entry: it stops at the first
    candle that reaches a level, or leaves the signal as it is. *)
Lemma checkCandles_outcome (s : Pair) (candles : list Candle) :
  (Forall (λ c, ¬ hitsStopLoss s c ∧ ¬ hitsTakeProfit s c) candles
   ∧ checkCandles s candles = s)
  ∨ ∃ c, LookAhead.firstDecisive s candles c
         ∧ checkCandles s candles
           = setResult (if decide (hitsStopLoss s c) then loss else win) s.
Proof.
  induction candles as [|c candles IH]; [left; by split|].
  rewrite checkCandles_first.
  destruct (decide (hitsStopLoss s c)) as [Hsl|Hsl].
  { right. exists c. rewrite decide_True by done. split; [|done].
    exists [], candles. split; [done|]. split; [constructor|by left]. }
  destruct (decide (hitsTakeProfit s c)) as [Htp|Htp].
  { right. exists c. rewrite decide_False by done. split; [|done].
    exists [], candles. split; [done|]. split; [constructor|by right]. }
  destruct IH as [[Hnone Hsame]|(d & (pre & post & -> & Hpre & Hd) & Hres)].
  - left. split; [by constructor|done].
  - right. exists d. split; [|done].
    exists (c :: pre), post. split; [done|]. split; [by constructor|done].
Qed.

(** The first decisive candle of an array is unique as a position. *)
Lemma firstDecisive_checkCandles (s : Pair) (candles : list Candle) (c : Candle) :
  LookAhead.firstDecisive s candles c →
  checkCandles s candles = setResult (if decide (hitsStopLoss s c) then loss else win) s.
Proof.
  intros (pre & post & -> & Hpre & Hc). rewrite checkCandles_skip by done.
  rewrite checkCandles_first. destruct (decide (hitsStopLoss s c)); [done|].
  destruct Hc as [?|Htp]; [done|]. by rewrite decide_True.
Qed.
End LookAheadFacts.

(** X23. The look-ahead of a pending signal changes nothing but its
    result, and decides it on the first candle after the re-entry candle
    that reaches the stop-loss or the take-profit: a loss if that candle
    reaches the stop-loss, a win otherwise. The signal stays pending when
    the re-entry candle is not among the candles fetched, or when no later
    candle reaches a level. *)
Theorem resolvePending_outcome
    (pendingSignal : Breakout.Pair) (additionalCandles : list Candle) :
  Breakout.result pendingSignal = Breakout.pending →
  let resolved := Breakout.resolvePending additionalCandles pendingSignal in
  resolved = Breakout.setResult (Breakout.result resolved) pendingSignal
  ∧ (Breakout.result resolved = Breakout.loss
     ↔ ∃ candles c,
         LookAhead.candlesAfterReentry pendingSignal additionalCandles = Some candles
         ∧ LookAhead.firstDecisive pendingSignal candles c
         ∧ Breakout.hitsStopLoss pendingSignal c)
  ∧ (Breakout.result resolved = Breakout.win
     ↔ ∃ candles c,
         LookAhead.candlesAfterReentry pendingSignal additionalCandles = Some candles
         ∧ LookAhead.firstDecisive pendingSignal candles c
         ∧ ¬ Breakout.hitsStopLoss pendingSignal c)
  ∧ (Breakout.result resolved = Breakout.pending
     ↔ ∀ candles,
         LookAhead.candlesAfterReentry pendingSignal additionalCandles = Some candles →
         Forall (λ c, ¬ Breakout.hitsStopLoss pendingSignal c
                      ∧ ¬ Breakout.hitsTakeProfit pendingSignal c) candles).
Proof.
  intros Hpending resolved. subst resolved.
  unfold Breakout.resolvePending, LookAhead.candlesAfterReentry.
  assert (Hempty : additionalCandles = [] →
            Breakout.findReentryIndex (Breakout.reentryTime pendingSignal)
              additionalCandles 0 = None) by (by intros ->).
  destruct (Breakout.findReentryIndex _ additionalCandles 0) as [reentryIndex|] eqn:Hfind.
  2: { assert (Hsame : match additionalCandles with
                       | [] => pendingSignal
                       | _ :: _ => pendingSignal
                       end = pendingSignal) by (by destruct additionalCandles).
       rewrite Hsame, Hpending. simpl. split_and!.
       - by rewrite <- Hpending, setResult_same.
       - split; [done|]. by intros (? & ? & ? & _).
       - split; [done|]. by intros (? & ? & ? & _).
       - split; [|done]. by intros _ ? ?. }
  destruct additionalCandles as [|c0 rest]; [by specialize (Hempty eq_refl)|].
  cbn [fmap option_fmap option_map].
  remember (drop (reentryIndex + 1) (c0 :: rest)) as candles eqn:Hcandles.
  assert (Hdifferent : ∀ c c',
            LookAhead.firstDecisive pendingSignal candles c →
            LookAhead.firstDecisive pendingSignal candles c' →
            Breakout.hitsStopLoss pendingSignal c ↔ Breakout.hitsStopLoss pendingSignal c').
  { intros c c' Hc Hc'.
    pose proof (firstDecisive_checkCandles _ _ _ Hc) as E.
    rewrite (firstDecisive_checkCandles _ _ _ Hc') in E.
    destruct (decide (Breakout.hitsStopLoss pendingSignal c)),
             (decide (Breakout.hitsStopLoss pendingSignal c')); try done;
      by destruct pendingSignal. }
  destruct (checkCandles_outcome pendingSignal candles)
    as [[Hnone ->]|(c & Hc & ->)].
  - rewrite Hpending. split_and!.
    + by rewrite <- Hpending, setResult_same.
    + split; [done|]. intros (? & d & [= <-] & (pre & post & Heq & _ & Hd) & _).
      rewrite Heq, Forall_app, Forall_cons in Hnone. tauto.
    + split; [done|]. intros (? & d & [= <-] & (pre & post & Heq & _ & Hd) & _).
      rewrite Heq, Forall_app, Forall_cons in Hnone. tauto.
    + split; [|done]. by intros _ ? [= <-].
  - assert (Hres : ∀ res, Breakout.result (Breakout.setResult res pendingSignal) = res)
      by (intros res; by destruct pendingSignal).
    rewrite Hres. split_and!.
    + done.
    + destruct (decide (Breakout.hitsStopLoss pendingSignal c)) as [Hsl|Hsl].
      * split; [|done]. intros _. by exists candles, c.
      * split; [done|]. intros (? & d & [= <-] & Hd & Hdsl).
        exfalso. apply Hsl. by apply (Hdifferent d c).
    + destruct (decide (Breakout.hitsStopLoss pendingSignal c)) as [Hsl|Hsl].
      * split; [done|]. intros (? & d & [= <-] & Hd & Hdsl).
        exfalso. apply Hdsl. by apply (Hdifferent c d).
      * split; [|done]. intros _. by exists candles, c.
    + split.
      * by destruct (decide (Breakout.hitsStopLoss pendingSignal c)).
      * intros Hnone. specialize (Hnone candles eq_refl).
        destruct Hc as (pre & post & Heq & _ & Hd).
        rewrite Heq, Forall_app, Forall_cons in Hnone. tauto.
Qed.

Lemma resolvePending_outcome_witness :
  Breakout.result
    (Breakout.resolvePending
       [Breakout.reentryCandle Breakout.openLong; LookAhead.quiet; LookAhead.reachesTarget]
       Breakout.openLong)
  = Breakout.win.
Proof.
  apply (resolvePending_outcome Breakout.openLong
           [Breakout.reentryCandle Breakout.openLong; LookAhead.quiet;
            LookAhead.reachesTarget] eq_refl).
  exists [LookAhead.quiet; LookAhead.reachesTarget], LookAhead.reachesTarget.
  split; [reflexivity|]. split.
  - exists [LookAhead.quiet], []. split; [reflexivity|]. split.
    + repeat constructor; by vm_compute.
    + right. by vm_compute.
  - by vm_compute.
Defined.

(** ** BreakoutDetector: [fetch5MinKlines] *)

Lemma StronglySorted_sublist {A : Type} (R : A → A → Prop) (l1 l2 : list A) :
  l1 `sublist_of` l2 → StronglySorted R l2 → StronglySorted R l1.
Proof.
  induction 1 as [|x l1 l2 Hsub IH|x l1 l2 Hsub IH]; [done|..].
  - rewrite !StronglySorted_cons. intros [Hx Hl2]. split; [|by apply IH].
    rewrite Forall_forall in Hx. apply Forall_forall. intros y Hy.
    apply Hx. by eapply elem_of_sublist.
  - rewrite StronglySorted_cons. intros [_ Hl2]. by apply IH.
Qed.

Lemma Forall_sublist {A : Type} (P : A → Prop) (l1 l2 : list A) :
  l1 `sublist_of` l2 → Forall P l2 → Forall P l1.
Proof.
  rewrite !Forall_forall. intros Hsub Hl2 x Hx. apply Hl2. by eapply elem_of_sublist.
Qed.

Section FetchFacts.
Variable net : nat → option Z → result (list Candle).
Variable limit : nat.
Variable startTime : option Z.

Local Abbreviation loop := (FiveMin.loop net limit startTime).
Local Abbreviation atOrAfter := (FiveMin.atOrAfter startTime).
Local Abbreviation fetched := (FiveMin.fetched net).

Lemma loop_collects fuel allKlines endTime r :
  Forall (λ c, atOrAfter c ∧ fetched c) allKlines →
  loop fuel allKlines endTime = Some (Ok r) →
  Forall (λ c, atOrAfter c ∧ fetched c) r.
Proof.
  revert allKlines endTime. induction fuel as [|fuel IH]; intros allKlines endTime Hall;
    cbn [FiveMin.loop]; destruct (length allKlines <? limit); try done;
    try by intros [= <-].
  set (batchLimit := Nat.min 1000 (limit - length allKlines + 100)).
  destruct (net batchLimit endTime) as [klines|] eqn:Hnet; [|done].
  destruct klines as [|k klines]; [by intros [= <-]|].
  set (formattedData := k :: klines) in *.
  assert (Hnew : Forall (λ c, atOrAfter c ∧ fetched c)
                   (allKlines ++ filter atOrAfter formattedData)).
  { apply Forall_app. split; [done|]. apply Forall_forall.
    intros c [Hc Hin]%list_elem_of_filter. split; [done|].
    exists batchLimit, endTime, formattedData. split; [unfold batchLimit; lia|done]. }
  destruct (_ && _); [by intros [= <-]|].
  destruct (_ <? _); [by intros [= <-]|].
  destruct (_ <=? _); [by intros [= <-]|].
  by apply IH.
Qed.

Lemma loop_ends fuel allKlines endTime :
  FiveMin.since startTime = None →
  limit - length allKlines ≤ fuel →
  is_Some (loop fuel allKlines endTime).
Proof.
  intros Hsince. revert allKlines endTime.
  induction fuel as [|fuel IH]; intros allKlines endTime Hfuel; cbn [FiveMin.loop];
    destruct (length allKlines <? limit) eqn:Hlt; try done;
    apply Nat.ltb_lt in Hlt; [lia|].
  destruct (net _ endTime) as [klines|]; [|done].
  destruct klines as [|k klines]; [done|].
  destruct (_ && _); [done|]. destruct (_ <? _); [done|]. destruct (_ <=? _); [done|].
  apply IH. rewrite length_app.
  assert (Hkept : k ∈ filter atOrAfter (k :: klines)).
  { apply list_elem_of_filter. split; [|apply list_elem_of_here].
    unfold FiveMin.atOrAfter. by rewrite Hsince. }
  destruct (filter atOrAfter (k :: klines)); [by apply not_elem_of_nil in Hkept|].
  simpl. lia.
Qed.
End FetchFacts.

(** X24. Whatever the exchange answers, an array returned by
    [fetch5MinKlines] is sorted by close time, holds at most [limit]
    candles, only candles that close at or after the start time when one is
    given, and only candles that the exchange returned to one of its
    requests, none of which asked for more than 1000 candles. *)
Theorem fetch5MinKlines_result
    (net : nat → option Z → result (list Candle)) (limit : nat) (startTime : option Z)
    (fuel : nat) (candles : list Candle) :
  FiveMin.fetch5MinKlines net limit startTime fuel = Some (Ok candles) →
  StronglySorted (λ a b, (closeTime a <= closeTime b)%Z) candles
  ∧ length candles ≤ limit
  ∧ Forall (FiveMin.atOrAfter startTime) candles
  ∧ Forall (FiveMin.fetched net) candles.
Proof.
  unfold FiveMin.fetch5MinKlines.
  destruct (FiveMin.loop net limit startTime fuel [] None) as [[allKlines|]|] eqn:Hloop;
    [|done..].
  intros [= <-].
  pose proof (loop_collects net limit startTime fuel [] None allKlines (Forall_nil_2 _) Hloop)
    as Hall.
  set (sorted := sortWith (λ a b, closeTime a - closeTime b)%Z allKlines).
  assert (Hsub : take limit (filter (FiveMin.atOrAfter startTime) sorted) `sublist_of` sorted).
  { etrans; [apply sublist_take|apply sublist_filter]. }
  assert (Hsorted : Forall (λ c, FiveMin.atOrAfter startTime c ∧ FiveMin.fetched net c) sorted).
  { eapply Permutation_Forall; [symmetry; apply sortWith_perm|done]. }
  split_and!.
  - eapply StronglySorted_sublist; [done|]. apply sortWith_ordered, byCloseTime_rank.
  - rewrite length_take. lia.
  - eapply Forall_sublist; [done|]. eapply Forall_impl; [done|]. by intros c [? _].
  - eapply Forall_sublist; [done|]. eapply Forall_impl; [done|]. by intros c [_ ?].
Qed.

Lemma fetch5MinKlines_result_witness :
  ∃ candles,
    FiveMin.fetch5MinKlines FiveMin.recent 3 (Some 700000%Z) 5 = Some (Ok candles)
    ∧ length candles ≤ 3.
Proof.
  destruct (FiveMin.fetch5MinKlines FiveMin.recent 3 (Some 700000%Z) 5)
    as [[candles|]|] eqn:E; [|vm_compute in E; discriminate..].
  exists candles. split; [done|].
  by destruct (fetch5MinKlines_result _ _ _ _ _ E) as (_ & ? & _).
Defined.

(** X25. When the first answer of the exchange holds at least [limit]
    candles that close at or after the start time, [fetch5MinKlines] makes
    no other request and returns the [limit] oldest of them: the most
    recent candles of the answer are the ones left out. *)
Theorem fetch5MinKlines_keeps_oldest
    (net : nat → option Z → result (list Candle)) (limit : nat) (startTime : option Z)
    (fuel : nat) (klines : list Candle) :
  net (Nat.min 1000 (limit + 100)) None = Ok klines →
  limit ≤ length (filter (FiveMin.atOrAfter startTime) klines) →
  FiveMin.fetch5MinKlines net limit startTime (S fuel)
  = Some (Ok (take limit
                (sortWith (λ a b, closeTime a - closeTime b)%Z
                   (filter (FiveMin.atOrAfter startTime) klines)))).
Proof.
  intros Hnet Hmany. unfold FiveMin.fetch5MinKlines.
  assert (Hfinal : ∀ l,
    filter (FiveMin.atOrAfter startTime)
      (sortWith (λ a b, closeTime a - closeTime b)%Z (filter (FiveMin.atOrAfter startTime) l))
    = sortWith (λ a b, closeTime a - closeTime b)%Z (filter (FiveMin.atOrAfter startTime) l)).
  { intros l. rewrite (filter_sortWith _ closeTime byCloseTime_rank).
    f_equal. clear. induction l as [|x l IH]; [done|].
    rewrite filter_cons. destruct (decide (FiveMin.atOrAfter startTime x)) as [Hx|Hx]; [|done].
    rewrite filter_cons, decide_True by done. by rewrite IH. }
  cbn [FiveMin.loop]. cbn [length].
  destruct (0 <? limit) eqn:Hlimit.
  2: { apply Nat.ltb_ge in Hlimit. replace limit with 0 by lia. by rewrite !take_0. }
  rewrite Nat.sub_0_r, Hnet.
  destruct klines as [|k klines]; [simpl in Hmany; apply Nat.ltb_lt in Hlimit; lia|].
  set (filteredData := filter (FiveMin.atOrAfter startTime) (k :: klines)) in *.
  assert (Hsome : (length filteredData =? 0) = false).
  { apply Nat.eqb_neq. apply Nat.ltb_lt in Hlimit. lia. }
  rewrite Hsome, andb_false_r. cbn [andb app].
  assert (Hfull : (limit <=? length filteredData) = true) by by apply Nat.leb_le.
  rewrite Hfull.
  unfold filteredData. destruct (length (k :: klines) <? _); by rewrite Hfinal.
Qed.

Lemma fetch5MinKlines_keeps_oldest_witness :
  FiveMin.fetch5MinKlines FiveMin.recent 3 None 1
  = Some (Ok (take 3 FiveMin.fiveCandles)).
Proof.
  rewrite (fetch5MinKlines_keeps_oldest FiveMin.recent 3 None 0 FiveMin.fiveCandles);
    [reflexivity | reflexivity | vm_compute; lia].
Defined.

(** X26. Without a start time the loop of [fetch5MinKlines] ends after at
    most [limit] requests, with an array or with the error of a request. *)
Theorem fetch5MinKlines_ends
    (net : nat → option Z → result (list Candle)) (limit : nat) (startTime : option Z)
    (fuel : nat) :
  FiveMin.since startTime = None →
  limit ≤ fuel →
  is_Some (FiveMin.fetch5MinKlines net limit startTime fuel).
Proof.
  intros Hsince Hfuel. unfold FiveMin.fetch5MinKlines.
  destruct (loop_ends net limit startTime fuel [] None Hsince) as [[r|msg] ->]; [simpl; lia|..];
    done.
Qed.

Lemma fetch5MinKlines_ends_witness :
  is_Some (FiveMin.fetch5MinKlines FiveMin.recent 3 (Some 0%Z) 3).
Proof.
  apply (fetch5MinKlines_ends FiveMin.recent 3 (Some 0%Z) 3); [reflexivity | lia].
Defined.

(** ** BreakoutDetector: breakouts without re-entry *)

Lemma join_imap_nonempty {A B : Type} (f : nat → A → list B) (l : list A) (i : nat) (x : A) :
  l !! i = Some x → f i x ≠ [] → mjoin (imap f l) ≠ [].
Proof.
  revert f i. induction l as [|y l IH]; intros f i Hi Hne; [done|].
  cbn [imap mjoin list_join]. destruct i as [|i].
  - injection Hi as ->. by destruct (f 0 x).
  - intros [_ Hnil]%app_eq_nil. revert Hnil. by apply (IH (f ∘ S) i).
Qed.

(** X27. At the end of the scan of a day, a breakout that still waits for
    its re-entry is pushed to [breakoutsWithoutReentry] twice when the day
    has no signal, each time with a price request of its own, and at most
    once when the day has signals; nothing is pushed when no breakout
    waits. What is pushed is that breakout: its price is outside the range
    on the side that [isAbove], [isBelow] and [breakoutDirection] tell. *)
Theorem unmatched_breakout_listed
    (symbol dateKey : string) (rangeHigh rangeLow : Q) (rangeCloseTime : Z)
    (candlesAfterRange : list Candle) (prices : nat → result (option Q)) (calls : nat) :
  let st := Breakout.scanDay rangeHigh rangeLow candlesAfterRange in
  let unmatchedOf :=
    DayEnd.unmatchedOf symbol dateKey rangeHigh rangeLow rangeCloseTime in
  let out :=
    DayEnd.breakoutsWithoutReentryOfDay symbol dateKey rangeHigh rangeLow rangeCloseTime
      candlesAfterRange prices calls in
  out.2 = calls + length out.1
  ∧ match Breakout.firstBreakout st with
    | None => out.1 = []
    | Some first =>
        (Breakout.validBreakoutReentryPairs st = [] →
         out.1 = [unmatchedOf first (prices calls); unmatchedOf first (prices (S calls))])
        ∧ (Breakout.validBreakoutReentryPairs st ≠ [] →
           out.1 = [] ∨ out.1 = [unmatchedOf first (prices calls)])
    end
  ∧ Forall (λ w,
              (Unmatched.isAbove w = true ↔ (rangeHigh < Unmatched.breakoutPrice w)%Q)
              ∧ (Unmatched.isBelow w = true ↔ (Unmatched.breakoutPrice w < rangeLow)%Q)
              ∧ (Unmatched.isAbove w = true ∨ Unmatched.isBelow w = true)
              ∧ (Unmatched.breakoutDirection w = Potential.above
                 ↔ Unmatched.isAbove w = true)
              ∧ ∃ candle, candle ∈ candlesAfterRange
                          ∧ closeTime candle = Unmatched.breakoutTime w
                          ∧ close candle = Unmatched.breakoutPrice w)
      out.1.
Proof.
  intros st unmatchedOf out.
  destruct (scanned_shape rangeHigh rangeLow candlesAfterRange
              (length candlesAfterRange) (le_n _)) as (_ & _ & _ & _ & _ & _ & H7).
  change (Shape.scanned _ _ _ _) with st in H7.
  assert (Hone : ∀ first answer,
    Breakout.firstBreakout st = Some first →
    let w := unmatchedOf first answer in
    (Unmatched.isAbove w = true ↔ (rangeHigh < Unmatched.breakoutPrice w)%Q)
    ∧ (Unmatched.isBelow w = true ↔ (Unmatched.breakoutPrice w < rangeLow)%Q)
    ∧ (Unmatched.isAbove w = true ∨ Unmatched.isBelow w = true)
    ∧ (Unmatched.breakoutDirection w = Potential.above ↔ Unmatched.isAbove w = true)
    ∧ ∃ candle, candle ∈ candlesAfterRange
                ∧ closeTime candle = Unmatched.breakoutTime w
                ∧ close candle = Unmatched.breakoutPrice w).
  { intros first answer Hfirst.
    destruct (H7 first Hfirst) as ((_ & Hcandle & Hprice) & Hout & Htime & Hdir).
    simpl. rewrite Hdir. split_and!.
    - apply Qgtb_true.
    - apply Qltb_true.
    - destruct Hout as [?%Qgtb_true|?%Qltb_true]; [by left|by right].
    - by destruct (Qgtb _ _).
    - exists (Breakout.firstBreakoutCandle first).
      split; [by eapply list_elem_of_lookup_2|done]. }
  assert (Hpotential : ∀ first,
    Breakout.firstBreakout st = Some first →
    (length (DayEnd.potentialBreakouts rangeHigh rangeLow candlesAfterRange) =? 0) = false).
  { intros first Hfirst.
    destruct (H7 first Hfirst) as ((_ & Hcandle & Hprice) & Hout & _).
    apply Nat.eqb_neq. unfold DayEnd.potentialBreakouts. rewrite sortWith_length.
    intros Hnil%nil_length_inv. revert Hnil.
    apply (join_imap_nonempty _ _ _ _ Hcandle). rewrite <- Hprice.
    destruct Hout as [Habove%Qgtb_true|Hbelow%Qltb_true].
    - by rewrite Habove.
    - rewrite Hbelow. by destruct (Qgtb _ _). }
  subst out. unfold DayEnd.breakoutsWithoutReentryOfDay, DayEnd.endOfDay. fold st.
  destruct (Breakout.firstBreakout st) as [first|] eqn:Hfirst.
  - rewrite (Hpotential first eq_refl). fold unmatchedOf.
    destruct (Breakout.validBreakoutReentryPairs st) as [|pair pairs] eqn:Hpairs.
    + simpl. split; [lia|]. split.
      * split; [done|]. by intros [].
      * repeat (apply Forall_cons_2; [by apply Hone|]). apply Forall_nil_2.
    + destruct (negb _); simpl; (split; [lia|]); split.
      * split; [done|]. intros _. by right.
      * repeat (apply Forall_cons_2; [by apply Hone|]). apply Forall_nil_2.
      * split; [done|]. intros _. by left.
      * constructor.
  - simpl. destruct (0 <? _), (_ =? 0); simpl; (split; [lia|]); split; done || constructor.
Qed.

Example unmatched_breakout_sample :
  let out := DayEnd.breakoutsWithoutReentryOfDay "BTC/USDT" "2025-11-01" 100 95 0
               DayEnd.noReentry (λ _, Ok (Some 93%Q)) 0 in
  Unmatched.breakoutTime <$> out.1 = [300000%Z; 300000%Z] ∧ out.2 = 2.
Proof. vm_compute. done. Qed.

(** ** IncrementalCache: the cached breakout fetchers *)

Lemma byBreakoutDesc_rank (x y : Unmatched.t) :
  (Unmatcheds.byBreakoutDesc x y <= 0)%Z
  ↔ (- Unmatched.breakoutTime x <= - Unmatched.breakoutTime y)%Z.
Proof. unfold Unmatcheds.byBreakoutDesc. lia. Qed.

Lemma last24Hours_recent (now : Z) (breakouts : list Unmatched.t) :
  Forall (λ b, (now - 24 * 60 * 60 * 1000 <= Unmatched.breakoutTime b)%Z)
    (Unmatcheds.last24Hours now breakouts)
  ∧ StronglySorted (λ a b, (Unmatched.breakoutTime b <= Unmatched.breakoutTime a)%Z)
      (Unmatcheds.last24Hours now breakouts).
Proof.
  unfold Unmatcheds.last24Hours. split.
  - eapply Permutation_Forall; [symmetry; apply sortWith_perm|].
    apply Forall_forall. by intros b [Hb _]%list_elem_of_filter.
  - eapply StronglySorted_mono;
      [|apply (sortWith_ordered _ (λ b, - Unmatched.breakoutTime b)%Z byBreakoutDesc_rank)].
    simpl. lia.
Qed.

(** X28. Every array returned by [fetchBreakoutsWithoutReentry], from the
    cache or after a refresh, whatever the cache held and whatever the
    detector answers, holds only breakouts of the last 24 hours, the most
    recent first; after a refresh that found breakouts, or without cached
    breakouts, it holds no key twice and is what the cache holds. *)
Theorem fetchBreakoutsWithoutReentry_recent
    (detectBreakoutSignals : string → Z → option Z → result Detector.Result) (now : Z)
    (store : gmap string (Cache.Entry (list Unmatched.t)))
    (symbols : list string) (days : Z) (forceRefresh : bool) :
  let out :=
    Detector.fetchBreakoutsWithoutReentry detectBreakoutSignals now store symbols days
      forceRefresh in
  let cacheKey :=
    "breakouts_without_reentry_" +:+ String.concat "_" symbols +:+ "_" +:+ pretty days in
  Forall (λ b, (now - 24 * 60 * 60 * 1000 <= Unmatched.breakoutTime b)%Z) out.1
  ∧ StronglySorted (λ a b, (Unmatched.breakoutTime b <= Unmatched.breakoutTime a)%Z) out.1
  ∧ ((Cache.get store now cacheKey).1 = None →
     NoDup (Unmatcheds.keyOf <$> out.1)
     ∧ out.2 !! (Cache.CACHE_PREFIX +:+ cacheKey)
       = Some (Cache.mkEntry out.1 now (60 * 60 * 1000)%Z)).
Proof.
  intros out cacheKey. subst out. unfold Detector.fetchBreakoutsWithoutReentry.
  fold cacheKey.
  destruct (Cache.get store now cacheKey) as [cached store1]. cbn [fst].
  set (cachedData :=
         match cached with
         | Some (data, _) => if 0 <? length data then Some data else None
         | None => None
         end).
  assert (Hfresh : ∀ merged (st : gmap string (Cache.Entry (list Unmatched.t))),
    let unique := uniqueFrom Unmatcheds.keyOf ∅ (Unmatcheds.last24Hours now merged) in
    Forall (λ b, (now - 24 * 60 * 60 * 1000 <= Unmatched.breakoutTime b)%Z) unique
    ∧ StronglySorted (λ a b, (Unmatched.breakoutTime b <= Unmatched.breakoutTime a)%Z) unique
    ∧ NoDup (Unmatcheds.keyOf <$> unique)
    ∧ Cache.set st now cacheKey unique (60 * 60 * 1000)%Z !! (Cache.CACHE_PREFIX +:+ cacheKey)
      = Some (Cache.mkEntry unique now (60 * 60 * 1000)%Z)).
  { intros merged st unique.
    destruct (last24Hours_recent now merged) as [Hrecent Hsorted]. split_and!.
    - by apply uniqueFrom_Forall.
    - by apply uniqueFrom_sorted.
    - apply uniqueFrom_NoDup.
    - unfold Cache.set. apply lookup_insert_eq. }
  destruct cachedData as [data|] eqn:Hcached; cbn [fmap option_fmap option_map].
  - assert (Hsome : cached ≠ None).
    { intros ->. by subst cachedData. }
    destruct (last24Hours_recent now data) as [Hrecent Hsorted].
    destruct (negb forceRefresh && negb _); cbn [fst snd]; [by split_and!|].
    destruct (0 <? length (mjoin _)); cbn [fst snd].
    + match goal with
      | |- context [Unmatcheds.last24Hours now ?merged] =>
          destruct (Hfresh merged store1) as (? & ? & _)
      end.
      by split_and!.
    + by split_and!.
  - match goal with
    | |- context [Unmatcheds.last24Hours now ?merged] =>
        destruct (Hfresh merged store1) as (? & ? & ? & ?)
    end.
    cbn [fst snd]. by split_and!.
Qed.

Lemma fetchBreakoutsWithoutReentry_recent_witness :
  let out := Detector.fetchBreakoutsWithoutReentry Detector.sampleDetector 400000 ∅
               ["BTC/USDT"] 3 false in
  NoDup (Unmatcheds.keyOf <$> out.1) ∧ length out.1 = 1.
Proof.
  split; [|vm_compute; reflexivity].
  apply (fetchBreakoutsWithoutReentry_recent Detector.sampleDetector 400000 ∅
           ["BTC/USDT"] 3 false).
  reflexivity.
Defined.

Lemma get_signals_valid key (store : gmap string (Cache.Entry (list Signal.t))) now :
  Detector.cacheValid key store →
  Detector.cacheValid key (Cache.get store now key).2
  ∧ ∀ data cachedAt, (Cache.get store now key).1 = Some (data, cachedAt) →
                     Detector.valid data.
Proof.
  intros Hstore. unfold Cache.get.
  destruct (store !! (Cache.CACHE_PREFIX +:+ key)) as [cached|] eqn:Hget; simpl.
  - destruct (negb _ && _)%Z; simpl.
    + split; [|done]. intros c Hc. by rewrite lookup_delete_eq in Hc.
    + split; [done|]. intros data cachedAt [= <- <-]. by apply Hstore.
  - done.
Qed.

Lemma uniqueSignals_valid (mergedSignals : list Signal.t) :
  Detector.valid
    (uniqueFrom Signals.keyOf ∅ (sortWith Signals.byReentryDesc mergedSignals)).
Proof.
  split; [apply uniqueFrom_NoDup|]. apply uniqueFrom_sorted.
  eapply StronglySorted_mono;
    [|apply (sortWith_ordered _ (λ s, - Signal.reentryTime s)%Z byReentryDesc_rank)].
  simpl. lia.
Qed.

(** X29. Starting from a cache that holds no array of signals, or one
    without duplicate keys and sorted by re-entry time, most recent first,
    under the key of the call, [fetchMultipleBreakoutSignals] returns such
    an array and leaves such an array in the cache, whatever the detector
    answers and whether the refresh is forced or not. *)
Theorem fetchMultipleBreakoutSignals_valid
    (detectBreakoutSignals : string → Z → option Z → result Detector.Result) (now : Z)
    (store : gmap string (Cache.Entry (list Signal.t)))
    (symbols : list string) (days : Z) (forceRefresh : bool) :
  let cacheKey := "breakout_signals_" +:+ String.concat "_" symbols +:+ "_" +:+ pretty days in
  let out :=
    Detector.fetchMultipleBreakoutSignals detectBreakoutSignals now store symbols days
      forceRefresh in
  Detector.cacheValid cacheKey store →
  Detector.valid out.1 ∧ Detector.cacheValid cacheKey out.2.
Proof.
  intros cacheKey out Hstore. subst out. unfold Detector.fetchMultipleBreakoutSignals.
  fold cacheKey.
  destruct (get_signals_valid cacheKey store now Hstore) as [Hstore1 Hdata].
  destruct (Cache.get store now cacheKey) as [cached store1]. simpl in Hstore1, Hdata.
  set (cachedData :=
         match cached with
         | Some (data, _) => if 0 <? length data then Some data else None
         | None => None
         end).
  assert (Hcached : ∀ data, cachedData = Some data → Detector.valid data).
  { intros data. subst cachedData. destruct cached as [[d t]|]; [|done].
    destruct (0 <? length d); [|done]. intros [= <-]. by eapply Hdata. }
  assert (Hset : ∀ merged,
            Detector.cacheValid cacheKey
              (Cache.set store1 now cacheKey
                 (uniqueFrom Signals.keyOf ∅ (sortWith Signals.byReentryDesc merged))
                 (60 * 60 * 1000)%Z)).
  { intros merged c. unfold Cache.set. rewrite lookup_insert_eq.
    intros [= <-]. apply uniqueSignals_valid. }
  destruct cachedData as [data|] eqn:Hc; cbn [fmap option_fmap option_map].
  - pose proof (Hcached data eq_refl) as Hvalid.
    destruct (negb forceRefresh && negb _); cbn [fst snd]; [done|].
    destruct (0 <? length (mjoin _)), (negb forceRefresh); cbn [fst snd];
      (split; [try done; apply uniqueSignals_valid | apply Hset]).
  - cbn [fst snd]. split; [apply uniqueSignals_valid | apply Hset].
Qed.

Lemma fetchMultipleBreakoutSignals_valid_witness :
  let out :=
    Detector.fetchMultipleBreakoutSignals Detector.signalDetector 1000000
      Detector.cachedSignals ["BTC/USDT"] 30 false in
  Detector.cacheValid "breakout_signals_BTC/USDT_30" Detector.cachedSignals
  ∧ Signal.reentryTime <$> out.1 = [900000; 600000]%Z
  ∧ Detector.valid out.1
  ∧ Detector.cacheValid "breakout_signals_BTC/USDT_30" out.2.
Proof.
  assert (Hcache :
    Detector.cacheValid "breakout_signals_BTC/USDT_30" Detector.cachedSignals).
  { intros cached Hcached. unfold Detector.cachedSignals in Hcached.
    rewrite lookup_singleton_eq in Hcached. injection Hcached as <-.
    split; simpl; repeat constructor. set_solver. }
  split_and!; [done | vm_compute; reflexivity | |];
    by apply (fetchMultipleBreakoutSignals_valid Detector.signalDetector 1000000
                Detector.cachedSignals ["BTC/USDT"] 30 false).
Defined.

(** ** BreakoutDetector: the range of each day *)

Section MapFacts.
Context {V : Type}.
Implicit Types (map : list (string * V)) (key : string) (value : V).

Lemma mapGet_None key map : Ranges.mapGet key map = None ↔ key ∉ map.*1.
Proof.
  induction map as [|[k v] map IH]; cbn [Ranges.mapGet].
  - split; [intros _; apply not_elem_of_nil|done].
  - rewrite fmap_cons, not_elem_of_cons. destruct (decide (k = key)) as [->|Hne].
    + split; [done|]. by intros [? _].
    + rewrite IH. split; [by intros ?|by intros [_ ?]].
Qed.

Lemma mapGet_Some key map value : Ranges.mapGet key map = Some value → (key, value) ∈ map.
Proof.
  induction map as [|[k v] map IH]; simpl; [done|].
  destruct (decide (k = key)) as [->|Hne].
  - intros [= ->]. apply list_elem_of_here.
  - intros ?. by apply list_elem_of_further, IH.
Qed.

Lemma mapSet_new key value map :
  key ∉ map.*1 → Ranges.mapSet key value map = map ++ [(key, value)].
Proof.
  induction map as [|[k v] map IH]; cbn [Ranges.mapSet]; [done|].
  rewrite fmap_cons, not_elem_of_cons. intros [Hne Hkey].
  rewrite decide_False by done. by rewrite IH.
Qed.

Lemma mapSet_keys key value map :
  key ∈ map.*1 → (Ranges.mapSet key value map).*1 = map.*1.
Proof.
  induction map as [|[k v] map IH]; cbn [Ranges.mapSet]; [by intros ?%not_elem_of_nil|].
  destruct (decide (k = key)) as [->|Hne]; [done|].
  rewrite !fmap_cons. intros [?|Hkey]%elem_of_cons; [done|]. by rewrite IH.
Qed.

Lemma mapSet_elem_NoDup key value map k v :
  NoDup map.*1 → (k, v) ∈ Ranges.mapSet key value map →
  (k = key ∧ v = value) ∨ (k ≠ key ∧ (k, v) ∈ map).
Proof.
  induction map as [|[k0 v0] map IH]; cbn [Ranges.mapSet].
  - intros _ [= -> ->]%list_elem_of_singleton. by left.
  - rewrite fmap_cons, NoDup_cons. intros [Hfresh Hnd].
    destruct (decide (k0 = key)) as [->|Hne].
    + intros [[= -> ->]|Hin]%elem_of_cons; [by left|]. right.
      split; [|by apply list_elem_of_further].
      intros ->. apply Hfresh. apply list_elem_of_fmap. by exists (key, v).
    + intros [[= -> ->]|Hin]%elem_of_cons.
      * right. split; [done|apply list_elem_of_here].
      * destruct (IH Hnd Hin) as [?|[? ?]]; [by left|].
        right. split; [done|by apply list_elem_of_further].
Qed.

Lemma NoDup_keys_unique map key v v' :
  NoDup map.*1 → (key, v) ∈ map → (key, v') ∈ map → v = v'.
Proof.
  induction map as [|[k0 v0] map IH]; [by intros _ ?%not_elem_of_nil|].
  rewrite fmap_cons, NoDup_cons. simpl. intros [Hfresh Hnd].
  assert (Hkey : ∀ w, (key, w) ∈ map → key ∈ map.*1).
  { intros w Hw. apply list_elem_of_fmap. by exists (key, w). }
  intros [[= -> ->]|Hv]%elem_of_cons [Heq|Hv']%elem_of_cons.
  - by injection Heq.
  - exfalso. apply Hfresh. by apply (Hkey v').
  - injection Heq as -> ->. exfalso. apply Hfresh. by apply (Hkey v).
  - by apply IH.
Qed.
End MapFacts.

Lemma elem_of_snoc {A : Type} (l : list A) (x y : A) : y ∈ l ++ [x] ↔ y ∈ l ∨ y = x.
Proof. by rewrite elem_of_app, list_elem_of_singleton. Qed.

Section RangeFacts.
Variable getUTCPlus7Hour : Z → Z.
Variable formatDateUTCPlus7 : Z → string.
Variables now startTime endTime : Z.

Local Abbreviation selected :=
  (Ranges.selected getUTCPlus7Hour formatDateUTCPlus7 now startTime endTime).
Local Abbreviation chosen :=
  (Ranges.chosen getUTCPlus7Hour formatDateUTCPlus7 now startTime endTime).
Local Abbreviation dailyRanges :=
  (Ranges.dailyRanges getUTCPlus7Hour formatDateUTCPlus7 now startTime endTime).

Lemma chosen_more klines c dateKey range :
  chosen klines dateKey range →
  (selected c = true → formatDateUTCPlus7 (closeTime c) = dateKey →
   (Ranges.width c <= Ranges.width (DailyRange.candle range))%Q) →
  chosen (klines ++ [c]) dateKey range.
Proof.
  intros (Hmade & Hin & Hsel & Hdate & Hwide) Hc. unfold Ranges.chosen. split_and!; try done.
  - apply elem_of_app. by left.
  - intros c' [Hc'| ->]%elem_of_snoc; [by apply Hwide|done].
Qed.

Lemma dailyRanges_chosen (klines : list Candle) :
  NoDup (dailyRanges klines).*1
  ∧ (∀ dateKey range, (dateKey, range) ∈ dailyRanges klines → chosen klines dateKey range)
  ∧ (∀ c, c ∈ klines → selected c = true →
          formatDateUTCPlus7 (closeTime c) ∈ (dailyRanges klines).*1).
Proof.
  induction klines as [|c klines (Hnd & Hchosen & Hall)] using rev_ind.
  { split_and!; [constructor|by intros ?? ?%not_elem_of_nil|by intros ? ?%not_elem_of_nil]. }
  unfold Ranges.dailyRanges. rewrite foldl_app. simpl.
  change (foldl _ [] klines) with (dailyRanges klines).
  set (map := dailyRanges klines) in *. unfold Ranges.step.
  set (dateKey := formatDateUTCPlus7 (closeTime c)).
  destruct (selected c) eqn:Hsel.
  2: { split_and!; [done| |].
       - intros k r Hin. apply chosen_more; [by apply Hchosen|]. by rewrite Hsel.
       - intros c' [Hc'| ->]%elem_of_snoc; [by apply Hall|].
         by rewrite Hsel. }
  destruct (Ranges.mapGet dateKey map) as [existing|] eqn:Hget.
  - apply mapGet_Some in Hget.
    assert (Hkey : dateKey ∈ map.*1) by (apply list_elem_of_fmap; by exists (dateKey, existing)).
    destruct (Hchosen _ _ Hget) as (Hmade & Hin & Hsel' & Hdate & Hwide).
    assert (Hwidth : (DailyRange.high existing - DailyRange.low existing
                      == Ranges.width (DailyRange.candle existing))%Q)
      by (rewrite Hmade at 1 2; reflexivity).
    destruct (Qgtb _ _) eqn:Hwider.
    + apply Qgtb_true in Hwider. split_and!.
      * by rewrite mapSet_keys.
      * intros k r Hin'.
        destruct (mapSet_elem_NoDup _ _ _ _ _ Hnd Hin') as [[-> ->]|[Hne Hold]].
        -- unfold Ranges.chosen. split_and!; try done.
           ++ apply elem_of_app. right. by apply list_elem_of_singleton.
           ++ intros c' [Hc'| ->]%elem_of_snoc Hs Hd; [|simpl; lra].
              specialize (Hwide c' Hc' Hs Hd). simpl. unfold Ranges.width in *. lra.
        -- apply chosen_more; [by apply Hchosen|]. by intros _ ?.
      * rewrite mapSet_keys by done.
        intros c' [Hc'| ->]%elem_of_snoc; [by apply Hall|done].
    + apply Qgtb_false in Hwider. split_and!; [done| |].
      * intros k r Hin'. apply chosen_more; [by apply Hchosen|].
        intros _ Hd. fold dateKey in Hd. subst k.
        rewrite (NoDup_keys_unique map dateKey r existing Hnd Hin' Hget).
        unfold Ranges.width in *. lra.
      * intros c' [Hc'| ->]%elem_of_snoc; [by apply Hall|done].
  - apply mapGet_None in Hget. rewrite mapSet_new by done. split_and!.
    + rewrite fmap_app. apply NoDup_app. split_and!; [done| |apply NoDup_singleton].
      intros k Hk Heq%list_elem_of_singleton. by subst k.
    + intros k r [Hold|[= -> ->]]%elem_of_snoc.
      * apply chosen_more; [by apply Hchosen|].
        intros _ Hd. fold dateKey in Hd. subst k. destruct Hget.
        apply list_elem_of_fmap. by exists (dateKey, r).
      * unfold Ranges.chosen. split_and!; try done.
        -- apply elem_of_app. right. by apply list_elem_of_singleton.
        -- intros c' [Hc'| ->]%elem_of_snoc Hs Hd; [|simpl; lra].
           exfalso. apply Hget. rewrite <- Hd. by apply Hall.
    + rewrite fmap_app.
      intros c' [Hc'| ->]%elem_of_snoc Hs; apply elem_of_app.
      * left. by apply Hall.
      * right. by apply list_elem_of_singleton.
Qed.
End RangeFacts.

(** X30. The daily ranges that [detectBreakoutSignals] scans: the array
    holds one range per date, in the order of their close times; the range
    of a date is made of the high, the low and the times of one of the
    4-hour klines that the loop selects for that date, and no selected
    kline of that date is wider; every date with a selected kline has its
    range. *)
Theorem dailyRangeArray_widest
    (getUTCPlus7Hour : Z → Z) (formatDateUTCPlus7 : Z → string)
    (now startTime endTime : Z) (klines : list Candle) :
  let selected := Ranges.selected getUTCPlus7Hour formatDateUTCPlus7 now startTime endTime in
  let dailyRangeArray :=
    Ranges.dailyRangeArray getUTCPlus7Hour formatDateUTCPlus7 now startTime endTime klines in
  NoDup dailyRangeArray.*1
  ∧ StronglySorted
      (λ a b, (DailyRange.closeTime a.2 <= DailyRange.closeTime b.2)%Z) dailyRangeArray
  ∧ (∀ dateKey range,
       (dateKey, range) ∈ dailyRangeArray →
       Ranges.chosen getUTCPlus7Hour formatDateUTCPlus7 now startTime endTime
         klines dateKey range)
  ∧ (∀ c, c ∈ klines → selected c = true →
          formatDateUTCPlus7 (closeTime c) ∈ dailyRangeArray.*1).
Proof.
  intros selected dailyRangeArray.
  destruct (dailyRanges_chosen getUTCPlus7Hour formatDateUTCPlus7 now startTime endTime klines)
    as (Hnd & Hchosen & Hall).
  assert (Hperm : dailyRangeArray
                  ≡ₚ Ranges.dailyRanges getUTCPlus7Hour formatDateUTCPlus7 now startTime
                       endTime klines) by apply sortWith_perm.
  split_and!.
  - by rewrite Hperm.
  - apply (sortWith_ordered _ (λ a, DailyRange.closeTime a.2)). intros x y. lia.
  - intros dateKey range Hin. rewrite Hperm in Hin. by apply Hchosen.
  - intros c Hc Hsel. rewrite Hperm. by apply Hall.
Qed.

Example dailyRangeArray_sample :
  (λ kv, (kv.1, DailyRange.high kv.2, DailyRange.low kv.2))
  <$> Ranges.dailyRangeArray Ranges.hourOf Ranges.dateOf (100 * 3600000) 0 (100 * 3600000)
        Ranges.threeRanges
  = [("1970-01-01", 102%Q, 94%Q); ("1970-01-02", 101%Q, 99%Q)].
Proof. vm_compute. reflexivity. Qed.
